(** * PopMap: the tile generator and the render grid

    A shallow embedding of [src/lib/PopMapGenerator.ts] (class
    [PopMapGenerator]) and of the render-grid construction of [renderMap]
    in the map component, with the properties of the specification stated
    over it.

    Modelling conventions.
    - JavaScript numbers that hold grid coordinates, packed coordinates,
      radii, counters and tile quotas are integers in the source (they come
      out of [Math.round], [Math.floor] or integer arithmetic); they are
      modelled as [Z].  The values [NaN]/[Infinity] that the source computes
      for a degenerate bounding box or a zero total population are outside
      the model: the constructor is partial there.
    - JavaScript numbers are binary64 numbers.  [Binary64] models the
      rounding of the arithmetic operations; the total population and the
      quotas ([PopMapGenerator64]) and the drag of a city ([PopMapDrag]) are
      evaluated with it.  The constructor of [PopMapGenerator] evaluates the
      centres and the quotas in exact rational arithmetic ([Q]); for
      non-negative populations with a total of at most 2^42 its quotas are
      the binary64 quotas.
    - [distanceToCenter] is [Math.sqrt] of an exact integer; the candidates
      are only ever compared with [<], and [Math.sqrt] is strictly
      increasing on the integers that occur (far below 2^50), so the model
      stores the squared distance.
    - [takenCells : Set<number>] is a [gset Z]; [adjacentCells], a JavaScript
      [Set] that is iterated (insertion order), is a duplicate-free list.
    - [renderGrid] is a list of rows; reads and writes outside the allocated
      grid have no value in the model.

    Layout: the embedding ([PopMapGenerator], [Binary64],
    [PopMapGenerator64], [PopMap], [PopMapView], [PopMapDrag]), the notions
    of the specification ([Scan], [RenderSpec]) and sample inputs
    ([Examples], [MoreExamples]); then the lemmas ([GeneratorProps],
    [Binary64Props], [Quota64Props], [RenderProps]), the claims
    ([Generator], [Render]) and further properties ([GeneratorExtra],
    [RenderExtra]). *)

From Stdlib Require Import ZArith QArith Qminmax Qround Qpower Qabs Qreduction.
From Stdlib Require Import Lia Lqa List Sorting.Sorted Floats.
From stdpp Require Import base gmap sets list strings.

Close Scope Q_scope.
Local Open Scope Z_scope.

(** ** Loops *)

(** [for (i = start; <n iterations>; i++) { ... return r ... }]: the first
    iteration whose body returns ends the loop. *)
Fixpoint for_return {A : Type} (n : nat) (i : Z) (body : Z → option A)
  : option A :=
  match n with
  | O => None
  | S n' =>
      match body i with
      | Some r => Some r
      | None => for_return n' (i + 1) body
      end
  end.

(** [for (i = start; <n iterations> && guard; i++) { ... break ... }] over a
    state; the body returns the new state and whether it hit [break]. *)
Fixpoint for_state {S : Type} (n : nat) (i : Z) (guard : S → bool)
    (body : Z → S → S * bool) (s : S) : S :=
  match n with
  | O => s
  | S n' =>
      if guard s then
        let '(s', brk) := body i s in
        if brk then s' else for_state n' (i + 1) guard body s'
      else s
  end.

Module PopMapGenerator.

Definition NUM_TILES : Z := 1024.
Definition BUFFER_SIZE : Z := 5.
Definition MAX_FALLBACK_CANDIDATES : Z := 50.

Definition COLOR_PALETTE : list string :=
  [ "#ff6b6b"; "#4ecdc4"; "#45b7d1"; "#96ceb4"; "#feca57";
    "#ff9ff3"; "#54a0ff"; "#48dbfb"; "#a29bfe"; "#c8d6e5" ]%string.

(** Modelled from the spec: the type [City] of [./cities], which is not
    among the sources.  A location has a name, a population, a latitude and a
    longitude; these are the fields the generator reads. *)
Record City := mkCity {
  name : string;
  population : Z;
  lat : Q;
  lng : Q
}.

(** [GridCity = City & { centerX; centerY; numTiles }]. *)
Record GridCity := mkGridCity {
  city : City;
  centerX : Z;
  centerY : Z;
  numTiles : Z
}.

Record Coordinate := mkCoordinate { x : Z; y : Z }.

#[global] Instance Coordinate_eq_dec : EqDecision Coordinate.
Proof. solve_decision. Defined.

Record CityTiles := mkCityTiles {
  index : nat;
  cityName : string;
  tiles : list Coordinate;
  color : string
}.

(** [CandidateTile]: the cell and its (squared) distance to the centre. *)
Record CandidateTile := mkCandidate {
  cell : Coordinate;
  distanceToCenter : Z
}.

(** [Math.round]: the nearest integer, halves towards plus infinity. *)
Definition Math_round (q : Q) : Z := Qfloor (q + (1 # 2))%Q.

(** The [numTiles] field computed by [convertCitiesToGridCoordinates]:
    [Math.round(this.numTiles * (city.population / this.totalPopulation))],
    evaluated exactly.  [PopMapGenerator64.numTiles64] is its evaluation in
    binary64, which gives the same number for non-negative populations with a
    total of at most 2^42 and can differ by one beyond. *)
Definition tileQuota (totalPopulation population : Z) : Z :=
  Math_round (inject_Z NUM_TILES * (inject_Z population / inject_Z totalPopulation))%Q.

(** [getColor] *)
Definition getColor (index : nat) : string :=
  nth (index mod length COLOR_PALETTE)%nat COLOR_PALETTE ""%string.

Section Grid.

Variables gridWidth gridHeight : Z.

(** [packCoordinate] *)
Definition packCoordinate (x y : Z) : Z := y * gridWidth + x.

(** [unpackCoordinate]: [%] is the truncating remainder, [Math.floor(a / b)]
    the floor of the quotient. *)
Definition unpackCoordinate (packed : Z) : Coordinate :=
  {| x := Z.rem packed gridWidth; y := packed / gridWidth |}.

(** [isValidCell] *)
Definition isValidCell (x y : Z) : bool :=
  (0 <=? x) && (x <? gridWidth) && (0 <=? y) && (y <? gridHeight).

(** [this.takenCells.has(packed)] *)
Definition has (takenCells : gset Z) (packed : Z) : bool :=
  bool_decide (packed ∈ takenCells).

(** [this.takenCells.add(packed)] *)
Definition add (packed : Z) (takenCells : gset Z) : gset Z :=
  {[ packed ]} ∪ takenCells.

(** *** [findNearestOpenCell] *)

(** The innermost block of the spiral search, at offset [(dx, dy)] of ring
    [radius]. *)
Definition probe (takenCells : gset Z) (targetX targetY radius dx dy : Z)
  : option Coordinate :=
  if (Z.abs dx =? radius) || (Z.abs dy =? radius) then
    let x := targetX + dx in
    let y := targetY + dy in
    if isValidCell x y then
      if negb (has takenCells (packCoordinate x y)) then
        Some {| x := x; y := y |}
      else None
    else None
  else None.

Definition findNearestOpenCell (takenCells : gset Z) (targetX targetY : Z)
  : option Coordinate :=
  if isValidCell targetX targetY
     && negb (has takenCells (packCoordinate targetX targetY))
  then Some {| x := targetX; y := targetY |}
  else
    (* for (radius = 1; radius < Math.max(gridWidth, gridHeight); radius++) *)
    for_return (Z.to_nat (Z.max gridWidth gridHeight - 1)) 1 (λ radius,
      (* for (dx = -radius; dx <= radius; dx++) *)
      for_return (Z.to_nat (2 * radius + 1)) (- radius) (λ dx,
        (* for (dy = -radius; dy <= radius; dy++) *)
        for_return (Z.to_nat (2 * radius + 1)) (- radius) (λ dy,
          probe takenCells targetX targetY radius dx dy))).

(** *** [findBestNextCell] *)

(** Squared Euclidean distance of [(x, y)] to the centre. *)
Definition distance2 (centerX centerY x y : Z) : Z :=
  (x - centerX) ^ 2 + (y - centerY) ^ 2.

(** [adjacentCells.add(packed)] on an insertion-ordered set. *)
Definition set_add (packed : Z) (s : list Z) : list Z :=
  if bool_decide (packed ∈ s) then s else s ++ [packed].

(** The body of the two neighbour loops for one offset. *)
Definition visit_neighbour (takenCells : gset Z) (tile : Coordinate)
    (dx dy : Z) (adjacentCells : list Z) : list Z :=
  if (dx =? 0) && (dy =? 0) then adjacentCells
  else
    let x := x tile + dx in
    let y := y tile + dy in
    if isValidCell x y then
      let packedCoord := packCoordinate x y in
      if negb (has takenCells packedCoord) then set_add packedCoord adjacentCells
      else adjacentCells
    else adjacentCells.

(** "Find cells adjacent to existing city tiles": the loops over
    [existingTiles], [dx = -1..1] and [dy = -1..1]. *)
Definition collectAdjacent (takenCells : gset Z)
    (existingTiles : list Coordinate) : list Z :=
  foldl (λ adj tile,
    foldl (λ adj dx,
      foldl (λ adj dy, visit_neighbour takenCells tile dx dy adj)
        adj [-1; 0; 1])
      adj [-1; 0; 1])
    [] existingTiles.

(** The body of the innermost fallback loop; the state is
    [(candidates, found)], the flag is the [break]. *)
Definition fallback_probe (takenCells : gset Z) (centerX centerY radius dx dy : Z)
    (st : list CandidateTile * Z) : (list CandidateTile * Z) * bool :=
  if (Z.abs dx =? radius) || (Z.abs dy =? radius) then
    (* Math.floor(centerX) is centerX: the centre is an integer *)
    let x := centerX + dx in
    let y := centerY + dy in
    if isValidCell x y then
      let packedCoord := packCoordinate x y in
      if negb (has takenCells packedCoord) then
        let candidates :=
          st.1 ++ [ {| cell := {| x := x; y := y |};
                       distanceToCenter := distance2 centerX centerY x y |} ] in
        let found := st.2 + 1 in
        ((candidates, found), MAX_FALLBACK_CANDIDATES <=? found)
      else (st, false)
    else (st, false)
  else (st, false).

(** "Fallback: spiral search". *)
Definition fallbackSearch (takenCells : gset Z) (centerX centerY : Z)
  : list CandidateTile :=
  let maxRadius := Z.max gridWidth gridHeight in
  fst (for_state (Z.to_nat maxRadius) 0
         (λ st, st.2 <? MAX_FALLBACK_CANDIDATES)
         (λ radius st,
            (for_state (Z.to_nat (2 * radius + 1)) (- radius) (λ _, true)
               (λ dx st,
                  let st' :=
                    for_state (Z.to_nat (2 * radius + 1)) (- radius) (λ _, true)
                      (fallback_probe takenCells centerX centerY radius dx) st in
                  (st', MAX_FALLBACK_CANDIDATES <=? st'.2))
               st,
             false))
         ([], 0)).

(** "Return the candidate with shortest distance to center". *)
Definition pickBest (candidates : list CandidateTile) : option Coordinate :=
  match candidates with
  | [] => None
  | first :: rest =>
      let best :=
        foldl (λ best c,
                 if distanceToCenter c <? distanceToCenter best then c else best)
              first rest in
      Some {| x := x (cell best); y := y (cell best) |}
  end.

Definition findBestNextCell (takenCells : gset Z) (centerX centerY : Z)
    (existingTiles : list Coordinate) : option Coordinate :=
  let adjacentCells := collectAdjacent takenCells existingTiles in
  let candidates :=
    if (0 <? length adjacentCells)%nat then
      fmap (λ packedCoord,
             let c := unpackCoordinate packedCoord in
             {| cell := c;
                distanceToCenter := distance2 centerX centerY (x c) (y c) |})
          adjacentCells
    else fallbackSearch takenCells centerX centerY in
  pickBest candidates.

(** *** [placeTiles] *)

(** The mutable fields of the generator. *)
Record State := mkState {
  takenCells : gset Z;
  cityTiles : list CityTiles
}.

(** "Add remaining tiles": [n] iterations of the loop
    [for (i = 1; i < city.numTiles; i++)] left. *)
Fixpoint growTiles (n : nat) (centerX centerY : Z) (taken : gset Z)
    (tiles : list Coordinate) : gset Z * list Coordinate :=
  match n with
  | O => (taken, tiles)
  | S n' =>
      match findBestNextCell taken centerX centerY tiles with
      | Some nextCell =>
          growTiles n' centerX centerY
            (add (packCoordinate (x nextCell) (y nextCell)) taken)
            (tiles ++ [ {| x := x nextCell; y := y nextCell |} ])
      | None => (taken, tiles)
      end
  end.

(** One iteration of the loop over the cities: the tiles of one city. *)
Definition placeCity (taken : gset Z) (c : GridCity)
  : gset Z * list Coordinate :=
  match findNearestOpenCell taken (centerX c) (centerY c) with
  | Some startCell =>
      growTiles (Z.to_nat (numTiles c - 1)) (centerX c) (centerY c)
        (add (packCoordinate (x startCell) (y startCell)) taken)
        [ {| x := x startCell; y := y startCell |} ]
  | None => (taken, [])
  end.

(** The loop of [placeTiles] from [cityIndex] on, [rest] being
    [this.cities.slice(cityIndex)]. *)
Fixpoint placeFrom (cityIndex : nat) (rest : list GridCity) (st : State)
  : State :=
  match rest with
  | [] => st
  | c :: rest' =>
      let '(taken, tiles) := placeCity (takenCells st) c in
      placeFrom (S cityIndex) rest'
        {| takenCells := taken;
           cityTiles := cityTiles st ++
             [ {| index := cityIndex; cityName := name (city c);
                  tiles := tiles; color := getColor cityIndex |} ] |}
  end.

Definition placeTiles (cities : list GridCity) (st : State) : State :=
  placeFrom 0 cities st.

(** The state the constructor leaves: no tile claimed, no result yet. *)
Definition initial : State := {| takenCells := ∅; cityTiles := [] |}.

(** [generate()] on a freshly constructed generator whose [cities] field is
    [cities]. *)
Definition generate (cities : list GridCity) : list CityTiles :=
  cityTiles (placeTiles cities initial).

(** *** The constructor *)

(** The comparator of [this.cities.sort((a, b) => a.numTiles - b.numTiles)]. *)
Definition compareCities (a b : GridCity) : Z := numTiles a - numTiles b.

(** [Array.prototype.sort] is stable (ECMAScript 2019); it is modelled as
    the stable insertion sort for the comparator: [a] goes in front of the
    first element it must not follow. *)
Fixpoint insertCity (a : GridCity) (sorted : list GridCity) : list GridCity :=
  match sorted with
  | [] => [a]
  | b :: sorted' =>
      if compareCities a b <=? 0 then a :: b :: sorted'
      else b :: insertCity a sorted'
  end.

Definition sortCities (cities : list GridCity) : list GridCity :=
  foldr insertCity [] cities.

(** [convertCitiesToGridCoordinates].  The folds of [Math.min]/[Math.max]
    start at the first city instead of at plus or minus [Infinity].  Where
    the source divides by a zero range or a zero total population (and
    produces [NaN]) the model has no value.  The centres are evaluated
    exactly; in binary64 a centre can differ by one cell where the exact
    value lies within a rounding error of a half-integer. *)
Definition convertCitiesToGridCoordinates (totalPopulation : Z)
    (cities : list City) : option (list GridCity) :=
  match cities with
  | [] => Some []
  | c0 :: _ =>
      let minLng := foldl (λ m c, Qmin m (lng c)) (lng c0) cities in
      let maxLng := foldl (λ m c, Qmax m (lng c)) (lng c0) cities in
      let minLat := foldl (λ m c, Qmin m (lat c)) (lat c0) cities in
      let maxLat := foldl (λ m c, Qmax m (lat c)) (lat c0) cities in
      let rangeLng := (maxLng - minLng)%Q in
      let rangeLat := (maxLat - minLat)%Q in
      let effectiveWidth := inject_Z (gridWidth - 2 * BUFFER_SIZE) in
      let effectiveHeight := inject_Z (gridHeight - 2 * BUFFER_SIZE) in
      if Qeq_bool rangeLng 0 || Qeq_bool rangeLat 0 || (totalPopulation =? 0)
      then None
      else
        Some (fmap (λ c,
          {| city := c;
             centerX := Math_round
               ((lng c - minLng) / rangeLng * effectiveWidth
                + inject_Z BUFFER_SIZE)%Q;
             centerY := Math_round
               ((lat c - minLat) / rangeLat * effectiveHeight
                + inject_Z BUFFER_SIZE)%Q;
             numTiles := tileQuota totalPopulation (population c) |}) cities)
  end.

(** The [totalPopulation] field: the sum accumulated by the constructor,
    evaluated exactly ([PopMapGenerator64.totalPopulation64] is the sum in
    binary64; the two agree for non-negative populations with a total below
    2^53). *)
Definition sumPopulation (cities : list City) : Z :=
  foldl (λ total c, total + population c) 0 cities.

(** [new PopMapGenerator(cities, gridWidth, gridHeight)]: the sorted
    [cities] field of the new object. *)
Definition construct (cities : list City) : option (list GridCity) :=
  sortCities <$> convertCitiesToGridCoordinates (sumPopulation cities) cities.

(** [new PopMapGenerator(cities, gridWidth, gridHeight).generate()] *)
Definition run (cities : list City) : option (list CityTiles) :=
  generate <$> construct cities.

End Grid.

End PopMapGenerator.

(** ** Binary64 arithmetic

    JavaScript numbers are IEEE 754 binary64 numbers, and every arithmetic
    operation returns its exact result rounded to the nearest binary64
    number, ties to the one with an even significand.  A finite binary64
    number is a rational [m * 2 ^ e] with [|m| < 2 ^ 53] and [e >= -1074];
    the values here are those rationals. *)
Module Binary64.

(** [2 ^ e], for an exponent of either sign. *)
Definition pow2 (e : Z) : Q := (2 ^ e)%Q.

(** [floor (log2 q)] for [q > 0]. *)
Definition ilog2 (q : Q) : Z :=
  let k := Z.log2 (Qnum q) - Z.log2 (Z.pos (Qden q)) in
  if Qle_bool (pow2 k) q then k else k - 1.

(** The exponent of the unit in the last place around [q]: 53 significant
    bits, and no exponent below -1074 (the subnormal numbers). *)
Definition ulpExp (q : Q) : Z := Z.max (ilog2 (Qabs q) - 52) (-1074).

(** The nearest integer, ties to the even one. *)
Definition nearestEven (q : Q) : Z :=
  let f := Qfloor q in
  match (q - inject_Z f ?= 1 # 2)%Q with
  | Lt => f
  | Gt => f + 1
  | Eq => if Z.even f then f else f + 1
  end.

(** Rounding of a real number to binary64: to the nearest multiple of the
    unit in the last place, ties to even.  The exponent is not bounded
    above here; [fl] checks the range. *)
Definition round (q : Q) : Q :=
  if Qeq_bool q 0 then 0%Q
  else (inject_Z (nearestEven (q / pow2 (ulpExp q))) * pow2 (ulpExp q))%Q.

(** The largest finite binary64 number, [(2 ^ 53 - 1) * 2 ^ 971]. *)
Definition maxFinite : Q := (inject_Z (2 ^ 53 - 1) * pow2 971)%Q.

(** The result of an operation whose exact value is [q]: the rounded value,
    in lowest terms, and no value where binary64 overflows to an infinity. *)
Definition fl (q : Q) : option Q :=
  let r := Qred (round q) in
  if Qle_bool (Qabs r) maxFinite then Some r else None.

(** [q] is a finite binary64 number. *)
Definition representable (q : Q) : Prop :=
  ∃ m e, (q == inject_Z m * pow2 e)%Q ∧ Z.abs m < 2 ^ 53 ∧ -1074 ≤ e.

(** The value of a binary64 float of the kernel, in lowest terms; none for
    an infinity or [NaN]. *)
Definition ofFloat (f : float) : option Q :=
  match Prim2SF f with
  | S754_zero _ => Some 0%Q
  | S754_finite s m e =>
      Some (Qred (inject_Z (if s then Z.neg m else Z.pos m) * pow2 e))
  | S754_infinity _ | S754_nan => None
  end.

End Binary64.

(** ** The total population and the quotas in binary64 *)
Module PopMapGenerator64.
Import PopMapGenerator Binary64.

(** [this.totalPopulation] after the loop of the constructor:
    [this.totalPopulation += city.population], from 0.  Populations are
    integers, and every integer up to [2 ^ 53] is a binary64 number. *)
Definition totalPopulation64 (cities : list City) : option Q :=
  foldl (λ total c, t ← total; fl (t + inject_Z (population c))%Q)
        (Some 0%Q) cities.

(** [Math.round(this.numTiles * (city.population / this.totalPopulation))]:
    the quotient is rounded, then the product; [Math.round] is exact.  There
    is no integer where the source gets [NaN] or an infinity (a zero total
    population, an overflow). *)
Definition numTiles64 (totalPopulation population : Q) : option Z :=
  if Qeq_bool totalPopulation 0 then None
  else
    ratio ← fl (population / totalPopulation)%Q;
    scaled ← fl (inject_Z NUM_TILES * ratio)%Q;
    Some (Math_round scaled).

(** The [numTiles] field that the constructor computes for the city [c] of
    [cities]. *)
Definition quota64 (cities : list City) (c : City) : option Z :=
  total ← totalPopulation64 cities;
  numTiles64 total (inject_Z (population c)).

End PopMapGenerator64.

(** ** The render grid of [renderMap] *)
Module PopMap.
Import PopMapGenerator.

(** [for (i = start; <n iterations>; i += step) { ... }] over a state, in a
    body that can fail. *)
Fixpoint for_step {S : Type} (n : nat) (i step : Z)
    (body : Z → S → option S) (s : S) : option S :=
  match n with
  | O => Some s
  | S n' => s' ← body i s; for_step n' (i + step) step body s'
  end.

(** [renderGrid : (number | null)[][]], rows first: [renderGrid[y][x]];
    [None] is [null]. *)
Abbreviation RenderGrid := (list (list (option nat))).

(** [renderGrid[y][x]] read inside the allocated grid (no value outside:
    the source would read [undefined]). *)
Definition get (g : RenderGrid) (y x : Z) : option (option nat) :=
  if (0 <=? y) && (0 <=? x) then
    row ← g !! Z.to_nat y; row !! Z.to_nat x
  else None.

(** [renderGrid[y][x] = v] inside the allocated grid.  Outside it the
    source throws a [TypeError] (no such row) or grows the row; the model
    has no value there. *)
Definition set (g : RenderGrid) (y x : Z) (v : option nat) : option RenderGrid :=
  match get g y x with
  | Some _ => Some (alter (λ row, <[Z.to_nat x := v]> row) (Z.to_nat y) g)
  | None => None
  end.

Section Render.

(** [Math.floor(generatorWidth / GRID_SIZE)] and
    [Math.floor(generatorHeight / GRID_SIZE)]: the dimensions the generator
    was built with. *)
Variables gridWidth gridHeight : Z.

Definition renderGridWidth : Z := gridWidth * 2 + 1.
Definition renderGridHeight : Z := gridHeight * 2 + 1.

(** "init render grid: null = unset, other values = city index" *)
Definition initGrid : RenderGrid :=
  replicate (Z.to_nat renderGridHeight) (replicate (Z.to_nat renderGridWidth) None).

(** "fill city tiles at odd render grid positions" *)
Definition fillTiles (cityTiles : list CityTiles) (g : RenderGrid)
  : option RenderGrid :=
  foldl (λ og cityData,
    foldl (λ og tile,
      g ← og;
      let renderX := x tile * 2 + 1 in
      let renderY := y tile * 2 + 1 in
      set g renderY renderX (Some (index cityData)))
      og (tiles cityData))
    (Some g) cityTiles.

(** The body of the loops over the even positions. *)
Definition fillAround (y x : Z) (g : RenderGrid) : option RenderGrid :=
  upLeft ← get g (y - 1) (x - 1);
  downLeft ← get g (y + 1) (x - 1);
  upRight ← get g (y - 1) (x + 1);
  downRight ← get g (y + 1) (x + 1);
  match upLeft with
  | None => Some g (* continue *)
  | Some _ =>
      g ← (if decide (upLeft = upRight) then set g (y - 1) x upLeft else Some g);
      g ← (if decide (upLeft = downLeft) then set g y (x - 1) upLeft else Some g);
      if decide (upLeft = upRight ∧ upLeft = downLeft ∧ upLeft = downLeft
                 ∧ upLeft = downRight)
      then set g y x upLeft
      else Some g
  end.

(** "fill border & corner tiles at even render grid positions":
    [for (y = 2; y < renderGridHeight - 2; y += 2)]
    [for (x = 2; x < renderGridWidth - 2; x += 2)]. *)
Definition fillBorders (g : RenderGrid) : option RenderGrid :=
  for_step (Z.to_nat ((renderGridHeight - 2 - 2 + 1) / 2)) 2 2 (λ y g,
    for_step (Z.to_nat ((renderGridWidth - 2 - 2 + 1) / 2)) 2 2 (λ x g,
      fillAround y x g) g) g.

(** The render grid built by [renderMap] from [cityTiles]. *)
Definition renderGrid (cityTiles : list CityTiles) : option RenderGrid :=
  g ← fillTiles cityTiles initGrid; fillBorders g.

End Render.

End PopMap.

(** ** The scan order of the spiral searches, as a list

    The perimeter of the [(2r+1) x (2r+1)] square, outer loop [dx] from [-r]
    to [r], inner loop [dy] from [-r] to [r], and the rings of radius
    [r0, r0+1, ..., r0+n-1] one after the other. *)
Module Scan.
Import PopMapGenerator.

Definition perimeter (r : Z) : list (Z * Z) :=
  dx ← seqZ (- r) (2 * r + 1);
  dy ← seqZ (- r) (2 * r + 1);
  if decide (Z.abs dx = r ∨ Z.abs dy = r) then [(dx, dy)] else [].

Definition rings (r0 n : Z) : list (Z * Z) :=
  r ← seqZ r0 n; perimeter r.

(** The cell at an offset of the target. *)
Definition at_offset (targetX targetY : Z) (d : Z * Z) : Coordinate :=
  {| x := targetX + d.1; y := targetY + d.2 |}.

(** A cell is open when it is grid-valid and unclaimed. *)
Definition isOpen (gridWidth gridHeight : Z) (taken : gset Z) (c : Coordinate)
  : Prop :=
  isValidCell gridWidth gridHeight (x c) (y c) = true
  ∧ packCoordinate gridWidth (x c) (y c) ∉ taken.

#[global] Instance isOpen_dec gw gh taken c : Decision (isOpen gw gh taken c).
Proof. unfold isOpen. apply _. Defined.

(** The open cells met by the rings around a target, in scan order. *)
Definition openCells (gridWidth gridHeight : Z) (taken : gset Z)
    (targetX targetY r0 n : Z) : list Coordinate :=
  filter (isOpen gridWidth gridHeight taken)
         (at_offset targetX targetY <$> rings r0 n).

(** Start-cell selection as the specification words it. *)
Definition startCell (gridWidth gridHeight : Z) (taken : gset Z)
    (centerX centerY : Z) : option Coordinate :=
  if decide (isOpen gridWidth gridHeight taken {| x := centerX; y := centerY |})
  then Some {| x := centerX; y := centerY |}
  else head (openCells gridWidth gridHeight taken centerX centerY 1
               (Z.max gridWidth gridHeight - 1)).

(** Start-cell selection with the rings scanned "up to
    [max(gridWidth, gridHeight)]", that ring included. *)
Definition startCellUpToMax (gridWidth gridHeight : Z) (taken : gset Z)
    (centerX centerY : Z) : option Coordinate :=
  if decide (isOpen gridWidth gridHeight taken {| x := centerX; y := centerY |})
  then Some {| x := centerX; y := centerY |}
  else head (openCells gridWidth gridHeight taken centerX centerY 1
               (Z.max gridWidth gridHeight)).

(** A cell with its (squared) distance to the centre. *)
Definition candidate (centerX centerY : Z) (c : Coordinate) : CandidateTile :=
  {| cell := c; distanceToCenter := distance2 centerX centerY (x c) (y c) |}.

(** The candidates of the bounded spiral search as the specification words
    them: the first [MAX_FALLBACK_CANDIDATES] open cells of the rings of
    radius [0 .. max(gridWidth, gridHeight) - 1] around the centre. *)
Definition fallbackCandidates (gridWidth gridHeight : Z) (taken : gset Z)
    (centerX centerY : Z) : list CandidateTile :=
  candidate centerX centerY <$>
    take (Z.to_nat MAX_FALLBACK_CANDIDATES)
         (openCells gridWidth gridHeight taken centerX centerY 0
            (Z.max gridWidth gridHeight)).

(** Appending open cells to [(candidates, found)] while [found] is below the
    cap. *)
Definition push (centerX centerY : Z) (cs : list Coordinate)
    (st : list CandidateTile * Z) : list CandidateTile * Z :=
  let cs' := take (Z.to_nat (MAX_FALLBACK_CANDIDATES - st.2)) cs in
  (st.1 ++ (candidate centerX centerY <$> cs'), st.2 + Z.of_nat (length cs')).

(** Two cells are 8-directionally adjacent. *)
Definition adjacent8 (t c : Coordinate) : Prop :=
  Z.max (Z.abs (x c - x t)) (Z.abs (y c - y t)) = 1.

(** The adjacency frontier of a location: the open cells adjacent to one of
    its tiles. *)
Definition inFrontier (gridWidth gridHeight : Z) (taken : gset Z)
    (existingTiles : list Coordinate) (c : Coordinate) : Prop :=
  isOpen gridWidth gridHeight taken c ∧ ∃ t, t ∈ existingTiles ∧ adjacent8 t c.

(** The packed coordinate of a cell, all tiles of a result and the cells
    they claim. *)
Definition packCell (gridWidth : Z) (c : Coordinate) : Z :=
  packCoordinate gridWidth (x c) (y c).

Definition allTiles (out : list CityTiles) : list Coordinate :=
  out ≫= tiles.

Definition claimed (gridWidth : Z) (out : list CityTiles) : gset Z :=
  list_to_set (packCell gridWidth <$> allTiles out).

(** The record pushed for the city at [cityIndex]. *)
Definition record (cityIndex : nat) (c : GridCity) (ts : list Coordinate)
  : CityTiles :=
  {| index := cityIndex; cityName := name (city c); tiles := ts;
     color := getColor cityIndex |}.

(** Chebyshev distance of a cell to the centre. *)
Definition chebyshev (centerX centerY : Z) (c : Coordinate) : Z :=
  Z.max (Z.abs (x c - centerX)) (Z.abs (y c - centerY)).

(** Rounding to the nearest integer, halves away from zero, as the
    specification words the rounding of the quota. *)
Definition roundHalfAwayFromZero (q : Q) : Z :=
  if Qle_bool 0 q then Qfloor (q + (1 # 2))%Q else Qceiling (q - (1 # 2))%Q.

End Scan.

(** ** The render grid, as the specification reads it *)
Module RenderSpec.
Import PopMapGenerator PopMap.

(** The value of the render cell at column [rx], row [ry]; cells outside the
    grid read as unassigned. *)
Definition cellAt (g : RenderGrid) (rx ry : Z) : option nat :=
  default None (get g ry rx).

(** The index written at the render cell of tile [(tx, ty)]: that of the
    last record holding the tile. *)
Definition owner (cityTiles : list CityTiles) (tx ty : Z) : option nat :=
  foldl (λ o cityData,
           if decide ({| x := tx; y := ty |} ∈ tiles cityData)
           then Some (index cityData) else o)
        None cityTiles.

(** A grid of [H] rows of [W] cells. *)
Definition wf (W H : nat) (g : RenderGrid) : Prop :=
  length g = H ∧ Forall (λ row, length row = W) g.

(** [(2 i, 2 j)] is an interior even render position: the position the
    loops of [renderMap] visit. *)
Definition interior (gridWidth gridHeight i j : Z) : Prop :=
  1 ≤ i ≤ gridWidth - 1 ∧ 1 ≤ j ≤ gridHeight - 1.

Section Expected.

Variables (gridWidth gridHeight : Z) (cityTiles : list CityTiles).

(** The value of the cell [(2 i, 2 j - 1)], between up-left and up-right of
    the even position [(2 i, 2 j)]. *)
Definition edgeX (i j : Z) : option nat :=
  let upLeft := owner cityTiles (i - 1) (j - 1) in
  let upRight := owner cityTiles i (j - 1) in
  if decide (upLeft ≠ None ∧ upLeft = upRight) then upLeft else None.

(** The value of the cell [(2 i - 1, 2 j)], between up-left and down-left. *)
Definition edgeY (i j : Z) : option nat :=
  let upLeft := owner cityTiles (i - 1) (j - 1) in
  let downLeft := owner cityTiles (i - 1) j in
  if decide (upLeft ≠ None ∧ upLeft = downLeft) then upLeft else None.

(** The value of the cell [(2 i, 2 j)] itself. *)
Definition corner (i j : Z) : option nat :=
  let upLeft := owner cityTiles (i - 1) (j - 1) in
  let upRight := owner cityTiles i (j - 1) in
  let downLeft := owner cityTiles (i - 1) j in
  let downRight := owner cityTiles i j in
  if decide (upLeft ≠ None ∧ upLeft = upRight ∧ upLeft = downLeft
             ∧ upLeft = downRight)
  then upLeft else None.

(** The state of the grid when the even positions in [done] have been
    visited. *)
Definition Inv (done : Z → Z → Prop) (g : RenderGrid) : Prop :=
  wf (Z.to_nat (renderGridWidth gridWidth)) (Z.to_nat (renderGridHeight gridHeight)) g
  ∧ (∀ tx ty, isValidCell gridWidth gridHeight tx ty = true →
              cellAt g (2 * tx + 1) (2 * ty + 1) = owner cityTiles tx ty)
  ∧ (∀ i j, interior gridWidth gridHeight i j → done i j →
            cellAt g (2 * i) (2 * j - 1) = edgeX i j
            ∧ cellAt g (2 * i - 1) (2 * j) = edgeY i j
            ∧ cellAt g (2 * i) (2 * j) = corner i j)
  ∧ (∀ rx ry,
       (∀ tx ty, isValidCell gridWidth gridHeight tx ty = true →
                 ¬ (rx = 2 * tx + 1 ∧ ry = 2 * ty + 1)) →
       (∀ i j, interior gridWidth gridHeight i j → done i j →
               ¬ (rx = 2 * i ∧ ry = 2 * j - 1) ∧ ¬ (rx = 2 * i - 1 ∧ ry = 2 * j)
               ∧ ¬ (rx = 2 * i ∧ ry = 2 * j)) →
       cellAt g rx ry = None).

End Expected.

(** The render positions [(rx, ry)] holding an index, row by row. *)
Definition assignedPositions (g : RenderGrid) : list (Z * Z) :=
  concat (imap (λ ry row,
            omap id (imap (λ rx v, match v with
                                   | Some _ => Some (Z.of_nat rx, Z.of_nat ry)
                                   | None => None
                                   end) row)) g).

End RenderSpec.

(** ** Concrete inputs *)
Module Examples.
Import PopMapGenerator.

(** Three cities on a 12 x 12 grid, as the constructor converts and sorts
    them: the quotas exceed the 144 cells of the grid. *)
Definition cityA : GridCity := mkGridCity (mkCity "A" 1 0 0) 5 5 5.
Definition cityB : GridCity := mkGridCity (mkCity "B" 100 1 1) 7 7 509.
Definition cityC : GridCity := mkGridCity (mkCity "C" 100 (1 # 2) (1 # 2)) 6 6 509.

(** Two cities on the same centre. *)
Definition cityB' : GridCity := mkGridCity (mkCity "B" 100 1 1) 5 5 509.

(** Scenario A of the specification: populations 100 and 300 on a 20 x 20
    grid. *)
Definition scenarioA : list City :=
  [ mkCity "A" 100 0 0; mkCity "B" 300 1 1 ].
Definition scenarioA_A : GridCity := mkGridCity (mkCity "A" 100 0 0) 5 5 256.
Definition scenarioA_B : GridCity := mkGridCity (mkCity "B" 300 1 1) 15 15 768.

(** Scenario B of the specification: one tile, and a 2 x 2 block of one
    location, away from the edges. *)
Definition singleTile : list CityTiles :=
  [ mkCityTiles 7 "a" [ {| x := 1; y := 1 |} ] "" ].
Definition blockRecord : CityTiles :=
  mkCityTiles 7 "a" [ {| x := 1; y := 1 |}; {| x := 2; y := 1 |};
                      {| x := 1; y := 2 |}; {| x := 2; y := 2 |} ] "".
Definition block : list CityTiles := [ blockRecord ].

(** A very small city next to a very large one. *)
Definition smallAndLarge : list City :=
  [ mkCity "A" 1 0 0; mkCity "B" 10000 1 1 ].

End Examples.

(** ** The pixel layout of [renderMap] *)
Module PopMapView.
Import PopMapGenerator PopMap.

Definition GRID_SIZE : Z := 10.
Definition BORDER_SIZE : Z := 2.

(** [const cityTileSize = GRID_SIZE - BORDER_SIZE] *)
Definition cityTileSize : Z := GRID_SIZE - BORDER_SIZE.

(** [flipY] *)
Definition flipY (y gridHeight : Z) : Z := gridHeight - 1 - y.

(** The loop [for (x = 0; x < renderGridWidth - 1; x += 2)] that fills
    [xPositions] (and [yPositions]), with [k] iterations left. *)
Fixpoint fillPositions (k : nat) (x : Z) (positions : list (option Z))
  : list (option Z) :=
  match k with
  | O => positions
  | S k' =>
      (* x is even: x / 2 is exact *)
      let basePos := GRID_SIZE * (x / 2) in
      fillPositions k' (x + 2)
        (<[Z.to_nat (x + 1) := Some (basePos + BORDER_SIZE)]>
           (<[Z.to_nat x := Some basePos]> positions))
  end.

(** [xPositions] for [gridSize = gridWidth], [yPositions] for
    [gridSize = gridHeight]: [new Array(renderGridSize)] (holes are [None]),
    the loop, and the "final border col/row".  The render size is odd, so
    [(renderGridSize - 1) / 2] is exact.  All writes are inside the array
    when [gridSize >= 0]; a negative size, where [new Array] throws, is
    outside the model. *)
Definition positions (gridSize : Z) : list (option Z) :=
  let renderGridSize := gridSize * 2 + 1 in
  let filled :=
    fillPositions (Z.to_nat (renderGridSize / 2)) 0
      (replicate (Z.to_nat renderGridSize) None) in
  <[Z.to_nat (renderGridSize - 1) :=
      Some (GRID_SIZE * ((renderGridSize - 1) / 2))]> filled.

(** [x % 2 === 1 ? cityTileSize : BORDER_SIZE] *)
Definition cellSize (x : Z) : Z :=
  if Z.rem x 2 =? 1 then cityTileSize else BORDER_SIZE.

(** The rectangle drawn for the render cell [(x, y)]:
    [(screenX, screenY, cellWidth, cellHeight)]; no value where the source
    reads [undefined] from the position arrays. *)
Definition cellRect (gridWidth gridHeight x y : Z) : option (Z * Z * Z * Z) :=
  let renderGridHeight := gridHeight * 2 + 1 in
  if (0 <=? x) && (0 <=? flipY y renderGridHeight) then
    screenX ← mjoin (positions gridWidth !! Z.to_nat x);
    let flippedY := flipY y renderGridHeight in
    screenY ← mjoin (positions gridHeight !! Z.to_nat flippedY);
    Some (screenX, screenY, cellSize x, cellSize flippedY)
  else None.

Definition backgroundColor : string := "rgba(8, 10, 20, 0.9)".

(** The colour a cell holding [cellValue] is filled with:
    [cityTiles.find((c) => c.index === cellValue)], then
    [cityData ? cityData.color : backgroundColor]. *)
Definition fillColor (cityTiles : list CityTiles) (cellValue : nat) : string :=
  match List.find (λ c, Nat.eqb (index c) cellValue) cityTiles with
  | Some cityData => color cityData
  | None => backgroundColor
  end.

End PopMapView.

(** ** Moving a city by drag and drop: [onDrag] *)
Module PopMapDrag.
Import PopMapGenerator Binary64.

(** One axis of the conversion back to a longitude or latitude,
    [min + ((clamped - 5) / effective) * range] with [range = max - min], in
    binary64: the difference, the quotient, the product and the sum are each
    rounded.  The integers [clamped - 5] and [effective] are exact. *)
Definition dragAxis (min max : Q) (clamped effective : Z) : option Q :=
  range ← fl (max - min)%Q;
  ratio ← fl (inject_Z (clamped - 5) / inject_Z effective)%Q;
  step ← fl (ratio * range)%Q;
  fl (min + step)%Q.

(** The part of [onDrag] after the mouse position has been converted to the
    city grid cell [(cityGridX, cityGridY)]: the new [editableCities].  The
    longitudes and latitudes of the cities are binary64 numbers.  The
    bounding-box folds start at the first city instead of at plus or minus
    [Infinity]; where the source divides by a zero effective width or height,
    or overflows, the model has no value.  A missing city ([dragCityIndex]
    out of range) leaves the list as it is. *)
Definition onDrag (gridWidth gridHeight : Z) (editableCities : list City)
    (dragCityIndex : nat) (cityGridX cityGridY : Z) : option (list City) :=
  match editableCities !! dragCityIndex, editableCities with
  | Some city, c0 :: _ =>
      let minLng := foldl (λ m c, Qmin m (lng c)) (lng c0) editableCities in
      let maxLng := foldl (λ m c, Qmax m (lng c)) (lng c0) editableCities in
      let minLat := foldl (λ m c, Qmin m (lat c)) (lat c0) editableCities in
      let maxLat := foldl (λ m c, Qmax m (lat c)) (lat c0) editableCities in
      let effectiveWidth := gridWidth - 2 * 5 in
      let effectiveHeight := gridHeight - 2 * 5 in
      let clampedGridX := Z.max 5 (Z.min (gridWidth - 5) cityGridX) in
      let clampedGridY := Z.max 5 (Z.min (gridHeight - 5) cityGridY) in
      if (effectiveWidth =? 0) || (effectiveHeight =? 0) then None
      else
        newLng ← dragAxis minLng maxLng clampedGridX effectiveWidth;
        newLat ← dragAxis minLat maxLat clampedGridY effectiveHeight;
        let updatedCity :=
          {| name := name city; population := population city;
             lat := newLat; lng := newLng |} in
        Some (<[dragCityIndex := updatedCity]> editableCities)
  | _, _ => Some editableCities
  end.

End PopMapDrag.

(** ** Further notions used in the statements *)
Module ExtraSpec.
Import PopMapGenerator.

(** The smallest and the largest value of a coordinate over the cities. *)
Definition minOf (f : City → Q) (cities : list City) : Q :=
  match cities with
  | [] => 0%Q
  | c0 :: _ => foldl (λ m c, Qmin m (f c)) (f c0) cities
  end.

Definition maxOf (f : City → Q) (cities : list City) : Q :=
  match cities with
  | [] => 0%Q
  | c0 :: _ => foldl (λ m c, Qmax m (f c)) (f c0) cities
  end.

(** The sum of the quotas the constructor assigns. *)
Definition sumQuota (totalPopulation : Z) (cities : list City) : Z :=
  foldr (λ c acc, tileQuota totalPopulation (population c) + acc) 0 cities.

(** The pixel at which the render column (or flipped row) [x] starts: 10
    pixels per tile, the 2-pixel border first. *)
Definition pixel (x : Z) : Z :=
  PopMapView.GRID_SIZE * (x / 2) + (if Z.odd x then PopMapView.BORDER_SIZE else 0).

End ExtraSpec.

(** ** More concrete inputs *)
Module MoreExamples.
Import PopMapGenerator.

(** The input cities behind [Examples.cityA], [cityB] and [cityC]. *)
Definition threeCities : list City :=
  [ mkCity "A" 1 0 0; mkCity "B" 100 1 1; mkCity "C" 100 (1 # 2) (1 # 2) ].

(** Two records holding the same tile. *)
Definition overlapFirst : CityTiles :=
  mkCityTiles 1 "a" [ {| x := 1; y := 1 |} ] "".
Definition overlapSecond : CityTiles :=
  mkCityTiles 2 "b" [ {| x := 1; y := 1 |} ] "".

(** Two cities on a 3 x 3 grid: the buffer of 5 cells puts the centre of the
    first one outside the grid. *)
Definition offGrid : list City :=
  [ mkCity "A" 1000 0 0; mkCity "B" 1 1 1 ].
Definition offGridA : GridCity := mkGridCity (mkCity "A" 1000 0 0) 5 5 1023.
Definition offGridB : GridCity := mkGridCity (mkCity "B" 1 1 1) (-2) (-2) 1.

(** Two cities at the binary64 longitudes nearest to -49.7 and 40.1. *)
Definition westEast : list City :=
  [ mkCity "W" 1 0 (-3497326585629901 # 70368744177664);
    mkCity "E" 1 1 (5643573283048653 # 140737488355328) ].

(** Two populations above [2 ^ 45] whose total is [2 ^ 46 + 1023]. *)
Definition hugeA : City := mkCity "A" 35150012350975 0 0.
Definition hugeCities : list City :=
  [ hugeA; mkCity "B" 35218731827712 1 1 ].

End MoreExamples.

(** * Properties *)

Section LoopLemmas.

Lemma head_app_list {A} (l1 l2 : list A) :
  head (l1 ++ l2) = match head l1 with Some a => Some a | None => head l2 end.
Proof. by destruct l1. Qed.

Lemma seqZ_S (i : Z) (n : nat) :
  seqZ i (Z.of_nat (S n)) = i :: seqZ (i + 1) (Z.of_nat n).
Proof.
  rewrite seqZ_cons by lia. f_equal. f_equal; lia.
Qed.

Lemma seqZ_to_nat (m n : Z) : seqZ m n = seqZ m (Z.of_nat (Z.to_nat n)).
Proof.
  destruct (decide (0 ≤ n)); [by rewrite Z2Nat.id|].
  rewrite !seqZ_nil; [done| lia..].
Qed.

(** A loop with early return is the head of the concatenated per-iteration
    results. *)
Lemma for_return_bind {A} (F : Z → list A) (body : Z → option A) n i :
  (∀ j, body j = head (F j)) →
  for_return n i body = head (seqZ i (Z.of_nat n) ≫= F).
Proof.
  intros HF. revert i. induction n as [|n IH]; intros i; [done|].
  rewrite seqZ_S. cbn [for_return]. rewrite bind_cons, head_app_list, <- HF.
  destruct (body i); [done|]. apply IH.
Qed.

Lemma filter_bind {A B} (P : B → Prop) `{∀ b, Decision (P b)}
    (f : A → list B) (l : list A) :
  filter P (l ≫= f) = l ≫= (λ a, filter P (f a)).
Proof.
  induction l as [|a l IH]; [done|].
  rewrite !bind_cons, filter_app, IH. done.
Qed.

Lemma fmap_bind_list {A B C} (g : B → C) (f : A → list B) (l : list A) :
  g <$> (l ≫= f) = l ≫= (λ a, g <$> f a).
Proof.
  induction l as [|a l IH]; [done|].
  rewrite !bind_cons, fmap_app, IH. done.
Qed.

Lemma bind_ext_list {A B} (f g : A → list B) (l : list A) :
  (∀ a, a ∈ l → f a = g a) → l ≫= f = l ≫= g.
Proof.
  induction l as [|a l IH]; intros H; [done|].
  rewrite !bind_cons, H, IH; [done| |]; intros; try apply H; set_solver.
Qed.

End LoopLemmas.

Module GeneratorProps.
Import PopMapGenerator Scan.

Section Grid.

Variables gridWidth gridHeight : Z.

Abbreviation valid := (isValidCell gridWidth gridHeight).
Abbreviation pack := (packCoordinate gridWidth).
Abbreviation unpack := (unpackCoordinate gridWidth).
Abbreviation open := (isOpen gridWidth gridHeight).

Lemma isValidCell_spec (a b : Z) :
  valid a b = true ↔ 0 ≤ a < gridWidth ∧ 0 ≤ b < gridHeight.
Proof. unfold isValidCell. rewrite !andb_true_iff. lia. Qed.

Lemma has_spec (taken : gset Z) p : has taken p = true ↔ p ∈ taken.
Proof. unfold has. apply bool_decide_eq_true. Qed.

Lemma open_spec taken a b :
  valid a b && negb (has taken (pack a b)) = true ↔ open taken {| x := a; y := b |}.
Proof.
  unfold isOpen. cbn. rewrite andb_true_iff, negb_true_iff.
  rewrite <- not_true_iff_false, has_spec. done.
Qed.

Lemma unpack_pack (a b : Z) :
  valid a b = true → unpack (pack a b) = {| x := a; y := b |}.
Proof.
  rewrite isValidCell_spec. intros [Ha Hb].
  unfold unpackCoordinate, packCoordinate.
  rewrite Z.rem_mod_nonneg by nia.
  f_equal.
  - rewrite Z.add_comm, Z.mod_add by lia. apply Z.mod_small. lia.
  - rewrite Z.div_add_l by lia. rewrite Z.div_small by lia. lia.
Qed.

Lemma pack_inj (a b a' b' : Z) :
  valid a b = true → valid a' b' = true → pack a b = pack a' b' →
  a = a' ∧ b = b'.
Proof.
  intros H1 H2 Heq.
  pose proof (unpack_pack _ _ H1) as E1.
  pose proof (unpack_pack _ _ H2) as E2.
  rewrite Heq, E2 in E1. by inversion E1.
Qed.

(** *** The rings *)

Lemma elem_of_perimeter r dx dy :
  (dx, dy) ∈ perimeter r ↔
  Z.abs dx ≤ r ∧ Z.abs dy ≤ r ∧ (Z.abs dx = r ∨ Z.abs dy = r).
Proof.
  unfold perimeter. rewrite list_elem_of_bind. split.
  - intros (dx' & H & Hdx). apply list_elem_of_bind in H as (dy' & H & Hdy).
    apply elem_of_seqZ in Hdx, Hdy.
    destruct (decide _) as [Hr|]; [|by apply elem_of_nil in H].
    apply list_elem_of_singleton in H. inversion H; subst. lia.
  - intros (Hx & Hy & Hr). exists dx. split; [|apply elem_of_seqZ; lia].
    apply list_elem_of_bind. exists dy. split; [|apply elem_of_seqZ; lia].
    rewrite decide_True by done. by apply list_elem_of_singleton.
Qed.

Lemma elem_of_rings r0 n dx dy :
  0 ≤ r0 →
  (dx, dy) ∈ rings r0 n ↔ r0 ≤ Z.max (Z.abs dx) (Z.abs dy) < r0 + n.
Proof.
  intros Hr0. unfold rings. rewrite list_elem_of_bind. split.
  - intros (r & H & Hr). apply elem_of_perimeter in H.
    apply elem_of_seqZ in Hr. lia.
  - intros H. exists (Z.max (Z.abs dx) (Z.abs dy)).
    rewrite elem_of_perimeter, elem_of_seqZ. lia.
Qed.

(** *** [findNearestOpenCell] *)

Lemma probe_head taken tx ty r dx dy :
  probe gridWidth gridHeight taken tx ty r dx dy =
  head (filter (open taken) (at_offset tx ty <$>
          (if decide (Z.abs dx = r ∨ Z.abs dy = r) then [(dx, dy)] else []))).
Proof.
  unfold probe.
  destruct (decide _) as [Hr|Hr].
  - replace ((Z.abs dx =? r) || (Z.abs dy =? r)) with true
      by (symmetry; apply orb_true_iff; lia).
    cbn [fmap list_fmap]. unfold at_offset. cbn [fst snd].
    rewrite filter_cons, filter_nil.
    destruct (decide (open taken _)) as [Ho|Ho].
    + apply open_spec in Ho. apply andb_true_iff in Ho as [-> ->]. done.
    + rewrite <- open_spec in Ho. apply not_true_is_false in Ho.
      apply andb_false_iff in Ho as [-> | ->]; [done|].
      by destruct (valid _ _).
  - replace ((Z.abs dx =? r) || (Z.abs dy =? r)) with false; [done|].
    symmetry; apply orb_false_iff; lia.
Qed.

Lemma spiral_openCells taken tx ty (n : nat) r0 :
  for_return n r0 (λ radius,
    for_return (Z.to_nat (2 * radius + 1)) (- radius) (λ dx,
      for_return (Z.to_nat (2 * radius + 1)) (- radius) (λ dy,
        probe gridWidth gridHeight taken tx ty radius dx dy)))
  = head (openCells gridWidth gridHeight taken tx ty r0 (Z.of_nat n)).
Proof.
  unfold openCells, rings, perimeter.
  rewrite fmap_bind_list, filter_bind.
  apply for_return_bind. intros r.
  rewrite (seqZ_to_nat (- r) (2 * r + 1)).
  rewrite fmap_bind_list, filter_bind.
  apply for_return_bind. intros dx.
  rewrite fmap_bind_list, filter_bind.
  apply for_return_bind. intros dy.
  apply probe_head.
Qed.

Lemma findNearestOpenCell_startCell taken tx ty :
  findNearestOpenCell gridWidth gridHeight taken tx ty
  = startCell gridWidth gridHeight taken tx ty.
Proof.
  unfold findNearestOpenCell, startCell.
  destruct (decide (open taken _)) as [Ho|Ho].
  - apply open_spec in Ho. by rewrite Ho.
  - rewrite <- open_spec in Ho. apply not_true_is_false in Ho. rewrite Ho.
    rewrite spiral_openCells. unfold openCells, rings.
    by rewrite <- seqZ_to_nat.
Qed.

Lemma elem_of_openCells taken tx ty r0 n c :
  0 ≤ r0 →
  c ∈ openCells gridWidth gridHeight taken tx ty r0 n ↔
  open taken c ∧ r0 ≤ Z.max (Z.abs (x c - tx)) (Z.abs (y c - ty)) < r0 + n.
Proof.
  intros Hr0. unfold openCells.
  rewrite list_elem_of_filter, list_elem_of_fmap. split.
  - intros (Ho & [dx dy] & -> & Hd). split; [done|].
    apply elem_of_rings in Hd; [|done]. cbn.
    replace (tx + dx - tx) with dx by lia.
    replace (ty + dy - ty) with dy by lia. done.
  - intros (Ho & Hd). split; [done|].
    exists (x c - tx, y c - ty). split.
    + destruct c as [a b]. unfold at_offset. cbn. f_equal; lia.
    + by apply elem_of_rings.
Qed.

Lemma findNearestOpenCell_Some taken tx ty c :
  findNearestOpenCell gridWidth gridHeight taken tx ty = Some c →
  open taken c.
Proof.
  rewrite findNearestOpenCell_startCell. unfold startCell.
  destruct (decide _) as [Ho|Ho]; [by intros [= <-]|].
  intros H. apply head_Some_elem_of in H.
  apply elem_of_openCells in H; [|lia]. tauto.
Qed.

Lemma findNearestOpenCell_None taken tx ty :
  findNearestOpenCell gridWidth gridHeight taken tx ty = None →
  ∀ c, open taken c →
       Z.max (Z.abs (x c - tx)) (Z.abs (y c - ty)) < Z.max gridWidth gridHeight →
       False.
Proof.
  rewrite findNearestOpenCell_startCell. unfold startCell.
  destruct (decide _) as [Ho|Ho]; [done|].
  intros H c Hc Hd. apply head_None in H.
  destruct (decide (Z.max (Z.abs (x c - tx)) (Z.abs (y c - ty)) = 0)) as [E|E].
  - apply Ho. destruct c as [a b]. cbn in *.
    replace tx with a by lia. replace ty with b by lia. done.
  - assert (c ∈ openCells gridWidth gridHeight taken tx ty 1
                  (Z.max gridWidth gridHeight - 1)) as Hin.
    { apply elem_of_openCells; [lia|]. split; [done|]. lia. }
    rewrite H in Hin. by apply elem_of_nil in Hin.
Qed.

(** *** [findBestNextCell]: the adjacency frontier *)

Lemma elem_of_set_add p q (s : list Z) : p ∈ set_add q s ↔ p ∈ s ∨ p = q.
Proof.
  unfold set_add. case_bool_decide as Hq.
  - split; [by left|]. intros [?| ->]; done.
  - rewrite elem_of_app, list_elem_of_singleton. done.
Qed.

Lemma foldl_elem_of {A} (f : list Z → A → list Z) (Q : A → Z → Prop) :
  (∀ adj a p, p ∈ f adj a ↔ p ∈ adj ∨ Q a p) →
  ∀ l adj p, p ∈ foldl f adj l ↔ p ∈ adj ∨ ∃ a, a ∈ l ∧ Q a p.
Proof.
  intros Hf l. induction l as [|a l IH]; intros adj p; cbn [foldl].
  - split; [by left|]. intros [?|(a & Ha%elem_of_nil & _)]; done.
  - rewrite IH, Hf. setoid_rewrite elem_of_cons. naive_solver.
Qed.

Lemma elem_of_visit_neighbour taken t dx dy adj p :
  p ∈ visit_neighbour gridWidth gridHeight taken t dx dy adj ↔
  p ∈ adj ∨ (¬ (dx = 0 ∧ dy = 0)
             ∧ open taken {| x := x t + dx; y := y t + dy |}
             ∧ p = pack (x t + dx) (y t + dy)).
Proof.
  unfold visit_neighbour.
  destruct ((dx =? 0) && (dy =? 0)) eqn:E0.
  { apply andb_true_iff in E0. split; [by left|]. intros [?|(? & _)]; [done|lia]. }
  apply andb_false_iff in E0.
  rewrite <- open_spec.
  destruct (valid _ _); cbn [andb]; [|naive_solver lia].
  destruct (negb _); [|naive_solver lia].
  rewrite elem_of_set_add. naive_solver lia.
Qed.

Lemma elem_of_collectAdjacent taken tiles p :
  p ∈ collectAdjacent gridWidth gridHeight taken tiles ↔
  ∃ t dx dy, t ∈ tiles ∧ dx ∈ [-1; 0; 1] ∧ dy ∈ [-1; 0; 1]
             ∧ ¬ (dx = 0 ∧ dy = 0)
             ∧ open taken {| x := x t + dx; y := y t + dy |}
             ∧ p = pack (x t + dx) (y t + dy).
Proof.
  unfold collectAdjacent.
  rewrite (foldl_elem_of _ (λ t p, ∃ dx dy, dx ∈ [-1; 0; 1] ∧ dy ∈ [-1; 0; 1]
             ∧ ¬ (dx = 0 ∧ dy = 0)
             ∧ open taken {| x := x t + dx; y := y t + dy |}
             ∧ p = pack (x t + dx) (y t + dy))).
  - split.
    + intros [H%elem_of_nil | (t & Ht & dx & dy & H)]; [done|].
      exists t, dx, dy. tauto.
    + intros (t & dx & dy & Ht & H). right. exists t. split; [done|].
      exists dx, dy. tauto.
  - intros adj t q.
    rewrite (foldl_elem_of _ (λ dx p, ∃ dy, dy ∈ [-1; 0; 1]
             ∧ ¬ (dx = 0 ∧ dy = 0)
             ∧ open taken {| x := x t + dx; y := y t + dy |}
             ∧ p = pack (x t + dx) (y t + dy))).
    { split.
      - intros [?|(dx & ? & dy & ?)]; [by left|right]. exists dx, dy. tauto.
      - intros [?|(dx & dy & ?)]; [by left|right].
        exists dx. split; [tauto|]. exists dy. tauto. }
    intros adj' dx q'.
    rewrite (foldl_elem_of _ (λ dy p, ¬ (dx = 0 ∧ dy = 0)
             ∧ open taken {| x := x t + dx; y := y t + dy |}
             ∧ p = pack (x t + dx) (y t + dy))); [done|].
    intros adj'' dy q''. apply elem_of_visit_neighbour.
Qed.

Lemma offset3_spec (d : Z) : d ∈ [-1; 0; 1] ↔ Z.abs d ≤ 1.
Proof. rewrite !elem_of_cons, elem_of_nil. lia. Qed.

(** The unpacked adjacent cells are exactly the frontier. *)
Lemma elem_of_frontier taken tiles c :
  c ∈ unpack <$> collectAdjacent gridWidth gridHeight taken tiles ↔
  inFrontier gridWidth gridHeight taken tiles c.
Proof.
  rewrite list_elem_of_fmap. setoid_rewrite elem_of_collectAdjacent.
  unfold inFrontier, adjacent8. split.
  - intros (p & -> & t & dx & dy & Ht & Hdx & Hdy & H0 & Ho & ->).
    rewrite unpack_pack by apply Ho. split; [done|].
    exists t. split; [done|]. cbn.
    apply offset3_spec in Hdx, Hdy. lia.
  - intros (Ho & t & Ht & Hadj). destruct c as [a b]. cbn in Hadj.
    exists (pack a b). split; [by rewrite unpack_pack by apply Ho|].
    exists t, (a - x t), (b - y t).
    rewrite !offset3_spec.
    replace (x t + (a - x t)) with a by lia.
    replace (y t + (b - y t)) with b by lia.
    split_and!; [done|lia|lia|lia|done|done].
Qed.

(** *** [pickBest] *)

Lemma foldl_best (first : CandidateTile) rest :
  let best := foldl (λ best c,
                if distanceToCenter c <? distanceToCenter best then c else best)
                first rest in
  best ∈ first :: rest
  ∧ ∀ c, c ∈ first :: rest → distanceToCenter best ≤ distanceToCenter c.
Proof.
  revert first. induction rest as [|c rest IH]; intros first; cbn [foldl].
  - split; [set_solver|]. intros c ->%list_elem_of_singleton. lia.
  - cbn zeta in *.
    destruct (Z.ltb_spec (distanceToCenter c) (distanceToCenter first)) as [Hlt|Hge].
    + destruct (IH c) as [Hin Hmin]. split; [set_solver|].
      intros c' Hc'. apply elem_of_cons in Hc' as [->|Hc'].
      * pose proof (Hmin c ltac:(set_solver)). lia.
      * by apply Hmin.
    + destruct (IH first) as [Hin Hmin]. split; [set_solver|].
      intros c' Hc'. apply elem_of_cons in Hc' as [->|Hc'].
      * apply Hmin. set_solver.
      * apply elem_of_cons in Hc' as [->|Hc'].
        -- pose proof (Hmin first ltac:(set_solver)). lia.
        -- apply Hmin. set_solver.
Qed.

Lemma pickBest_Some candidates b :
  pickBest candidates = Some b →
  ∃ c, c ∈ candidates ∧ cell c = b
       ∧ ∀ c', c' ∈ candidates → distanceToCenter c ≤ distanceToCenter c'.
Proof.
  destruct candidates as [|first rest]; [done|]. cbn [pickBest].
  intros [= <-]. destruct (foldl_best first rest) as [Hin Hmin].
  eexists. split; [exact Hin|]. split; [|exact Hmin].
  by destruct (cell _).
Qed.

Lemma pickBest_None candidates : pickBest candidates = None ↔ candidates = [].
Proof. by destruct candidates. Qed.

(** *** [findBestNextCell]: the bounded spiral search *)

Section Fallback.

Variables (taken : gset Z) (centerX centerY : Z).

Abbreviation cap := MAX_FALLBACK_CANDIDATES.
Abbreviation pushC := (push centerX centerY).

Lemma push_nil st : pushC [] st = st.
Proof.
  unfold push. rewrite take_nil. cbn. rewrite app_nil_r, Z.add_0_r.
  by destruct st.
Qed.

Lemma push_full cs st : cap ≤ st.2 → pushC cs st = st.
Proof.
  intros H. unfold push. replace (Z.to_nat (cap - st.2)) with 0%nat by lia.
  cbn. rewrite app_nil_r, Z.add_0_r. by destruct st.
Qed.

Lemma push_app cs1 cs2 st : pushC (cs1 ++ cs2) st = pushC cs2 (pushC cs1 st).
Proof.
  unfold push. cbn [fst snd]. rewrite take_app, fmap_app, length_app, app_assoc.
  rewrite !length_take.
  replace (Z.to_nat (cap - (st.2 + Z.of_nat (Z.to_nat (cap - st.2) `min` length cs1))))
    with (Z.to_nat (cap - st.2) - length cs1)%nat by lia.
  f_equal. lia.
Qed.

Lemma push_singleton c st :
  st.2 < cap →
  pushC [c] st = (st.1 ++ [candidate centerX centerY c], st.2 + 1).
Proof.
  intros H. unfold push.
  destruct (Z.to_nat (cap - st.2)) as [|k] eqn:E; [lia|].
  cbn [take]. rewrite take_nil. done.
Qed.

(** A loop of the fallback search whose iteration [i] pushes the cells
    [F i], under the cap discipline of the source: the loop is left (by
    [break] or by its guard) as soon as the cap is reached. *)
Lemma for_state_push (F : Z → list Coordinate)
    (guard : list CandidateTile * Z → bool)
    (body : Z → list CandidateTile * Z → (list CandidateTile * Z) * bool) :
  (∀ st, st.2 < cap → guard st = true) →
  (∀ i st, st.2 < cap →
     ∃ b, body i st = (pushC (F i) st, b)
          ∧ (b = true → cap ≤ (pushC (F i) st).2)
          ∧ (b = false → cap ≤ (pushC (F i) st).2 →
             guard (pushC (F i) st) = false)) →
  ∀ n i st, st.2 < cap →
    for_state n i guard body st = pushC (seqZ i (Z.of_nat n) ≫= F) st.
Proof.
  intros Hg Hb n. induction n as [|n IH]; intros i st Hst.
  - cbn. by rewrite push_nil.
  - rewrite seqZ_S, bind_cons, push_app. cbn [for_state].
    rewrite Hg by done.
    destruct (Hb i st Hst) as (b & -> & Hbt & Hbf).
    destruct b.
    + by rewrite (push_full _ (pushC (F i) st)) by auto.
    + destruct (decide ((pushC (F i) st).2 < cap)) as [Hlt|Hge].
      * by apply IH.
      * rewrite (push_full _ (pushC (F i) st)) by lia.
        destruct n; [done|]. cbn [for_state]. rewrite Hbf by (done || lia). done.
Qed.

Abbreviation cellsAt r dx dy :=
  (filter (open taken) (at_offset centerX centerY <$>
     (if decide (Z.abs dx = r ∨ Z.abs dy = r) then [(dx, dy)] else []))).

Lemma fallback_probe_push radius dx dy st :
  st.2 < cap →
  ∃ b, fallback_probe gridWidth gridHeight taken centerX centerY radius dx dy st
       = (pushC (cellsAt radius dx dy) st, b)
     ∧ (b = true → cap ≤ (pushC (cellsAt radius dx dy) st).2)
     ∧ (b = false → cap ≤ (pushC (cellsAt radius dx dy) st).2 →
        (λ _ : list CandidateTile * Z, true) (pushC (cellsAt radius dx dy) st) = false).
Proof.
  intros Hst. unfold fallback_probe.
  destruct (decide _) as [Hr|Hr].
  - replace ((Z.abs dx =? radius) || (Z.abs dy =? radius)) with true
      by (symmetry; apply orb_true_iff; lia).
    cbn [fmap list_fmap]. unfold at_offset. cbn [fst snd].
    rewrite filter_cons, filter_nil.
    destruct (decide (open taken _)) as [Ho|Ho].
    + apply open_spec in Ho. apply andb_true_iff in Ho as [-> ->].
      rewrite push_singleton by done. cbn [fst snd].
      eexists. split; [reflexivity|]. split; [intros H; lia|].
      intros H%Z.leb_gt ?. exfalso. lia.
    + rewrite push_nil.
      rewrite <- open_spec in Ho. apply not_true_is_false in Ho.
      exists false. split; [|split; [done|intros; exfalso; lia]].
      apply andb_false_iff in Ho as [-> | ->]; [done|].
      by destruct (valid _ _).
  - replace ((Z.abs dx =? radius) || (Z.abs dy =? radius)) with false
      by (symmetry; apply orb_false_iff; lia).
    cbn [fmap list_fmap]. rewrite filter_nil, push_nil.
    exists false. split; [done|].
    split; [done|intros; exfalso; lia].
Qed.

Lemma dy_loop_push radius dx st :
  st.2 < cap →
  for_state (Z.to_nat (2 * radius + 1)) (- radius) (λ _, true)
    (fallback_probe gridWidth gridHeight taken centerX centerY radius dx) st
  = pushC (seqZ (- radius) (2 * radius + 1) ≫= λ dy, cellsAt radius dx dy) st.
Proof.
  intros Hst. rewrite (seqZ_to_nat (- radius)).
  apply (for_state_push (λ dy, cellsAt radius dx dy)); [done| |done].
  intros dy st' Hst'. by apply fallback_probe_push.
Qed.

Lemma dx_loop_push radius st :
  st.2 < cap →
  for_state (Z.to_nat (2 * radius + 1)) (- radius) (λ _, true)
    (λ dx st,
       let st' :=
         for_state (Z.to_nat (2 * radius + 1)) (- radius) (λ _, true)
           (fallback_probe gridWidth gridHeight taken centerX centerY radius dx) st in
       (st', cap <=? st'.2)) st
  = pushC (seqZ (- radius) (2 * radius + 1) ≫= λ dx,
             seqZ (- radius) (2 * radius + 1) ≫= λ dy, cellsAt radius dx dy) st.
Proof.
  intros Hst.
  rewrite (seqZ_to_nat (- radius) (2 * radius + 1)) at 1.
  apply (for_state_push (λ dx, seqZ (- radius) (2 * radius + 1) ≫= λ dy, cellsAt radius dx dy));
    [done| |done].
  intros dx st' Hst'. cbn zeta. rewrite dy_loop_push by done.
  eexists. split; [reflexivity|]. split.
  - intros H. by apply Z.leb_le in H.
  - intros H%Z.leb_gt ?. exfalso. lia.
Qed.

Lemma fallbackSearch_spec :
  fallbackSearch gridWidth gridHeight taken centerX centerY
  = fallbackCandidates gridWidth gridHeight taken centerX centerY.
Proof.
  unfold fallbackSearch, fallbackCandidates, openCells, rings, perimeter.
  rewrite fmap_bind_list, filter_bind.
  rewrite (seqZ_to_nat 0 (Z.max gridWidth gridHeight)).
  rewrite (for_state_push (λ r, seqZ (- r) (2 * r + 1) ≫= λ dx,
             seqZ (- r) (2 * r + 1) ≫= λ dy, cellsAt r dx dy)).
  - unfold push. cbn [fst snd app]. rewrite Z.sub_0_r. f_equal. f_equal.
    apply bind_ext_list. intros r _.
    rewrite fmap_bind_list, filter_bind.
    apply bind_ext_list. intros dx _.
    by rewrite fmap_bind_list, filter_bind.
  - intros st Hst. by apply Z.ltb_lt.
  - intros r st Hst. rewrite dx_loop_push by done.
    exists false. split; [done|]. split; [done|].
    intros _ H. by apply Z.ltb_ge.
  - cbn. unfold MAX_FALLBACK_CANDIDATES. lia.
Qed.

End Fallback.

(** *** [findBestNextCell] as a whole *)

Lemma findBestNextCell_spec taken cx cy tiles :
  findBestNextCell gridWidth gridHeight taken cx cy tiles =
  pickBest
    (if decide (collectAdjacent gridWidth gridHeight taken tiles = [])
     then fallbackCandidates gridWidth gridHeight taken cx cy
     else candidate cx cy <$>
            (unpack <$> collectAdjacent gridWidth gridHeight taken tiles)).
Proof.
  unfold findBestNextCell. cbn zeta. rewrite fallbackSearch_spec.
  destruct (collectAdjacent _ _ _ _) as [|p adj]; [done|].
  rewrite decide_False by done. cbn [length Nat.ltb Nat.leb].
  by rewrite <- list_fmap_compose.
Qed.

Lemma elem_of_fallbackCandidates taken cx cy c :
  c ∈ fallbackCandidates gridWidth gridHeight taken cx cy →
  ∃ o, c = candidate cx cy o ∧ open taken o
       ∧ chebyshev cx cy o < Z.max gridWidth gridHeight.
Proof.
  unfold fallbackCandidates. rewrite list_elem_of_fmap.
  intros (o & -> & Ho). apply subseteq_take in Ho.
  apply elem_of_openCells in Ho as [Ho Hd]; [|done].
  exists o. unfold chebyshev. split_and!; [done|done|lia].
Qed.

Lemma findBestNextCell_Some taken cx cy tiles c :
  findBestNextCell gridWidth gridHeight taken cx cy tiles = Some c →
  open taken c.
Proof.
  rewrite findBestNextCell_spec. intros (cand & Hin & <- & _)%pickBest_Some.
  destruct (decide _) as [E|E].
  - apply elem_of_fallbackCandidates in Hin as (o & -> & Ho & _). done.
  - apply list_elem_of_fmap in Hin as (o & -> & Ho).
    apply elem_of_frontier in Ho. apply Ho.
Qed.

Lemma findBestNextCell_None taken cx cy tiles :
  findBestNextCell gridWidth gridHeight taken cx cy tiles = None →
  ∀ c, open taken c →
       chebyshev cx cy c < Z.max gridWidth gridHeight → False.
Proof.
  rewrite findBestNextCell_spec, pickBest_None. intros H c Ho Hd.
  destruct (decide _) as [E|E].
  - unfold fallbackCandidates in H. apply fmap_nil_inv in H.
    apply take_nil_inv in H as [H|H]; [done|].
    assert (c ∈ openCells gridWidth gridHeight taken cx cy 0
                  (Z.max gridWidth gridHeight)) as Hin.
    { apply elem_of_openCells; [done|]. split; [done|].
      unfold chebyshev in Hd. lia. }
    rewrite H in Hin. by apply elem_of_nil in Hin.
  - apply fmap_nil_inv, fmap_nil_inv in H. done.
Qed.

(** *** The growth loop and one city *)

Lemma open_mono taken taken' c :
  taken ⊆ taken' → open taken' c → open taken c.
Proof. intros Hsub [Hv Hn]. split; [done|]. set_solver. Qed.

Lemma eta_cell (c : Coordinate) : {| x := x c; y := y c |} = c.
Proof. by destruct c. Qed.

Lemma growTiles_spec n cx cy taken ts :
  ∃ new,
    growTiles gridWidth gridHeight n cx cy taken ts
    = (list_to_set (packCell gridWidth <$> new) ∪ taken, ts ++ new)
    ∧ (length new ≤ n)%nat
    ∧ Forall (open taken) new
    ∧ NoDup new
    ∧ ((length new < n)%nat →
       findBestNextCell gridWidth gridHeight
         (list_to_set (packCell gridWidth <$> new) ∪ taken) cx cy (ts ++ new)
       = None).
Proof.
  revert taken ts. induction n as [|n IH]; intros taken ts.
  { exists []. cbn. rewrite app_nil_r, (left_id_L ∅ (∪)).
    split_and!; [done|done|done|apply NoDup_nil_2|lia]. }
  cbn [growTiles].
  destruct (findBestNextCell _ _ taken cx cy ts) as [next|] eqn:E.
  - rewrite eta_cell.
    destruct (IH (add (pack (x next) (y next)) taken) (ts ++ [next]))
      as (new & Hg & Hlen & Hopen & Hnd & Hstop).
    exists (next :: new).
    assert (list_to_set (packCell gridWidth <$> next :: new) ∪ taken
            = list_to_set (packCell gridWidth <$> new)
              ∪ add (pack (x next) (y next)) taken) as Hset.
    { rewrite fmap_cons, list_to_set_cons. unfold add, packCell. set_solver. }
    rewrite Hset, Hg, <- !app_assoc. cbn [app length].
    split_and!.
    + done.
    + lia.
    + apply Forall_cons. split; [by eapply findBestNextCell_Some|].
      eapply Forall_impl; [exact Hopen|]. intros c. apply open_mono.
      unfold add. set_solver.
    + apply NoDup_cons. split; [|done]. intros Hin.
      rewrite Forall_forall in Hopen. destruct (Hopen _ Hin) as [_ Hn].
      apply Hn. unfold add. set_solver.
    + intros Hlt. rewrite <- !app_assoc in Hstop. apply Hstop. lia.
  - exists []. cbn. rewrite app_nil_r, (left_id_L ∅ (∪)).
    split_and!; [done|lia|done|apply NoDup_nil_2|done].
Qed.

Lemma placeCity_spec taken c :
  ∃ ts,
    placeCity gridWidth gridHeight taken c
    = (list_to_set (packCell gridWidth <$> ts) ∪ taken, ts)
    ∧ head ts = findNearestOpenCell gridWidth gridHeight taken (centerX c) (centerY c)
    ∧ Z.of_nat (length ts) ≤ Z.max 1 (numTiles c)
    ∧ Forall (open taken) ts
    ∧ NoDup ts
    ∧ (Z.of_nat (length ts) < numTiles c →
       ∀ o, open (list_to_set (packCell gridWidth <$> ts) ∪ taken) o →
            chebyshev (centerX c) (centerY c) o < Z.max gridWidth gridHeight →
            False).
Proof.
  unfold placeCity.
  destruct (findNearestOpenCell _ _ taken _ _) as [start|] eqn:E.
  - rewrite eta_cell.
    destruct (growTiles_spec (Z.to_nat (numTiles c - 1)) (centerX c) (centerY c)
                (add (pack (x start) (y start)) taken) [start])
      as (new & Hg & Hlen & Hopen & Hnd & Hstop).
    exists (start :: new).
    assert (list_to_set (packCell gridWidth <$> start :: new) ∪ taken
            = list_to_set (packCell gridWidth <$> new)
              ∪ add (pack (x start) (y start)) taken) as Hset.
    { rewrite fmap_cons, list_to_set_cons. unfold add, packCell. set_solver. }
    rewrite Hset, Hg. cbn [app length head].
    split_and!.
    + done.
    + done.
    + lia.
    + apply Forall_cons. split; [by eapply findNearestOpenCell_Some|].
      eapply Forall_impl; [exact Hopen|]. intros o. apply open_mono.
      unfold add. set_solver.
    + apply NoDup_cons. split; [|done]. intros Hin.
      rewrite Forall_forall in Hopen. destruct (Hopen _ Hin) as [_ Hn].
      apply Hn. unfold add. set_solver.
    + intros Hlt. eapply findBestNextCell_None. apply Hstop. lia.
  - exists []. cbn. rewrite (left_id_L ∅ (∪)).
    split_and!; [done|done|lia|done|apply NoDup_nil_2|].
    intros _ o Ho Hd. eapply findNearestOpenCell_None; eauto.
Qed.

(** *** The loop over the cities *)

Lemma placeFrom_app k l1 l2 st :
  placeFrom gridWidth gridHeight k (l1 ++ l2) st
  = placeFrom gridWidth gridHeight (k + length l1) l2
      (placeFrom gridWidth gridHeight k l1 st).
Proof.
  revert k st. induction l1 as [|c l1 IH]; intros k st; cbn [app placeFrom length].
  - by rewrite Nat.add_0_r.
  - destruct (placeCity _ _ _ _) as [taken ts]. rewrite IH.
    by rewrite Nat.add_succ_comm.
Qed.

Lemma claimed_snoc out r :
  claimed gridWidth (out ++ [r])
  = list_to_set (packCell gridWidth <$> tiles r) ∪ claimed gridWidth out.
Proof.
  unfold claimed, allTiles.
  rewrite bind_app, bind_singleton, fmap_app, list_to_set_app_L. set_solver.
Qed.

Lemma placeFrom_single k c st :
  placeFrom gridWidth gridHeight k [c] st
  = {| takenCells := (placeCity gridWidth gridHeight (takenCells st) c).1;
       cityTiles := cityTiles st ++
         [record k c (placeCity gridWidth gridHeight (takenCells st) c).2] |}.
Proof. cbn [placeFrom]. by destruct (placeCity _ _ _ _). Qed.

Lemma placeTiles_snoc cities c :
  placeTiles gridWidth gridHeight (cities ++ [c]) initial
  = placeFrom gridWidth gridHeight (length cities) [c]
      (placeTiles gridWidth gridHeight cities initial).
Proof. unfold placeTiles. by rewrite placeFrom_app. Qed.

(** [takenCells] holds exactly the packed tiles of the records pushed. *)
Lemma placeTiles_taken cities :
  takenCells (placeTiles gridWidth gridHeight cities initial)
  = claimed gridWidth (generate gridWidth gridHeight cities).
Proof.
  induction cities as [|c cities IH] using rev_ind; [done|].
  unfold generate. rewrite placeTiles_snoc, placeFrom_single.
  cbn [takenCells cityTiles]. rewrite claimed_snoc. cbn [tiles record].
  destruct (placeCity_spec
              (takenCells (placeTiles gridWidth gridHeight cities initial)) c)
    as (ts & -> & _).
  cbn [fst snd]. by rewrite IH.
Qed.

Lemma generate_snoc cities c :
  generate gridWidth gridHeight (cities ++ [c])
  = generate gridWidth gridHeight cities ++
      [record (length cities) c
         (placeCity gridWidth gridHeight
            (claimed gridWidth (generate gridWidth gridHeight cities)) c).2].
Proof.
  unfold generate at 1. rewrite placeTiles_snoc, placeFrom_single.
  cbn [cityTiles]. by rewrite placeTiles_taken.
Qed.

Lemma generate_length cities :
  length (generate gridWidth gridHeight cities) = length cities.
Proof.
  induction cities as [|c cities IH] using rev_ind; [done|].
  rewrite generate_snoc, !length_app, IH. done.
Qed.

Lemma generate_take i cities :
  take i (generate gridWidth gridHeight cities)
  = generate gridWidth gridHeight (take i cities).
Proof.
  induction cities as [|c cities IH] using rev_ind.
  { rewrite take_nil. change (generate gridWidth gridHeight []) with (@nil CityTiles).
    by rewrite take_nil. }
  rewrite generate_snoc.
  destruct (decide (i ≤ length cities)%nat).
  - rewrite !take_app_le by (rewrite ?generate_length; lia). done.
  - rewrite !take_ge by (rewrite ?length_app, ?generate_length; cbn; lia).
    by rewrite generate_snoc.
Qed.

(** The record at position [i] is computed from city [i] and the cells
    claimed by the records before it. *)
Lemma generate_lookup cities i c :
  cities !! i = Some c →
  generate gridWidth gridHeight cities !! i
  = Some (record i c
            (placeCity gridWidth gridHeight
               (claimed gridWidth (take i (generate gridWidth gridHeight cities))) c).2).
Proof.
  intros Hc.
  pose proof (lookup_lt_Some _ _ _ Hc) as Hlt.
  rewrite <- (lookup_take_lt _ (S i)) by lia.
  rewrite !generate_take.
  rewrite (take_S_r _ _ _ Hc), generate_snoc.
  rewrite lookup_app_r; rewrite generate_length, length_take, Nat.min_l by lia; [|done].
  by rewrite Nat.sub_diag.
Qed.

Lemma generate_lookup_inv cities i ct :
  generate gridWidth gridHeight cities !! i = Some ct →
  ∃ c, cities !! i = Some c.
Proof.
  intros H. apply lookup_lt_Some in H. rewrite generate_length in H.
  by apply lookup_lt_is_Some_2.
Qed.

Lemma elem_of_claimed out p :
  p ∈ claimed gridWidth out ↔
  ∃ ct t, ct ∈ out ∧ t ∈ tiles ct ∧ p = packCell gridWidth t.
Proof.
  unfold claimed, allTiles.
  rewrite elem_of_list_to_set, list_elem_of_fmap.
  setoid_rewrite list_elem_of_bind. split.
  - intros (t & -> & ct & Ht & Hct). by exists ct, t.
  - intros (ct & t & Hct & Ht & ->). exists t. split; [done|]. by exists ct.
Qed.

Lemma generate_open cities i c ct :
  cities !! i = Some c →
  generate gridWidth gridHeight cities !! i = Some ct →
  Forall (open (claimed gridWidth (take i (generate gridWidth gridHeight cities))))
         (tiles ct)
  ∧ NoDup (tiles ct).
Proof.
  intros Hc Hct. rewrite (generate_lookup _ _ _ Hc) in Hct.
  injection Hct as <-.
  destruct (placeCity_spec
              (claimed gridWidth (take i (generate gridWidth gridHeight cities))) c)
    as (ts & -> & _ & _ & Hopen & Hnd & _).
  done.
Qed.

Lemma generate_valid cities :
  Forall (λ ct, Forall (λ t, valid (x t) (y t) = true) (tiles ct))
         (generate gridWidth gridHeight cities).
Proof.
  apply Forall_lookup. intros i ct Hct.
  destruct (generate_lookup_inv _ _ _ Hct) as [c Hc].
  destruct (generate_open _ _ _ _ Hc Hct) as [Hopen _].
  eapply Forall_impl; [exact Hopen|]. intros t Ht. apply Ht.
Qed.

Lemma generate_disjoint cities i j ci cj t :
  (i < j)%nat →
  generate gridWidth gridHeight cities !! i = Some ci →
  generate gridWidth gridHeight cities !! j = Some cj →
  t ∈ tiles ci → t ∈ tiles cj → False.
Proof.
  intros Hij Hi Hj Hti Htj.
  destruct (generate_lookup_inv _ _ _ Hj) as [c Hc].
  destruct (generate_open _ _ _ _ Hc Hj) as [Hopen _].
  rewrite Forall_forall in Hopen. destruct (Hopen _ Htj) as [_ Hn].
  apply Hn. apply elem_of_claimed. exists ci, t. split_and!; [|done|done].
  apply list_elem_of_lookup. exists i. by rewrite lookup_take_lt.
Qed.

(** *** Saturation *)

(** Every grid cell is within Chebyshev distance [max(gridWidth,
    gridHeight) - 1] of a grid-valid centre. *)
Lemma chebyshev_valid cx cy o :
  valid cx cy = true → valid (x o) (y o) = true →
  chebyshev cx cy o < Z.max gridWidth gridHeight.
Proof.
  rewrite !isValidCell_spec. unfold chebyshev. lia.
Qed.

(** A packed coordinate claimed by the result is the tile of a record. *)
Lemma claimed_valid_cell cities a b :
  valid a b = true →
  pack a b ∈ claimed gridWidth (generate gridWidth gridHeight cities) →
  ∃ ct, ct ∈ generate gridWidth gridHeight cities
        ∧ {| x := a; y := b |} ∈ tiles ct.
Proof.
  intros Hv (ct & t & Hct & Ht & Hp)%elem_of_claimed.
  exists ct. split; [done|].
  pose proof (generate_valid cities) as Hall.
  rewrite Forall_forall in Hall. specialize (Hall _ Hct).
  rewrite Forall_forall in Hall. specialize (Hall _ Ht).
  destruct (pack_inj _ _ _ _ Hv Hall Hp) as [-> ->].
  by rewrite eta_cell.
Qed.

Lemma claimed_take_subseteq i out :
  claimed gridWidth (take i out) ⊆ claimed gridWidth out.
Proof.
  intros p (ct & t & Hct & Ht & ->)%elem_of_claimed.
  apply elem_of_claimed. exists ct, t. split_and!; [|done|done].
  by eapply subseteq_take.
Qed.

(** A city that stays below its quota leaves no open cell within reach of
    its centre, at the end of the run. *)
Lemma generate_saturated cities i c ct :
  cities !! i = Some c →
  generate gridWidth gridHeight cities !! i = Some ct →
  Z.of_nat (length (tiles ct)) < numTiles c →
  ∀ a b, valid a b = true →
         chebyshev (centerX c) (centerY c) {| x := a; y := b |}
           < Z.max gridWidth gridHeight →
         pack a b ∈ claimed gridWidth (generate gridWidth gridHeight cities).
Proof.
  intros Hc Hct Hlt a b Hv Hd.
  pose proof Hct as Hct'. rewrite (generate_lookup _ _ _ Hc) in Hct'.
  injection Hct' as <-.
  destruct (placeCity_spec
              (claimed gridWidth (take i (generate gridWidth gridHeight cities))) c)
    as (ts & Hts & _ & _ & _ & _ & Hsat).
  rewrite Hts in *. cbn [snd tiles record] in *.
  destruct (decide (pack a b ∈ claimed gridWidth (generate gridWidth gridHeight cities)))
    as [|Hn]; [done|].
  exfalso. apply (Hsat Hlt {| x := a; y := b |}); [|done].
  split; [done|]. cbn. intros Hin. apply Hn.
  apply elem_of_union in Hin as [Hin|Hin].
  - apply elem_of_list_to_set, list_elem_of_fmap in Hin as (t & -> & Ht).
    apply elem_of_claimed. exists (record i c ts), t.
    split_and!; [|exact Ht|done].
    by eapply list_elem_of_lookup_2.
  - by apply claimed_take_subseteq in Hin.
Qed.

End Grid.

(** *** The sort of the constructor *)

Lemma insertCity_perm a l : insertCity a l ≡ₚ a :: l.
Proof.
  induction l as [|b l IH]; cbn [insertCity]; [done|].
  destruct (compareCities a b <=? 0); [done|].
  rewrite IH. apply Permutation_swap.
Qed.

Lemma sortCities_perm l : sortCities l ≡ₚ l.
Proof.
  induction l as [|a l IH]; [done|].
  cbn [sortCities foldr]. rewrite insertCity_perm. by f_equiv.
Qed.

Lemma insertCity_sorted a l :
  StronglySorted (λ c d, numTiles c ≤ numTiles d) l →
  StronglySorted (λ c d, numTiles c ≤ numTiles d) (insertCity a l).
Proof.
  induction 1 as [|b l Hs IH Hb]; cbn [insertCity].
  - repeat constructor.
  - unfold compareCities. destruct (Z.leb_spec (numTiles a - numTiles b) 0) as [Hle|Hgt].
    + constructor; [by constructor|].
      constructor; [lia|]. eapply Forall_impl; [exact Hb|]. cbn. lia.
    + constructor; [done|].
      rewrite insertCity_perm. constructor; [lia|done].
Qed.

Lemma sortCities_sorted l :
  StronglySorted (λ c d, numTiles c ≤ numTiles d) (sortCities l).
Proof.
  induction l as [|a l IH]; [constructor|].
  cbn [sortCities foldr]. by apply insertCity_sorted.
Qed.

Lemma insertCity_filter q a l :
  filter (λ c, numTiles c = q) (insertCity a l)
  = filter (λ c, numTiles c = q) (a :: l).
Proof.
  induction l as [|b l IH]; cbn [insertCity]; [done|].
  unfold compareCities. destruct (Z.leb_spec (numTiles a - numTiles b) 0) as [Hle|Hgt];
    [done|].
  rewrite filter_cons, IH, !filter_cons.
  repeat case_decide; try done; lia.
Qed.

Lemma sortCities_filter q l :
  filter (λ c, numTiles c = q) (sortCities l) = filter (λ c, numTiles c = q) l.
Proof.
  induction l as [|a l IH]; [done|].
  cbn [sortCities foldr]. rewrite insertCity_filter, !filter_cons.
  fold (sortCities l). by rewrite IH.
Qed.

End GeneratorProps.

(** * Binary64 rounding *)
Module Binary64Props.
Import Binary64.

Lemma pow2_pos e : (0 < pow2 e)%Q.
Proof. apply Qpower_0_lt. done. Qed.

Lemma pow2_add a b : (pow2 (a + b) == pow2 a * pow2 b)%Q.
Proof. apply Qpower_plus. done. Qed.

Lemma pow2_le a b : a ≤ b → (pow2 a <= pow2 b)%Q.
Proof. intros H. apply Qpower_le_compat_l; done. Qed.

Lemma pow2_lt a b : a < b → (pow2 a < pow2 b)%Q.
Proof. intros H. apply Qpower_lt_compat_l; done. Qed.

Lemma pow2_lt_inv a b : (pow2 a < pow2 b)%Q → a < b.
Proof. intros H. eapply Qpower_lt_compat_l_inv; [exact H|done]. Qed.

Lemma pow2_inject n : 0 ≤ n → (pow2 n == inject_Z (2 ^ n))%Q.
Proof. intros H. unfold pow2. rewrite Zpower_Qpower by done. done. Qed.

Lemma pow2_div q a : (q / pow2 a == q * pow2 (- a))%Q.
Proof. unfold pow2, Qdiv. rewrite Qpower_opp. done. Qed.

Lemma pow2_div_mul q a : (q / pow2 a * pow2 a == q)%Q.
Proof.
  unfold Qdiv. rewrite <- Qmult_assoc, (Qmult_comm (/ _)), Qmult_inv_r, Qmult_1_r; [done|].
  pose proof (pow2_pos a) as H. intros E. rewrite E in H. done.
Qed.

Lemma Qle_div_pow2 q M e : (q <= inject_Z M * pow2 e)%Q ↔ (q / pow2 e <= inject_Z M)%Q.
Proof.
  split; intros H.
  - apply Qle_shift_div_r; [apply pow2_pos|done].
  - apply (Qmult_le_r _ _ (pow2 e)) in H; [|apply pow2_pos].
    by rewrite pow2_div_mul in H.
Qed.

Lemma Qge_div_pow2 q M e : (inject_Z M * pow2 e <= q)%Q ↔ (inject_Z M <= q / pow2 e)%Q.
Proof.
  split; intros H.
  - apply Qle_shift_div_l; [apply pow2_pos|done].
  - apply (Qmult_le_r _ _ (pow2 e)) in H; [|apply pow2_pos].
    by rewrite pow2_div_mul in H.
Qed.

(** ** [ilog2] *)

Lemma ilog2_spec q : (0 < q)%Q → (pow2 (ilog2 q) <= q)%Q ∧ (q < pow2 (ilog2 q + 1))%Q.
Proof.
  intros Hq. destruct q as [n d]. unfold ilog2. cbn [Qnum Qden].
  assert (0 < n) as Hn by (unfold Qlt in Hq; cbn in Hq; lia).
  set (a := Z.log2 n). set (b := Z.log2 (Z.pos d)).
  assert (0 ≤ a) as Ha by apply Z.log2_nonneg.
  assert (0 ≤ b) as Hb by apply Z.log2_nonneg.
  destruct (Z.log2_spec n Hn) as [Hn1 Hn2]. fold a in Hn1, Hn2.
  destruct (Z.log2_spec (Z.pos d) ltac:(lia)) as [Hd1 Hd2]. fold b in Hd1, Hd2.
  assert (n # d == inject_Z n / inject_Z (Z.pos d))%Q as Hq' by apply Qmake_Qdiv.
  assert (0 < inject_Z (Z.pos d))%Q as Hdpos by done.
  assert (pow2 (a - b - 1) <= n # d)%Q as Hlow.
  { rewrite Hq'. apply Qle_shift_div_l; [done|].
    apply Qle_trans with (pow2 (a - b - 1) * pow2 (b + 1))%Q.
    - apply Qmult_le_l; [apply pow2_pos|].
      rewrite pow2_inject by lia. rewrite <- Zle_Qle.
      replace (Z.succ b) with (b + 1) in Hd2 by lia. lia.
    - rewrite <- pow2_add. replace (a - b - 1 + (b + 1)) with a by lia.
      rewrite pow2_inject by lia. rewrite <- Zle_Qle. done. }
  assert (n # d < pow2 (a - b + 1))%Q as Hhigh.
  { rewrite Hq'. apply Qlt_shift_div_r; [done|].
    apply Qlt_le_trans with (pow2 (a - b + 1) * pow2 b)%Q.
    - rewrite <- pow2_add. replace (a - b + 1 + b) with (a + 1) by lia.
      rewrite pow2_inject by lia. rewrite <- Zlt_Qlt.
      replace (Z.succ a) with (a + 1) in Hn2 by lia. done.
    - apply Qmult_le_l; [apply pow2_pos|].
      rewrite pow2_inject by lia. rewrite <- Zle_Qle. done. }
  destruct (Qle_bool (pow2 (a - b)) (n # d)) eqn:E.
  - apply Qle_bool_iff in E. done.
  - split; [done|]. replace (a - b - 1 + 1) with (a - b) by lia.
    apply Qnot_le_lt. intros H. apply Qle_bool_iff in H. congruence.
Qed.

Lemma ilog2_unique q k :
  (pow2 k <= q)%Q → (q < pow2 (k + 1))%Q → ilog2 q = k.
Proof.
  intros H1 H2.
  assert (0 < q)%Q as Hq by (eapply Qlt_le_trans; [apply (pow2_pos k)|done]).
  destruct (ilog2_spec q Hq) as [S1 S2].
  assert (ilog2 q < k + 1).
  { apply pow2_lt_inv. eapply Qle_lt_trans; eauto. }
  assert (k < ilog2 q + 1).
  { apply pow2_lt_inv. eapply Qle_lt_trans; eauto. }
  lia.
Qed.

Lemma ilog2_mono q q' : (0 < q)%Q → (q <= q')%Q → ilog2 q ≤ ilog2 q'.
Proof.
  intros Hq Hle.
  assert (0 < q')%Q as Hq' by (eapply Qlt_le_trans; eauto).
  destruct (ilog2_spec q Hq) as [S1 _], (ilog2_spec q' Hq') as [_ S2'].
  assert (ilog2 q < ilog2 q' + 1); [|lia].
  apply pow2_lt_inv. eapply Qle_lt_trans; [exact S1|].
  eapply Qle_lt_trans; eauto.
Qed.

Lemma ilog2_comp q q' : (0 < q)%Q → (q == q')%Q → ilog2 q = ilog2 q'.
Proof.
  intros Hq E. symmetry. destruct (ilog2_spec q Hq) as [S1 S2].
  apply ilog2_unique; by rewrite <- E.
Qed.

(** ** [nearestEven] *)

Lemma nearestEven_bounds q : Qfloor q ≤ nearestEven q ≤ Qfloor q + 1.
Proof. unfold nearestEven. cbn zeta. repeat case_match; lia. Qed.

Lemma nearestEven_Z m : nearestEven (inject_Z m) = m.
Proof.
  unfold nearestEven. cbn zeta. rewrite Qfloor_Z.
  replace (inject_Z m - inject_Z m ?= 1 # 2)%Q with Lt; [done|].
  symmetry. apply Qlt_alt.
  assert (inject_Z m - inject_Z m == 0)%Q as -> by ring. done.
Qed.

Lemma nearestEven_comp q q' : (q == q')%Q → nearestEven q = nearestEven q'.
Proof.
  intros E. unfold nearestEven. cbn zeta. rewrite (Qfloor_comp _ _ E).
  replace (q - inject_Z (Qfloor q') ?= 1 # 2)%Q
    with (q' - inject_Z (Qfloor q') ?= 1 # 2)%Q; [done|].
  apply Qcompare_comp; [|done]. by rewrite E.
Qed.

Lemma nearestEven_mono q q' : (q <= q')%Q → nearestEven q ≤ nearestEven q'.
Proof.
  intros Hle. pose proof (Qfloor_resp_le _ _ Hle) as Hf.
  pose proof (nearestEven_bounds q) as B. pose proof (nearestEven_bounds q') as B'.
  destruct (decide (Qfloor q = Qfloor q')) as [E|NE]; [|lia].
  unfold nearestEven. cbn zeta. rewrite <- E.
  assert (q - inject_Z (Qfloor q) <= q' - inject_Z (Qfloor q))%Q as Hr
    by (by apply Qplus_le_l).
  destruct (q - inject_Z (Qfloor q) ?= 1 # 2)%Q eqn:C;
    destruct (q' - inject_Z (Qfloor q) ?= 1 # 2)%Q eqn:C';
    try (destruct (Z.even (Qfloor q)); lia).
  - apply Qeq_alt in C. apply Qlt_alt in C'. rewrite C in Hr.
    exfalso. by apply (Qlt_not_le _ _ C').
  - apply Qgt_alt in C. apply Qeq_alt in C'. rewrite C' in Hr.
    exfalso. by apply (Qlt_not_le _ _ C).
  - apply Qgt_alt in C. apply Qlt_alt in C'.
    exfalso. apply (Qlt_not_le _ _ C). eapply Qle_trans; [exact Hr|]. by apply Qlt_le_weak.
Qed.

(** ** [round] *)

Lemma round_nonzero q :
  ¬ (q == 0)%Q →
  round q = (inject_Z (nearestEven (q / pow2 (ulpExp q))) * pow2 (ulpExp q))%Q.
Proof.
  intros H. unfold round. destruct (Qeq_bool q 0) eqn:E; [|done].
  apply Qeq_bool_iff in E. done.
Qed.

Lemma round_zero q : (q == 0)%Q → round q = 0%Q.
Proof.
  intros H. unfold round. destruct (Qeq_bool q 0) eqn:E; [done|].
  apply Qeq_bool_neq in E. done.
Qed.

Lemma Qabs_pos_nonzero q : ¬ (q == 0)%Q → (0 < Qabs q)%Q.
Proof.
  intros H. destruct (Qlt_le_dec 0 (Qabs q)) as [?|Hle]; [done|].
  exfalso. apply H.
  pose proof (Qabs_nonneg q) as Hnn.
  assert (Qabs q == 0)%Q as E by (by apply Qle_antisym).
  pose proof (Qle_Qabs q) as H1. pose proof (Qle_Qabs (- q)) as H2.
  rewrite Qabs_opp in H2. rewrite E in H1, H2.
  apply Qle_antisym; [done|].
  apply Qopp_le_compat in H2. by rewrite Qopp_involutive in H2.
Qed.

Lemma ulpExp_comp q q' : ¬ (q == 0)%Q → (q == q')%Q → ulpExp q = ulpExp q'.
Proof.
  intros H E. unfold ulpExp.
  rewrite (ilog2_comp (Qabs q) (Qabs q')); [done|by apply Qabs_pos_nonzero|by apply Qabs_wd].
Qed.

Lemma round_comp q q' : (q == q')%Q → (round q == round q')%Q.
Proof.
  intros E. destruct (Qeq_dec q 0) as [Z|NZ].
  - rewrite (round_zero q Z), (round_zero q'); [done|by rewrite <- E].
  - rewrite (round_nonzero q NZ), (round_nonzero q'); [|by rewrite <- E].
    rewrite <- (ulpExp_comp q q' NZ E).
    rewrite (nearestEven_comp (q / pow2 (ulpExp q)) (q' / pow2 (ulpExp q))); [done|].
    unfold Qdiv. by apply Qmult_comp.
Qed.

#[global] Instance round_Proper : Proper (Qeq ==> Qeq) round.
Proof. intros q q' E. by apply round_comp. Qed.

Lemma round_le_multiple q M :
  ¬ (q == 0)%Q → (q <= inject_Z M * pow2 (ulpExp q))%Q →
  (round q <= inject_Z M * pow2 (ulpExp q))%Q.
Proof.
  intros NZ H. rewrite (round_nonzero q NZ).
  apply Qmult_le_compat_r; [|apply Qlt_le_weak, pow2_pos].
  rewrite <- Zle_Qle. rewrite <- (nearestEven_Z M).
  apply nearestEven_mono. by apply Qle_div_pow2.
Qed.

Lemma round_ge_multiple q M :
  ¬ (q == 0)%Q → (inject_Z M * pow2 (ulpExp q) <= q)%Q →
  (inject_Z M * pow2 (ulpExp q) <= round q)%Q.
Proof.
  intros NZ H. rewrite (round_nonzero q NZ).
  apply Qmult_le_compat_r; [|apply Qlt_le_weak, pow2_pos].
  rewrite <- Zle_Qle. rewrite <- (nearestEven_Z M) at 1.
  apply nearestEven_mono. by apply Qge_div_pow2.
Qed.

Lemma Qpos_nonzero q : (0 < q)%Q → ¬ (q == 0)%Q.
Proof. intros H E. rewrite E in H. done. Qed.

Lemma ulpExp_pos q : (0 < q)%Q → ulpExp q = Z.max (ilog2 q - 52) (-1074).
Proof.
  intros H. unfold ulpExp.
  rewrite (ilog2_comp (Qabs q) q); [done| |].
  - apply Qabs_pos_nonzero. by apply Qpos_nonzero.
  - apply Qabs_pos. by apply Qlt_le_weak.
Qed.

Lemma round_nonneg q : (0 <= q)%Q → (0 <= round q)%Q.
Proof.
  intros H. destruct (Qeq_dec q 0) as [Z|NZ].
  - by rewrite (round_zero q Z).
  - apply Qle_trans with (inject_Z 0 * pow2 (ulpExp q))%Q.
    + by rewrite Qmult_0_l.
    + apply round_ge_multiple; [done|]. by rewrite Qmult_0_l.
Qed.

Lemma round_mono_pos q q' : (0 < q)%Q → (q <= q')%Q → (round q <= round q')%Q.
Proof.
  intros Hq Hle.
  assert (0 < q')%Q as Hq' by (eapply Qlt_le_trans; eauto).
  pose proof (Qpos_nonzero q Hq) as NZ. pose proof (Qpos_nonzero q' Hq') as NZ'.
  pose proof (ilog2_mono q q' Hq Hle) as Hk.
  pose proof (ulpExp_pos q Hq) as He. pose proof (ulpExp_pos q' Hq') as He'.
  destruct (decide (ulpExp q = ulpExp q')) as [E|NE].
  - rewrite (round_nonzero q NZ), (round_nonzero q' NZ'), <- E.
    apply Qmult_le_compat_r; [|apply Qlt_le_weak, pow2_pos].
    rewrite <- Zle_Qle. apply nearestEven_mono.
    apply Qmult_le_compat_r; [done|]. apply Qlt_le_weak, Qinv_lt_0_compat, pow2_pos.
  - destruct (ilog2_spec q Hq) as [_ S2], (ilog2_spec q' Hq') as [S1' _].
    assert (ilog2 q + 1 ≤ ilog2 q') as Hk' by lia.
    assert (ulpExp q' = ilog2 q' - 52) as He'' by lia.
    apply Qle_trans with (pow2 (ilog2 q')).
    + assert (pow2 (ilog2 q') == inject_Z (2 ^ (ilog2 q' - ulpExp q)) * pow2 (ulpExp q))%Q
        as EB.
      { rewrite <- pow2_inject by lia. rewrite <- pow2_add. by replace (ilog2 q' - ulpExp q + ulpExp q) with (ilog2 q') by lia. }
      rewrite EB. apply round_le_multiple; [done|]. rewrite <- EB.
      apply Qlt_le_weak. eapply Qlt_le_trans; [exact S2|]. by apply pow2_le.
    + assert (pow2 (ilog2 q') == inject_Z (2 ^ 52) * pow2 (ulpExp q'))%Q as EB.
      { rewrite <- pow2_inject by lia. rewrite <- pow2_add. by replace (52 + ulpExp q') with (ilog2 q') by lia. }
      rewrite EB. apply round_ge_multiple; [done|]. by rewrite <- EB.
Qed.

Lemma round_mono_nonneg q q' : (0 <= q)%Q → (q <= q')%Q → (round q <= round q')%Q.
Proof.
  intros Hq Hle. apply Qle_lteq in Hq as [Hq|Hq].
  - by apply round_mono_pos.
  - rewrite (round_zero q); [|done]. apply round_nonneg. by rewrite Hq.
Qed.

Lemma round_representable q : representable q → (round q == q)%Q.
Proof.
  intros (m & a & E & Hm & Ha).
  destruct (Qeq_dec q 0) as [Z|NZ]; [by rewrite (round_zero q Z)|].
  rewrite (round_nonzero q NZ).
  pose proof (Qabs_pos_nonzero q NZ) as Hpos.
  destruct (ilog2_spec _ Hpos) as [S1 _].
  assert (Qabs q < pow2 (53 + a))%Q as Hlt.
  { rewrite E, Qabs_Qmult, (Qabs_pos (pow2 a)) by apply Qlt_le_weak, pow2_pos.
    rewrite pow2_add. apply Qmult_lt_r; [apply pow2_pos|].
    rewrite pow2_inject by lia.
    assert (Qabs (inject_Z m) == inject_Z (Z.abs m))%Q as -> by done.
    by rewrite <- Zlt_Qlt. }
  assert (ilog2 (Qabs q) < 53 + a) as Hk.
  { apply pow2_lt_inv. eapply Qle_lt_trans; eauto. }
  assert (ulpExp q ≤ a) as He by (unfold ulpExp; lia).
  assert (q == inject_Z (m * 2 ^ (a - ulpExp q)) * pow2 (ulpExp q))%Q as E'.
  { rewrite E at 1. rewrite inject_Z_mult, <- pow2_inject by lia.
    rewrite <- Qmult_assoc, <- pow2_add.
    by replace (a - ulpExp q + ulpExp q) with a by lia. }
  rewrite (nearestEven_comp _ (inject_Z (m * 2 ^ (a - ulpExp q)))).
  - by rewrite nearestEven_Z, <- E'.
  - rewrite E' at 1. unfold Qdiv. rewrite <- Qmult_assoc, Qmult_inv_r, Qmult_1_r; [done|].
    apply Qpos_nonzero, pow2_pos.
Qed.

(** ** The kernel's floats

    The rounding of this model against the binary64 operations of the
    kernel, on the operands that matter below. *)
Example fl_agrees_with_the_kernel_floats :
  ofFloat (35150012350975 / 70368744178687)%float
  = fl (35150012350975 # 70368744178687)
  ∧ ofFloat (1024 * (35150012350975 / 70368744178687))%float
    = (r ← fl (35150012350975 # 70368744178687); fl (1024 * r))
  ∧ ofFloat (1 / 3)%float = fl (1 # 3)
  ∧ ofFloat (100 / 400)%float = fl (100 # 400)
  ∧ ofFloat (125072497065085 + -144397413662454)%float
    = fl (125072497065085 + -144397413662454)
  ∧ ofFloat (0x1.6a09e667f3bcdp+0 * 0x1.6a09e667f3bcdp+0)%float
    = (a ← ofFloat 0x1.6a09e667f3bcdp+0%float; fl (a * a))
  ∧ ofFloat (-0x1.8d9999999999ap+5 + 4 / 4
             * (0x1.40ccccccccccdp+5 - -0x1.8d9999999999ap+5))%float
    = (lo ← ofFloat (-0x1.8d9999999999ap+5)%float;
       hi ← ofFloat 0x1.40ccccccccccdp+5%float;
       range ← fl (hi - lo); ratio ← fl (4 / 4);
       step ← fl (ratio * range); fl (lo + step)).
Proof. split_and!; vm_compute; reflexivity. Qed.

(** ** Negative numbers *)

Lemma nearestEven_opp q : nearestEven (- q) = - nearestEven q.
Proof.
  destruct (Qeq_dec q (inject_Z (Qfloor q))) as [E|NE].
  - rewrite (nearestEven_comp (- q) (inject_Z (- Qfloor q))).
    + by rewrite nearestEven_Z, (nearestEven_comp q _ E), nearestEven_Z.
    + rewrite inject_Z_opp. by apply Qopp_comp.
  - pose proof (Qfloor_le q) as F1. pose proof (Qlt_floor q) as F2.
    rewrite inject_Z_plus in F2. change (inject_Z 1) with 1%Q in F2.
    assert (inject_Z (Qfloor q) < q)%Q as F1'.
    { apply Qle_lteq in F1 as [?|E]; [done|]. exfalso. apply NE. by symmetry. }
    assert (inject_Z (- Qfloor q - 1) == - inject_Z (Qfloor q) - 1)%Q as Ei.
    { unfold Z.sub. rewrite inject_Z_plus, !inject_Z_opp. done. }
    assert (Qfloor (- q) = - Qfloor q - 1) as Ef.
    { assert (inject_Z (- Qfloor q - 1) <= - q)%Q as G1 by (rewrite Ei; lra).
      assert (- q < inject_Z (- Qfloor q - 1 + 1))%Q as G2.
      { rewrite inject_Z_plus, Ei. change (inject_Z 1) with 1%Q. lra. }
      pose proof (Qfloor_le (- q)) as H1. pose proof (Qlt_floor (- q)) as H2.
      assert (Qfloor (- q) < - Qfloor q - 1 + 1).
      { rewrite Zlt_Qlt. by apply Qle_lt_trans with (- q)%Q. }
      assert (- Qfloor q - 1 < Qfloor (- q) + 1).
      { rewrite Zlt_Qlt. by apply Qle_lt_trans with (- q)%Q. }
      lia. }
    unfold nearestEven. cbn zeta. rewrite Ef.
    assert (Z.even (- Qfloor q - 1) = negb (Z.even (Qfloor q))) as Ev.
    { rewrite Z.even_sub, Z.even_opp. by destruct (Z.even (Qfloor q)). }
    destruct (Qcompare_spec (q - inject_Z (Qfloor q)) (1 # 2)) as [C|C|C];
      destruct (Qcompare_spec (- q - inject_Z (- Qfloor q - 1)) (1 # 2))
        as [C'|C'|C']; rewrite Ei in C'; try (exfalso; lra); try lia.
    rewrite Ev. destruct (Z.even (Qfloor q)); cbn [negb]; lia.
Qed.

Lemma round_opp q : (round (- q) == - round q)%Q.
Proof.
  destruct (Qeq_dec q 0) as [Z|NZ].
  - rewrite (round_zero q Z), (round_zero (- q)); [done|]. rewrite Z. done.
  - assert (¬ (- q == 0)%Q) as NZ' by (intros E; apply NZ; lra).
    rewrite (round_nonzero q NZ), (round_nonzero (- q) NZ').
    assert (ulpExp (- q) = ulpExp q) as ->.
    { unfold ulpExp. rewrite (ilog2_comp (Qabs (- q)) (Qabs q)); [done| |].
      - by apply Qabs_pos_nonzero.
      - apply Qabs_opp. }
    rewrite (nearestEven_comp (- q / pow2 (ulpExp q)) (- (q / pow2 (ulpExp q)))).
    + rewrite nearestEven_opp, inject_Z_opp. ring.
    + unfold Qdiv. ring.
Qed.

Lemma round_mono q q' : (q <= q')%Q → (round q <= round q')%Q.
Proof.
  intros H. destruct (Qlt_le_dec 0 q) as [Hq|Hq]; [by apply round_mono_pos|].
  destruct (Qlt_le_dec q' 0) as [Hq'|Hq'].
  - assert (round (- q') <= round (- q))%Q as H0 by (apply round_mono_pos; lra).
    rewrite !round_opp in H0. lra.
  - apply Qle_trans with 0%Q; [|by apply round_nonneg].
    assert (0 <= round (- q))%Q as H0 by (apply round_nonneg; lra).
    rewrite round_opp in H0. lra.
Qed.

Lemma representable_comp q q' : (q == q')%Q → representable q → representable q'.
Proof. intros E (m & e & H & ?). exists m, e. by rewrite <- E. Qed.

Lemma representable_round q : representable (round q).
Proof.
  destruct (Qeq_dec q 0) as [Z|NZ].
  - rewrite (round_zero q Z). exists 0, 0. split_and!; [|done|lia].
    by rewrite Qmult_0_l.
  - rewrite (round_nonzero q NZ).
    set (e := ulpExp q). set (m := nearestEven (q / pow2 e)).
    assert (-1074 ≤ e) as He by (unfold e, ulpExp; lia).
    pose proof (Qabs_pos_nonzero q NZ) as Hpos.
    destruct (ilog2_spec _ Hpos) as [_ S2].
    assert (Qabs q <= inject_Z (2 ^ 53) * pow2 e)%Q as Hb.
    { rewrite <- pow2_inject, <- pow2_add by lia.
      apply Qlt_le_weak. eapply Qlt_le_trans; [exact S2|].
      apply pow2_le. unfold e, ulpExp. lia. }
    assert (- 2 ^ 53 ≤ m ≤ 2 ^ 53) as Hm.
    { unfold m. split.
      - rewrite <- (nearestEven_Z (- 2 ^ 53)). apply nearestEven_mono.
        apply Qge_div_pow2. rewrite inject_Z_opp.
        pose proof (Qle_Qabs (- q)) as Ha. rewrite Qabs_opp in Ha. lra.
      - rewrite <- (nearestEven_Z (2 ^ 53)). apply nearestEven_mono.
        apply Qle_div_pow2. pose proof (Qle_Qabs q) as Ha. lra. }
    destruct (decide (Z.abs m < 2 ^ 53)) as [Hlt|Hge].
    + by exists m, e.
    + exists (m / 2), (e + 1). split_and!; [| |lia].
      * rewrite pow2_add. change (pow2 1) with 2%Q.
        assert (m = 2 * (m / 2)) as Hm2.
        { change (2 ^ 53) with 9007199254740992 in *.
          destruct (decide (m = 9007199254740992)) as [->|];
            [done|assert (m = - 9007199254740992) as -> by lia; done]. }
        rewrite Hm2 at 1. rewrite inject_Z_mult. change (inject_Z 2) with 2%Q. ring.
      * change (2 ^ 53) with 9007199254740992 in *.
        destruct (decide (m = 9007199254740992)) as [->|];
          [done|assert (m = - 9007199254740992) as -> by lia; done].
Qed.

Lemma round_round q : (round (round q) == round q)%Q.
Proof. apply round_representable, representable_round. Qed.

Lemma fl_bounds q L U :
  (L <= q)%Q → (q <= U)%Q → representable L → representable U →
  (- maxFinite <= L)%Q → (U <= maxFinite)%Q →
  ∃ r, fl q = Some r ∧ (r == round q)%Q ∧ (L <= r)%Q ∧ (r <= U)%Q.
Proof.
  intros HLq HqU RL RU HL HU.
  assert (L <= round q)%Q as H1.
  { rewrite <- (round_representable L RL). by apply round_mono. }
  assert (round q <= U)%Q as H2.
  { rewrite <- (round_representable U RU). by apply round_mono. }
  exists (Qred (round q)). split_and!.
  - unfold fl. cbn zeta.
    assert (Qle_bool (Qabs (Qred (round q))) maxFinite = true) as ->; [|done].
    apply Qle_bool_iff. rewrite Qred_correct. apply Qabs_Qle_condition. lra.
  - apply Qred_correct.
  - by rewrite Qred_correct.
  - by rewrite Qred_correct.
Qed.

End Binary64Props.

(** * The quotas in binary64 *)
Module Quota64Props.
Import PopMapGenerator PopMapGenerator64 Binary64 Binary64Props Scan.

Lemma representable_Z n : Z.abs n < 2 ^ 53 → representable (inject_Z n).
Proof.
  intros H. exists n, 0. split_and!; [|done|lia].
  unfold pow2. cbn. by rewrite Qmult_1_r.
Qed.

Lemma maxFinite_ge n : Z.abs n ≤ 2 ^ 53 → (Qabs (inject_Z n) <= maxFinite)%Q.
Proof.
  intros H. assert (Qabs (inject_Z n) == inject_Z (Z.abs n))%Q as -> by done.
  unfold maxFinite. rewrite pow2_inject by lia. rewrite <- inject_Z_mult, <- Zle_Qle.
  assert (2 ^ 53 ≤ (2 ^ 53 - 1) * 2 ^ 971) by (vm_compute; discriminate). lia.
Qed.

Lemma fl_round q :
  (Qabs (round q) <= maxFinite)%Q → ∃ r, fl q = Some r ∧ (r == round q)%Q.
Proof.
  intros H. exists (Qred (round q)). split; [|apply Qred_correct].
  unfold fl. cbn zeta.
  assert (Qle_bool (Qabs (Qred (round q))) maxFinite = true) as ->; [|done].
  apply Qle_bool_iff. by rewrite Qred_correct.
Qed.

Lemma Qred_inject_Z n : Qred (inject_Z n) = inject_Z n.
Proof.
  unfold Qred, inject_Z.
  pose proof (Z.ggcd_gcd n 1) as Hg.
  pose proof (Z.ggcd_correct_divisors n 1) as Hd.
  destruct (Z.ggcd n 1) as [g [a b]]. cbn [fst snd] in *.
  rewrite Z.gcd_1_r in Hg. subst g. destruct Hd as [Ha Hb].
  assert (a = n) as -> by lia. assert (b = 1) as -> by lia. done.
Qed.

Lemma fl_Z n : Z.abs n < 2 ^ 53 → fl (inject_Z n) = Some (inject_Z n).
Proof.
  intros H. pose proof (round_representable _ (representable_Z n H)) as E.
  unfold fl. cbn zeta.
  assert (Qred (round (inject_Z n)) = inject_Z n) as ->.
  { rewrite (Qred_complete _ _ E). apply Qred_inject_Z. }
  assert (Qle_bool (Qabs (inject_Z n)) maxFinite = true) as ->; [|done].
  apply Qle_bool_iff, maxFinite_ge. lia.
Qed.

Lemma fl_comp q q' : (q == q')%Q → fl q = fl q'.
Proof.
  intros E. unfold fl. cbn zeta.
  by rewrite (Qred_complete _ _ (round_comp _ _ E)).
Qed.

Lemma foldl_sum_ge (cities : list City) s :
  Forall (λ c, 0 ≤ population c) cities →
  s ≤ foldl (λ total c, total + population c) s cities.
Proof.
  revert s. induction cities as [|c cities IH]; intros s H; [done|].
  inversion H as [|? ? Hc Hrest]; subst. cbn [foldl].
  specialize (IH (s + population c) Hrest). lia.
Qed.

Lemma population_le_sum (cities : list City) (c : City) :
  Forall (λ c', 0 ≤ population c') cities → c ∈ cities →
  population c ≤ sumPopulation cities.
Proof.
  unfold sumPopulation.
  assert (∀ s, Forall (λ c', 0 ≤ population c') cities → c ∈ cities →
               s + population c
               ≤ foldl (λ total c, total + population c) s cities) as H.
  { induction cities as [|c0 cities IH]; intros s Hnn Hc.
    - by apply elem_of_nil in Hc.
    - inversion Hnn as [|? ? H0 Hrest]; subst. cbn [foldl].
      apply elem_of_cons in Hc as [->|Hc].
      + by apply foldl_sum_ge.
      + specialize (IH (s + population c0) Hrest Hc). lia. }
  intros Hnn Hc. specialize (H 0 Hnn Hc). lia.
Qed.

Lemma totalPopulation64_from (cities : list City) (s : Z) :
  0 ≤ s → Forall (λ c, 0 ≤ population c) cities →
  foldl (λ total c, total + population c) s cities < 2 ^ 53 →
  foldl (λ total c, t ← total; fl (t + inject_Z (population c))%Q)
        (Some (inject_Z s)) cities
  = Some (inject_Z (foldl (λ total c, total + population c) s cities)).
Proof.
  revert s. induction cities as [|c cities IH]; intros s Hs Hnn Hlt; [done|].
  inversion Hnn as [|? ? Hc Hrest]; subst. cbn [foldl] in *.
  cbn [mbind option_bind].
  pose proof (foldl_sum_ge cities (s + population c) Hrest) as Hge.
  rewrite (fl_comp _ (inject_Z (s + population c))) by (by rewrite inject_Z_plus).
  rewrite fl_Z by lia. apply IH; [lia|done|done].
Qed.

Lemma totalPopulation64_exact (cities : list City) :
  Forall (λ c, 0 ≤ population c) cities →
  sumPopulation cities < 2 ^ 53 →
  totalPopulation64 cities = Some (inject_Z (sumPopulation cities)).
Proof. intros Hnn Hlt. by apply (totalPopulation64_from cities 0). Qed.

Lemma round_between q L U :
  (0 <= L)%Q → (L <= q)%Q → (q <= U)%Q → representable L → representable U →
  (L <= round q)%Q ∧ (round q <= U)%Q.
Proof.
  intros HL HLq HqU RL RU. split.
  - rewrite <- (round_representable L RL). by apply round_mono_nonneg.
  - rewrite <- (round_representable U RU). apply round_mono_nonneg; [|done].
    by apply Qle_trans with L.
Qed.

Lemma fl_between q L U :
  (0 <= L)%Q → (L <= q)%Q → (q <= U)%Q → representable L → representable U →
  (U <= maxFinite)%Q →
  ∃ r, fl q = Some r ∧ (L <= r)%Q ∧ (r <= U)%Q.
Proof.
  intros HL HLq HqU RL RU HU.
  destruct (round_between q L U HL HLq HqU RL RU) as [H1 H2].
  destruct (fl_round q) as (r & Hr & E).
  - rewrite Qabs_pos by (by apply Qle_trans with L).
    by apply Qle_trans with U.
  - exists r. split_and!; [done|by rewrite E..].
Qed.

Lemma Qfloor_unique x n :
  (inject_Z n <= x)%Q → (x < inject_Z (n + 1))%Q → Qfloor x = n.
Proof.
  intros H1 H2. pose proof (Qfloor_le x) as F1. pose proof (Qlt_floor x) as F2.
  assert (Qfloor x < n + 1).
  { rewrite Zlt_Qlt. by apply Qle_lt_trans with x. }
  assert (n < Qfloor x + 1).
  { rewrite Zlt_Qlt. by apply Qle_lt_trans with x. }
  lia.
Qed.

Lemma pow2_neg n : 0 ≤ n → (pow2 (- n) == 1 / inject_Z (2 ^ n))%Q.
Proof.
  intros H. unfold pow2. rewrite Qpower_opp. fold (pow2 n).
  rewrite pow2_inject by done. unfold Qdiv. by rewrite Qmult_1_l.
Qed.

Lemma inject_Z_pos b : 0 < b → (0 < inject_Z b)%Q.
Proof. intros H. change 0%Q with (inject_Z 0). by rewrite <- Zlt_Qlt. Qed.

(** [m * 2 ^ (-n) <= a / b] and the like, in integers. *)
Lemma scaled_le_div m n a b :
  0 ≤ n → 0 < b → m * b ≤ a * 2 ^ n →
  (inject_Z m * pow2 (- n) <= inject_Z a / inject_Z b)%Q.
Proof.
  intros Hn Hb H. rewrite pow2_neg by done.
  assert (0 < 2 ^ n) as Hp by (apply Z.pow_pos_nonneg; lia).
  apply Qle_shift_div_l; [by apply inject_Z_pos|].
  unfold Qdiv. rewrite Qmult_1_l, <- Qmult_assoc, (Qmult_comm (/ _)), Qmult_assoc.
  apply Qle_shift_div_r; [by apply inject_Z_pos|].
  rewrite <- !inject_Z_mult, <- Zle_Qle. done.
Qed.

Lemma div_le_scaled m n a b :
  0 ≤ n → 0 < b → a * 2 ^ n ≤ m * b →
  (inject_Z a / inject_Z b <= inject_Z m * pow2 (- n))%Q.
Proof.
  intros Hn Hb H. rewrite pow2_neg by done.
  assert (0 < 2 ^ n) as Hp by (apply Z.pow_pos_nonneg; lia).
  apply Qle_shift_div_r; [by apply inject_Z_pos|].
  unfold Qdiv. rewrite Qmult_1_l, <- Qmult_assoc, (Qmult_comm (/ _)), Qmult_assoc.
  apply Qle_shift_div_l; [by apply inject_Z_pos|].
  rewrite <- !inject_Z_mult, <- Zle_Qle. done.
Qed.

Lemma representable_scale k q :
  0 ≤ k → representable q → representable (inject_Z (2 ^ k) * q)%Q.
Proof.
  intros Hk (m & e & E & Hm & He). exists m, (k + e). split_and!; [|done|lia].
  rewrite E, pow2_add, <- pow2_inject by done. ring.
Qed.

Lemma numTiles64_core (t p N : Z) (L U : Q) :
  0 < t →
  (0 <= L)%Q → (L <= inject_Z p / inject_Z t)%Q → (inject_Z p / inject_Z t <= U)%Q →
  representable L → representable U → (U <= 1)%Q →
  (inject_Z N <= inject_Z NUM_TILES * L + (1 # 2))%Q →
  (inject_Z NUM_TILES * U + (1 # 2) < inject_Z (N + 1))%Q →
  numTiles64 (inject_Z t) (inject_Z p) = Some N.
Proof.
  intros Ht HL HLq HqU RL RU HU1 HN1 HN2. unfold numTiles64.
  assert (Qeq_bool (inject_Z t) 0 = false) as ->.
  { destruct (Qeq_bool (inject_Z t) 0) eqn:E; [|done].
    apply Qeq_bool_eq in E. apply (inject_Z_injective t 0) in E. lia. }
  assert (1 <= maxFinite)%Q as Hmax by (vm_compute; discriminate).
  destruct (fl_between _ L U HL HLq HqU RL RU) as (r1 & -> & H1 & H2).
  { by apply Qle_trans with 1%Q. }
  cbn [mbind option_bind].
  assert (0 <= inject_Z NUM_TILES)%Q as H1024 by done.
  destruct (fl_between (inject_Z NUM_TILES * r1) (inject_Z NUM_TILES * L)
              (inject_Z NUM_TILES * U)) as (r2 & -> & H3 & H4).
  - by apply Qmult_le_0_compat.
  - by apply Qmult_le_l.
  - by apply Qmult_le_l.
  - by apply (representable_scale 10).
  - by apply (representable_scale 10).
  - apply Qle_trans with (inject_Z NUM_TILES * 1)%Q.
    + by apply Qmult_le_l.
    + vm_compute. discriminate.
  - cbn [mbind option_bind]. f_equal. unfold Math_round.
    apply Qfloor_unique.
    + eapply Qle_trans; [exact HN1|]. by apply Qplus_le_l.
    + eapply Qle_lt_trans; [|exact HN2]. by apply Qplus_le_l.
Qed.

Lemma numTiles64_exact (t p : Z) :
  0 ≤ p ≤ t → 0 < t ≤ 2 ^ 42 →
  numTiles64 (inject_Z t) (inject_Z p) = Some ((2048 * p + t) / (2 * t)).
Proof.
  intros Hp Ht. set (N := (2048 * p + t) / (2 * t)).
  change (2 ^ 42) with 4398046511104 in Ht.
  assert (2 * t * N ≤ 2048 * p + t) as HN1 by (apply Z.mul_div_le; lia).
  assert (2048 * p + t < 2 * t * (N + 1)) as HN2.
  { pose proof (Z.mul_succ_div_gt (2048 * p + t) (2 * t) ltac:(lia)) as H.
    fold N in H. lia. }
  assert (0 ≤ N ≤ 1024) as HN by nia.
  set (mL := Z.max 0 (2 * N - 1)).
  assert (0 ≤ mL ≤ 2047) as HmL by lia.
  assert (∃ mU eU, 0 ≤ eU ≤ 53 ∧ 0 < mU < 2 ^ 53 ∧ p * 2 ^ eU ≤ mU * t
                   ∧ mU ≤ 2 ^ eU
                   ∧ 2048 * mU + 2 ^ eU < (2 * N + 2) * 2 ^ eU) as (mU & eU & HeU & HmU & Hq & H1 & Hup).
  { destruct (decide (N = 1024)) as [->|NE].
    - exists 1, 0. change (2 ^ 0) with 1. change (2 ^ 53) with 9007199254740992. lia.
    - exists ((2 * N + 1) * 2 ^ 42 - 1), 53.
      change (2 ^ 53) with 9007199254740992. change (2 ^ 42) with 4398046511104.
      split_and!; try lia; nia. }
  apply (numTiles64_core t p N (inject_Z mL * pow2 (- 11)) (inject_Z mU * pow2 (- eU))).
  - lia.
  - apply Qmult_le_0_compat; [|apply Qlt_le_weak, pow2_pos].
    change 0%Q with (inject_Z 0). rewrite <- Zle_Qle. lia.
  - apply (scaled_le_div mL 11 p t); [lia..|]. change (2 ^ 11) with 2048. nia.
  - apply div_le_scaled; [lia..|done].
  - exists mL, (-11). split_and!; [done| |lia].
    change (2 ^ 53) with 9007199254740992. lia.
  - exists mU, (- eU). split_and!; [done|lia|lia].
  - rewrite pow2_neg by lia. unfold Qdiv. rewrite Qmult_1_l.
    apply Qle_shift_div_r; [apply inject_Z_pos; apply Z.pow_pos_nonneg; lia|].
    rewrite Qmult_1_l, <- Zle_Qle. done.
  - change (pow2 (-11)) with (1 # 2048)%Q. unfold NUM_TILES.
    unfold Qle, Qplus, Qmult, inject_Z. cbn [Qnum Qden]. lia.
  - rewrite pow2_neg by lia. unfold NUM_TILES, Qdiv. rewrite Qmult_1_l.
    assert (0 < 2 ^ eU) as Hpos by (apply Z.pow_pos_nonneg; lia).
    destruct (2 ^ eU) as [|P|P] eqn:EP; try lia.
    unfold Qlt, Qplus, Qmult, Qinv, inject_Z. cbn [Qnum Qden].
    rewrite ?Pos2Z.inj_mul. lia.
Qed.

Lemma quota64_closed_form (cities : list City) (c : City) :
  Forall (λ c', 0 ≤ population c') cities →
  0 < sumPopulation cities ≤ 2 ^ 42 →
  c ∈ cities →
  quota64 cities c
  = Some ((2048 * population c + sumPopulation cities)
          / (2 * sumPopulation cities)).
Proof.
  intros Hnn Htotal Hc.
  assert (0 ≤ population c) as Hpop.
  { rewrite Forall_forall in Hnn. by apply Hnn. }
  pose proof (population_le_sum cities c Hnn Hc) as Hle.
  change (2 ^ 42) with 4398046511104 in Htotal.
  unfold quota64. rewrite totalPopulation64_exact;
    [|done|change (2 ^ 53) with 9007199254740992; lia].
  cbn [mbind option_bind].
  apply numTiles64_exact; [lia|]. change (2 ^ 42) with 4398046511104. lia.
Qed.

End Quota64Props.

(** * The claims about the generator *)
Module Generator.
Import PopMapGenerator Scan GeneratorProps.

(** C1 (uniqueness).  For every list of grid cities and all grid
    dimensions, the tiles of the generated records, taken together, contain
    no coordinate twice: the tile lists of two different records are
    disjoint and no tile list has a repeated coordinate. *)
Theorem uniqueness (gridWidth gridHeight : Z) (cities : list GridCity) :
  let out := generate gridWidth gridHeight cities in
  NoDup (allTiles out)
  ∧ (∀ i j ci cj t, i ≠ j → out !! i = Some ci → out !! j = Some cj →
       t ∈ tiles ci → t ∉ tiles cj)
  ∧ Forall (λ ct, NoDup (tiles ct)) out.
Proof.
  cbn zeta.
  assert (∀ i j ci cj t, i ≠ j →
            generate gridWidth gridHeight cities !! i = Some ci →
            generate gridWidth gridHeight cities !! j = Some cj →
            t ∈ tiles ci → t ∉ tiles cj) as Hdisj.
  { intros i j ci cj t Hij Hi Hj Hti Htj.
    destruct (decide (i < j)%nat).
    - by eapply (generate_disjoint gridWidth gridHeight cities i j).
    - eapply (generate_disjoint gridWidth gridHeight cities j i); eauto. lia. }
  assert (Forall (λ ct, NoDup (tiles ct)) (generate gridWidth gridHeight cities))
    as Heach.
  { apply Forall_lookup. intros i ct Hct.
    destruct (generate_lookup_inv _ _ _ _ _ Hct) as [c Hc].
    by destruct (generate_open _ _ _ _ _ _ Hc Hct). }
  split_and!; [|done|done].
  unfold allTiles.
  revert Hdisj Heach. generalize (generate gridWidth gridHeight cities) as out.
  induction out as [|ct out IH]; intros Hdisj Heach; [apply NoDup_nil_2|].
  rewrite bind_cons. apply NoDup_app. split_and!.
  - by inversion Heach.
  - intros t Ht (ct' & Ht' & Hct')%list_elem_of_bind.
    apply list_elem_of_lookup in Hct' as [j Hj].
    by apply (Hdisj 0%nat (S j) ct ct' t).
  - apply IH; [|by inversion Heach].
    intros i j ci cj t Hij Hi Hj. by apply (Hdisj (S i) (S j)); [lia|..].
Qed.

(** C8 (validity).  Every coordinate of every generated tile list lies in
    the grid: [0 <= x < gridWidth] and [0 <= y < gridHeight]. *)
Theorem validity (gridWidth gridHeight : Z) (cities : list GridCity) :
  Forall (λ ct, Forall (λ t, 0 ≤ x t < gridWidth ∧ 0 ≤ y t < gridHeight)
                       (tiles ct))
         (generate gridWidth gridHeight cities).
Proof.
  eapply Forall_impl; [apply generate_valid|]. cbn. intros ct Hct.
  eapply Forall_impl; [exact Hct|]. cbn. intros t Ht.
  by apply isValidCell_spec.
Qed.

(** C10 (the start cell is always found from a valid target).  If the
    target is grid-valid and some grid cell is unclaimed,
    [findNearestOpenCell] does not return [null]: every grid cell lies within
    Chebyshev distance [max(gridWidth, gridHeight) - 1] of the target, and the
    rings cover that distance.  So [null] can only come from a target outside
    the grid or from a fully claimed grid. *)
Theorem start_cell_never_fails (gridWidth gridHeight : Z) (taken : gset Z)
    (targetX targetY : Z) :
  isValidCell gridWidth gridHeight targetX targetY = true →
  (∃ a b, isValidCell gridWidth gridHeight a b = true
          ∧ packCoordinate gridWidth a b ∉ taken) →
  (∀ a b, isValidCell gridWidth gridHeight a b = true →
          chebyshev targetX targetY {| x := a; y := b |}
            ≤ Z.max gridWidth gridHeight - 1)
  ∧ is_Some (findNearestOpenCell gridWidth gridHeight taken targetX targetY).
Proof.
  intros Hv (a & b & Hab & Hfree). split.
  - intros a' b' Hv'.
    pose proof (chebyshev_valid gridWidth gridHeight targetX targetY
                  {| x := a'; y := b' |} Hv Hv'). lia.
  - destruct (findNearestOpenCell _ _ _ _ _) eqn:E; [eauto|].
    exfalso.
    apply (findNearestOpenCell_None _ _ _ _ _ E {| x := a; y := b |}).
    + by split.
    + by apply (chebyshev_valid gridWidth gridHeight targetX targetY
                  {| x := a; y := b |}).
Qed.

(** C4 (start-cell selection).  [findNearestOpenCell] returns the centre
    when it is grid-valid and unclaimed, and otherwise the first grid-valid,
    unclaimed cell of the rings of radius [1, 2, ...] below
    [max(gridWidth, gridHeight)], each ring scanned with [dx] from [-r] to [r]
    outside and [dy] from [-r] to [r] inside, keeping the offsets with
    [|dx| = r] or [|dy| = r] ([startCell]).  In a run, the first tile of the
    record of city [i] is that cell for the cells claimed by the records
    before it, and when the rings yield no cell the tile list is empty. *)
Theorem start_cell_selection (gridWidth gridHeight : Z)
    (cities : list GridCity) (i : nat) (c : GridCity) :
  cities !! i = Some c →
  let out := generate gridWidth gridHeight cities in
  let taken := claimed gridWidth (take i out) in
  (∀ taken' targetX targetY,
     findNearestOpenCell gridWidth gridHeight taken' targetX targetY
     = startCell gridWidth gridHeight taken' targetX targetY)
  ∧ ∃ ct, out !! i = Some ct
      ∧ head (tiles ct)
        = startCell gridWidth gridHeight taken (centerX c) (centerY c)
      ∧ (startCell gridWidth gridHeight taken (centerX c) (centerY c) = None →
         tiles ct = []).
Proof.
  intros Hc. cbn zeta. split; [apply findNearestOpenCell_startCell|].
  eexists. split; [by apply generate_lookup|]. cbn [tiles record].
  destruct (placeCity_spec gridWidth gridHeight
              (claimed gridWidth (take i (generate gridWidth gridHeight cities))) c)
    as (ts & -> & Hhead & _).
  cbn [snd]. rewrite <- findNearestOpenCell_startCell, <- Hhead.
  split; [done|]. by destruct ts.
Qed.

(** C4 as stated fails: the rings are scanned up to
    [max(gridWidth, gridHeight) - 1] only.  On a 3 x 3 grid the city A,
    whose centre [(5, 5)] lies outside the grid, receives no tile, although
    the ring of radius 3 around its centre holds the free cell [(2, 2)], the
    cell a scan up to radius [max(gridWidth, gridHeight)] chooses. *)
Lemma start_cell_selection_counterexample :
  construct 3 3 MoreExamples.offGrid
  = Some [ MoreExamples.offGridB; MoreExamples.offGridA ]
  ∧ run 3 3 MoreExamples.offGrid
    = Some [ record 0 MoreExamples.offGridB [ {| x := 0; y := 0 |} ];
             record 1 MoreExamples.offGridA [] ]
  ∧ startCell 3 3
      (claimed 3 [ record 0 MoreExamples.offGridB [ {| x := 0; y := 0 |} ] ])
      (centerX MoreExamples.offGridA) (centerY MoreExamples.offGridA)
    = None
  ∧ startCellUpToMax 3 3
      (claimed 3 [ record 0 MoreExamples.offGridB [ {| x := 0; y := 0 |} ] ])
      (centerX MoreExamples.offGridA) (centerY MoreExamples.offGridA)
    = Some {| x := 2; y := 2 |}.
Proof. split_and!; vm_compute; reflexivity. Qed.

(** C5 (growth step).  When the adjacency frontier of a location (the
    grid-valid, unclaimed cells 8-adjacent to one of its tiles) is not empty,
    [findBestNextCell] returns a frontier cell whose Euclidean distance to the
    original centre [(centerX, centerY)], compared through its square
    [distance2], is minimal over the frontier, and the growth loop claims
    that cell next. *)
Theorem growth_step (gridWidth gridHeight : Z) (taken : gset Z)
    (centerX centerY : Z) (existingTiles : list Coordinate) :
  (∃ c, inFrontier gridWidth gridHeight taken existingTiles c) →
  ∃ best,
    findBestNextCell gridWidth gridHeight taken centerX centerY existingTiles
    = Some best
    ∧ inFrontier gridWidth gridHeight taken existingTiles best
    ∧ (∀ c, inFrontier gridWidth gridHeight taken existingTiles c →
            distance2 centerX centerY (x best) (y best)
            ≤ distance2 centerX centerY (x c) (y c))
    ∧ (∀ n, growTiles gridWidth gridHeight (S n) centerX centerY taken existingTiles
            = growTiles gridWidth gridHeight n centerX centerY
                (add (packCell gridWidth best) taken) (existingTiles ++ [best])).
Proof.
  intros [c0 Hc0].
  apply elem_of_frontier in Hc0.
  assert (collectAdjacent gridWidth gridHeight taken existingTiles ≠ []) as Hne.
  { intros E. rewrite E in Hc0. by apply elem_of_nil in Hc0. }
  destruct (findBestNextCell gridWidth gridHeight taken centerX centerY existingTiles)
    as [best|] eqn:E.
  2:{ rewrite findBestNextCell_spec, decide_False in E by done.
      apply pickBest_None, fmap_nil_inv, fmap_nil_inv in E. done. }
  exists best. split; [done|].
  pose proof E as E'.
  rewrite findBestNextCell_spec, decide_False in E' by done.
  apply pickBest_Some in E' as (cand & Hin & <- & Hmin).
  apply list_elem_of_fmap in Hin as (o & -> & Ho). cbn [cell candidate].
  split_and!.
  - by apply elem_of_frontier.
  - intros c Hc. apply elem_of_frontier in Hc.
    apply (Hmin (candidate centerX centerY c)).
    apply list_elem_of_fmap. by exists c.
  - intros n. cbn [growTiles]. rewrite E. by rewrite eta_cell.
Qed.

(** C6 (fallback search).  When the adjacency frontier is empty, the
    candidates are the first 50 grid-valid, unclaimed cells met by the rings
    of radius [0, 1, ...] below [max(gridWidth, gridHeight)] around the
    centre, in the perimeter order of the start-cell search;
    [findBestNextCell] returns one of them with minimal distance to the
    centre, and when there is none it returns [null] and the growth loop
    stops with the tiles claimed so far. *)
Theorem fallback_search (gridWidth gridHeight : Z) (taken : gset Z)
    (centerX centerY : Z) (existingTiles : list Coordinate) :
  (∀ c, ¬ inFrontier gridWidth gridHeight taken existingTiles c) →
  let collected :=
    take 50 (openCells gridWidth gridHeight taken centerX centerY 0
               (Z.max gridWidth gridHeight)) in
  fallbackSearch gridWidth gridHeight taken centerX centerY
  = candidate centerX centerY <$> collected
  ∧ match findBestNextCell gridWidth gridHeight taken centerX centerY existingTiles with
    | Some best =>
        best ∈ collected
        ∧ (∀ c, c ∈ collected →
                distance2 centerX centerY (x best) (y best)
                ≤ distance2 centerX centerY (x c) (y c))
        ∧ (∀ n, growTiles gridWidth gridHeight (S n) centerX centerY taken existingTiles
                = growTiles gridWidth gridHeight n centerX centerY
                    (add (packCell gridWidth best) taken) (existingTiles ++ [best]))
    | None =>
        collected = []
        ∧ (∀ n, growTiles gridWidth gridHeight n centerX centerY taken existingTiles
                = (taken, existingTiles))
    end.
Proof.
  intros Hempty. cbn zeta. split; [apply fallbackSearch_spec|].
  assert (collectAdjacent gridWidth gridHeight taken existingTiles = []) as Hadj.
  { destruct (collectAdjacent _ _ _ _) as [|p adj] eqn:E; [done|].
    exfalso. apply (Hempty (unpackCoordinate gridWidth p)).
    apply elem_of_frontier. rewrite E. set_solver. }
  destruct (findBestNextCell _ _ _ _ _ _) as [best|] eqn:E.
  - pose proof E as E'.
    rewrite findBestNextCell_spec, decide_True in E' by done.
    apply pickBest_Some in E' as (cand & Hin & <- & Hmin).
    unfold fallbackCandidates in *.
    apply list_elem_of_fmap in Hin as (o & -> & Ho). cbn [cell candidate].
    split_and!; [done| |].
    + intros c Hc. apply (Hmin (candidate centerX centerY c)).
      apply list_elem_of_fmap. by exists c.
    + intros n. cbn [growTiles]. rewrite E. by rewrite eta_cell.
  - split.
    + rewrite findBestNextCell_spec, decide_True in E by done.
      apply pickBest_None in E. unfold fallbackCandidates in E.
      by apply fmap_nil_inv in E.
    + intros [|n]; [done|]. cbn [growTiles]. by rewrite E.
Qed.

(** C2, as amended (quota bound).  The tile list of a location is never
    longer than [max(1, tileQuota)]: a location whose start cell is found
    claims it whatever its quota.  When the list is shorter than the quota,
    the grid is saturated around the location: every grid cell within
    Chebyshev distance [max(gridWidth, gridHeight) - 1] of its centre is a
    tile of some record, and when the centre is grid-valid that is every
    cell of the grid. *)
Theorem quota_bound (gridWidth gridHeight : Z) (cities : list GridCity)
    (i : nat) (c : GridCity) (ct : CityTiles) :
  cities !! i = Some c →
  generate gridWidth gridHeight cities !! i = Some ct →
  Z.of_nat (length (tiles ct)) ≤ Z.max 1 (numTiles c)
  ∧ (Z.of_nat (length (tiles ct)) < numTiles c →
     (∀ a b, isValidCell gridWidth gridHeight a b = true →
             chebyshev (centerX c) (centerY c) {| x := a; y := b |}
               < Z.max gridWidth gridHeight →
             ∃ ct', ct' ∈ generate gridWidth gridHeight cities
                    ∧ {| x := a; y := b |} ∈ tiles ct')
     ∧ (isValidCell gridWidth gridHeight (centerX c) (centerY c) = true →
        ∀ a b, isValidCell gridWidth gridHeight a b = true →
               ∃ ct', ct' ∈ generate gridWidth gridHeight cities
                      ∧ {| x := a; y := b |} ∈ tiles ct')).
Proof.
  intros Hc Hct. split.
  - rewrite (generate_lookup _ _ _ _ _ Hc) in Hct. injection Hct as <-.
    cbn [tiles record].
    destruct (placeCity_spec gridWidth gridHeight
                (claimed gridWidth (take i (generate gridWidth gridHeight cities))) c)
      as (ts & -> & _ & Hlen & _). done.
  - intros Hlt.
    assert (∀ a b, isValidCell gridWidth gridHeight a b = true →
              chebyshev (centerX c) (centerY c) {| x := a; y := b |}
                < Z.max gridWidth gridHeight →
              ∃ ct', ct' ∈ generate gridWidth gridHeight cities
                     ∧ {| x := a; y := b |} ∈ tiles ct') as Hsat.
    { intros a b Hv Hd. apply claimed_valid_cell; [done|].
      by eapply generate_saturated. }
    split; [done|]. intros Hcv a b Hv. apply Hsat; [done|].
    by apply (chebyshev_valid gridWidth gridHeight _ _ {| x := a; y := b |}).
Qed.

(** C2 as stated fails: on a 12 x 12 grid, a city of population 1 next to a
    city of population 10000 has quota [round(1024 / 10001) = 0] and still
    receives its start cell. *)
Lemma quota_bound_counterexample :
  ∃ c ct rest rest',
    construct 12 12 Examples.smallAndLarge = Some (c :: rest)
    ∧ run 12 12 Examples.smallAndLarge = Some (ct :: rest')
    ∧ cityName ct = name (city c)
    ∧ numTiles c = 0
    ∧ tiles ct = [ {| x := 5; y := 5 |} ]
    ∧ ¬ (Z.of_nat (length (tiles ct)) ≤ numTiles c).
Proof.
  eexists _, _, _, _.
  split; [vm_compute; reflexivity|].
  split; [vm_compute; reflexivity|].
  split_and!; [reflexivity..|]. cbn. lia.
Qed.

(** C3 (processing order).  The constructor sorts the converted cities by
    ascending [numTiles], keeping the input order among equal quotas (the
    sorted list is a permutation of the input whose restriction to every quota
    is the restriction of the input); [generate] emits one record per sorted
    city, in that order, record [i] carrying index [i] and the name of city
    [i] and being computed from the cells claimed by the records before
    it. *)
Theorem processing_order (gridWidth gridHeight : Z) (converted : list GridCity) :
  let sorted := sortCities converted in
  let out := generate gridWidth gridHeight sorted in
  StronglySorted (λ a b, numTiles a ≤ numTiles b) sorted
  ∧ sorted ≡ₚ converted
  ∧ (∀ q, filter (λ c, numTiles c = q) sorted
          = filter (λ c, numTiles c = q) converted)
  ∧ index <$> out = seq 0 (length sorted)
  ∧ cityName <$> out = (λ c, name (city c)) <$> sorted
  ∧ out = imap (λ i c, record i c
                  (placeCity gridWidth gridHeight
                     (claimed gridWidth (take i out)) c).2) sorted
  ∧ (∀ cities,
       run gridWidth gridHeight cities
       = (λ conv, generate gridWidth gridHeight (sortCities conv)) <$>
           convertCitiesToGridCoordinates gridWidth gridHeight
             (sumPopulation cities) cities).
Proof.
  cbn zeta.
  assert (generate gridWidth gridHeight (sortCities converted)
          = imap (λ i c, record i c
                    (placeCity gridWidth gridHeight
                       (claimed gridWidth
                          (take i (generate gridWidth gridHeight (sortCities converted))))
                       c).2) (sortCities converted)) as Himap.
  { apply list_eq. intros i. rewrite list_lookup_imap.
    destruct (sortCities converted !! i) as [c|] eqn:E.
    - by rewrite (generate_lookup _ _ _ _ _ E).
    - apply lookup_ge_None. rewrite generate_length. by apply lookup_ge_None. }
  split_and!.
  - apply sortCities_sorted.
  - apply sortCities_perm.
  - intros q. apply sortCities_filter.
  - rewrite Himap. generalize (sortCities converted) as l.
    intros l. rewrite fmap_imap. apply list_eq. intros i.
    rewrite list_lookup_imap.
    destruct (l !! i) as [c|] eqn:E; cbn.
    + symmetry. apply lookup_seq. split; [done|]. by eapply lookup_lt_Some.
    + symmetry. apply lookup_ge_None. rewrite length_seq. by apply lookup_ge_None.
  - rewrite Himap at 1. rewrite fmap_imap. apply list_eq. intros i.
    rewrite list_lookup_imap, list_lookup_fmap. by destruct (_ !! i).
  - exact Himap.
  - intros cities. unfold run, construct.
    by destruct (convertCitiesToGridCoordinates _ _ _ _).
Qed.

Lemma construct_elem_of gridWidth gridHeight cities gcs c :
  construct gridWidth gridHeight cities = Some gcs → c ∈ gcs →
  numTiles c = tileQuota (sumPopulation cities) (population (city c)).
Proof.
  unfold construct.
  destruct (convertCitiesToGridCoordinates _ _ _ _) as [conv|] eqn:E; [|done].
  intros [= <-] Hc. rewrite sortCities_perm in Hc.
  unfold convertCitiesToGridCoordinates in E.
  destruct cities as [|c0 cities'].
  { injection E as <-. by apply elem_of_nil in Hc. }
  destruct (_ || _); [done|]. apply (inj Some) in E. rewrite <- E in Hc.
  apply list_elem_of_fmap in Hc as (c' & -> & _). done.
Qed.

Lemma tileQuota_closed_form total pop :
  0 < total → tileQuota total pop = (2048 * pop + total) / (2 * total).
Proof.
  intros Ht. unfold tileQuota, Math_round, NUM_TILES.
  destruct total as [|t|t]; try lia.
  transitivity (Qfloor ((2048 * pop + Z.pos t) # (2 * t))); [|done].
  apply Qfloor_comp.
  unfold Qeq, Qdiv, Qmult, Qplus, Qinv, inject_Z. cbn [Qnum Qden].
  rewrite !Pos2Z.inj_mul. lia.
Qed.

(** C7, as amended (tile quota).  For a location set with non-negative
    populations whose total is positive and at most [2 ^ 42], the quota that
    the constructor computes in binary64 for a city,
    [Math.round(1024 * (population / totalPopulation))], is
    [1024 * population / totalPopulation] rounded to the nearest integer,
    halves away from zero (upwards, the argument being non-negative); in
    integers, [floor((2048 * population + totalPopulation) /
    (2 * totalPopulation))].  The exact evaluation [tileQuota] gives the same
    number, which is the [numTiles] of the city in the constructed
    generator. *)
Theorem tile_quota_rounding (cities : list City) (c : City) :
  Forall (λ c', 0 ≤ population c') cities →
  0 < sumPopulation cities ≤ 2 ^ 42 →
  c ∈ cities →
  let exact :=
    (inject_Z 1024 * inject_Z (population c)
     / inject_Z (sumPopulation cities))%Q in
  PopMapGenerator64.quota64 cities c = Some (roundHalfAwayFromZero exact)
  ∧ roundHalfAwayFromZero exact
    = (2048 * population c + sumPopulation cities) / (2 * sumPopulation cities)
  ∧ tileQuota (sumPopulation cities) (population c)
    = roundHalfAwayFromZero exact
  ∧ ∀ gridWidth gridHeight gcs gc,
      construct gridWidth gridHeight cities = Some gcs → gc ∈ gcs →
      city gc = c → numTiles gc = roundHalfAwayFromZero exact.
Proof.
  intros Hnn Htotal Hc. cbn zeta.
  assert (0 ≤ population c) as Hpop.
  { rewrite Forall_forall in Hnn. by apply Hnn. }
  pose proof (Quota64Props.population_le_sum cities c Hnn Hc) as Hle.
  assert (tileQuota (sumPopulation cities) (population c)
          = roundHalfAwayFromZero
              (inject_Z 1024 * inject_Z (population c)
               / inject_Z (sumPopulation cities))%Q) as Hexact.
  { unfold roundHalfAwayFromZero, tileQuota, Math_round, NUM_TILES.
    assert (0 <= inject_Z 1024 * inject_Z (population c)
                 / inject_Z (sumPopulation cities))%Q as Hq.
    { unfold Qdiv. apply Qmult_le_0_compat.
      - apply Qmult_le_0_compat; [done|].
        change 0%Q with (inject_Z 0). by rewrite <- Zle_Qle.
      - apply Qinv_le_0_compat.
        change 0%Q with (inject_Z 0). rewrite <- Zle_Qle. lia. }
    apply Qle_bool_iff in Hq. rewrite Hq.
    apply Qfloor_comp. unfold Qdiv. ring. }
  pose proof (tileQuota_closed_form (sumPopulation cities) (population c)
                ltac:(lia)) as Hclosed.
  split_and!.
  - unfold PopMapGenerator64.quota64.
    rewrite Quota64Props.totalPopulation64_exact;
      [|done|change (2 ^ 42) with 4398046511104 in Htotal;
             change (2 ^ 53) with 9007199254740992; lia].
    cbn [mbind option_bind].
    rewrite Quota64Props.numTiles64_exact by lia. congruence.
  - congruence.
  - done.
  - intros gridWidth gridHeight gcs gc Hcons Hgc <-.
    by rewrite (construct_elem_of _ _ _ _ _ Hcons Hgc).
Qed.

(** C7 as stated fails: for the populations 35150012350975 and
    35218731827712, whose total is [2 ^ 46 + 1023], the binary64 quotient of
    the first by the total is [1023 / 2048], so the product is 511.5 and
    [Math.round] returns 512, while [1024 * population / totalPopulation] is
    below 511.5 and rounds to 511. *)
Lemma tile_quota_rounding_counterexample :
  0 ≤ population MoreExamples.hugeA
  ∧ 0 < sumPopulation MoreExamples.hugeCities
  ∧ PopMapGenerator64.totalPopulation64 MoreExamples.hugeCities
    = Some (inject_Z (sumPopulation MoreExamples.hugeCities))
  ∧ Binary64.fl (inject_Z (population MoreExamples.hugeA)
                 / inject_Z (sumPopulation MoreExamples.hugeCities))%Q
    = Some (1023 # 2048)%Q
  ∧ PopMapGenerator64.quota64 MoreExamples.hugeCities MoreExamples.hugeA
    = Some 512
  ∧ roundHalfAwayFromZero
      (inject_Z 1024 * inject_Z (population MoreExamples.hugeA)
       / inject_Z (sumPopulation MoreExamples.hugeCities))%Q
    = 511.
Proof.
  split_and!; [cbn; lia|cbn; lia|vm_compute; reflexivity..].
Qed.

(** The ring of radius [max(gridWidth, gridHeight)] itself is not scanned:
    on a 3 x 3 grid no cell is found from the target [(5, 5)], although the
    ring of radius 3 around it holds the free cell [(2, 2)]. *)
Example radius_bound_is_exclusive :
  findNearestOpenCell 3 3 ∅ 5 5 = None
  ∧ head (openCells 3 3 ∅ 5 5 1 3) = Some {| x := 2; y := 2 |}.
Proof. split; vm_compute; reflexivity. Qed.

(** A centre outside a small grid: the larger city receives no tile although
    eight cells of the 3 x 3 grid stay free. *)
Example small_grid_unreachable :
  construct 3 3 [ mkCity "A" 1000 0 0; mkCity "B" 1 1 1 ]
  = Some [ mkGridCity (mkCity "B" 1 1 1) (-2) (-2) 1;
           mkGridCity (mkCity "A" 1000 0 0) 5 5 1023 ]
  ∧ run 3 3 [ mkCity "A" 1000 0 0; mkCity "B" 1 1 1 ]
    = Some [ record 0 (mkGridCity (mkCity "B" 1 1 1) (-2) (-2) 1)
               [ {| x := 0; y := 0 |} ];
             record 1 (mkGridCity (mkCity "A" 1000 0 0) 5 5 1023) [] ].
Proof. split; vm_compute; reflexivity. Qed.

(** The three cities of [Examples], as the constructor builds them. *)
Example three_cities :
  construct 12 12 [ mkCity "A" 1 0 0; mkCity "B" 100 1 1;
                    mkCity "C" 100 (1 # 2) (1 # 2) ]
  = Some [ Examples.cityA; Examples.cityB; Examples.cityC ].
Proof. vm_compute. reflexivity. Qed.

(** Scenario A of the specification: quotas 256 and 768. *)
Example scenarioA_quotas :
  construct 20 20 Examples.scenarioA
  = Some [ Examples.scenarioA_A; Examples.scenarioA_B ].
Proof. vm_compute. reflexivity. Qed.

(** *** The theorems at concrete inputs *)

Lemma uniqueness_witness :
  NoDup (allTiles (generate 12 12 [Examples.cityA; Examples.cityB'])).
Proof.
  exact (proj1 (uniqueness 12 12 [Examples.cityA; Examples.cityB'])).
Defined.

Lemma quota_bound_witness :
  Z.of_nat (length (tiles (record 2 Examples.cityC [])))
    ≤ Z.max 1 (numTiles Examples.cityC)
  ∧ ∀ a b, isValidCell 12 12 a b = true →
           ∃ ct', ct' ∈ generate 12 12 [Examples.cityA; Examples.cityB; Examples.cityC]
                  ∧ {| x := a; y := b |} ∈ tiles ct'.
Proof.
  assert ([Examples.cityA; Examples.cityB; Examples.cityC] !! 2%nat
          = Some Examples.cityC) as Hc by reflexivity.
  assert (generate 12 12 [Examples.cityA; Examples.cityB; Examples.cityC] !! 2%nat
          = Some (record 2 Examples.cityC [])) as Hct
    by (vm_compute; reflexivity).
  destruct (quota_bound 12 12 [Examples.cityA; Examples.cityB; Examples.cityC] 2
              Examples.cityC (record 2 Examples.cityC []) Hc Hct)
    as [Hle Hsat].
  split; [exact Hle|].
  apply Hsat; [cbn; lia | reflexivity].
Defined.

Lemma start_cell_selection_witness :
  ∃ ct, generate 12 12 [Examples.cityA; Examples.cityB'] !! 1%nat = Some ct
        ∧ head (tiles ct)
          = startCell 12 12
              (claimed 12 (take 1 (generate 12 12 [Examples.cityA; Examples.cityB'])))
              5 5
        ∧ (startCell 12 12
             (claimed 12 (take 1 (generate 12 12 [Examples.cityA; Examples.cityB'])))
             5 5 = None → tiles ct = []).
Proof.
  exact (proj2 (start_cell_selection 12 12 [Examples.cityA; Examples.cityB'] 1
                 Examples.cityB' eq_refl)).
Defined.

Lemma growth_step_witness :
  ∃ best,
    findBestNextCell 3 3 {[ 4 ]} 1 1 [ {| x := 1; y := 1 |} ] = Some best
    ∧ inFrontier 3 3 {[ 4 ]} [ {| x := 1; y := 1 |} ] best.
Proof.
  destruct (growth_step 3 3 {[ 4 ]} 1 1 [ {| x := 1; y := 1 |} ])
    as (best & Hbest & Hin & _).
  - exists {| x := 0; y := 0 |}. split.
    + split; [reflexivity|]. apply not_elem_of_singleton. vm_compute. congruence.
    + exists {| x := 1; y := 1 |}. split; [apply list_elem_of_here|reflexivity].
  - exists best. split; [exact Hbest|exact Hin].
Defined.

Lemma fallback_search_witness :
  fallbackSearch 3 3 (list_to_set [0; 1; 3; 4]) 0 0
  = candidate 0 0 <$>
      take 50 (openCells 3 3 (list_to_set [0; 1; 3; 4]) 0 0 0 (Z.max 3 3)).
Proof.
  refine (proj1 (fallback_search 3 3 (list_to_set [0; 1; 3; 4]) 0 0
                   [ {| x := 0; y := 0 |} ] _)).
  intros c Hc. apply elem_of_frontier in Hc.
  replace (collectAdjacent 3 3 (list_to_set [0; 1; 3; 4]) [ {| x := 0; y := 0 |} ])
    with (@nil Z) in Hc by (vm_compute; reflexivity).
  by apply elem_of_nil in Hc.
Defined.

Lemma start_cell_never_fails_witness :
  is_Some (findNearestOpenCell 3 3 {[ 4 ]} 1 1).
Proof.
  refine (proj2 (start_cell_never_fails 3 3 {[ 4 ]} 1 1 _ _)).
  - reflexivity.
  - exists 0, 0. split; [reflexivity|].
    apply not_elem_of_singleton. vm_compute. congruence.
Defined.

Lemma tile_quota_rounding_witness :
  PopMapGenerator64.quota64 Examples.scenarioA (mkCity "A" 100 0 0)
  = Some (roundHalfAwayFromZero (inject_Z 1024 * inject_Z 100 / inject_Z 400)%Q)
  ∧ roundHalfAwayFromZero (inject_Z 1024 * inject_Z 100 / inject_Z 400)%Q
    = (2048 * 100 + 400) / (2 * 400).
Proof.
  destruct (tile_quota_rounding Examples.scenarioA (mkCity "A" 100 0 0))
    as (H1 & H2 & _).
  - repeat constructor; cbn; lia.
  - cbn. lia.
  - apply list_elem_of_here.
  - split; [exact H1|exact H2].
Defined.

End Generator.

Module RenderProps.
Import PopMapGenerator PopMap RenderSpec.

Section Grids.

Variables W H : nat.

Lemma get_in_range g ry rx :
  wf W H g → 0 ≤ ry → (Z.to_nat ry < H)%nat → 0 ≤ rx → (Z.to_nat rx < W)%nat →
  get g ry rx = Some (cellAt g rx ry).
Proof.
  intros [Hlen Hrows] Hy0 Hy Hx0 Hx. unfold cellAt, get.
  replace ((0 <=? ry) && (0 <=? rx)) with true
    by (symmetry; apply andb_true_iff; lia).
  destruct (lookup_lt_is_Some_2 g (Z.to_nat ry)) as [row Hrow]; [lia|].
  rewrite Hrow. cbn.
  rewrite Forall_forall in Hrows.
  pose proof (Hrows row (list_elem_of_lookup_2 _ _ _ Hrow)) as Hw.
  destruct (lookup_lt_is_Some_2 row (Z.to_nat rx)) as [v Hv]; [lia|].
  by rewrite Hv.
Qed.

Lemma set_spec g ry rx v :
  wf W H g → 0 ≤ ry → (Z.to_nat ry < H)%nat → 0 ≤ rx → (Z.to_nat rx < W)%nat →
  ∃ g', set g ry rx v = Some g' ∧ wf W H g'
        ∧ ∀ rx' ry', cellAt g' rx' ry'
                     = if decide (rx' = rx ∧ ry' = ry) then v else cellAt g rx' ry'.
Proof.
  intros Hwf Hy0 Hy Hx0 Hx. unfold set.
  rewrite (get_in_range g ry rx) by done.
  eexists. split; [reflexivity|].
  destruct Hwf as [Hlen Hrows]. split.
  - split; [by rewrite length_alter|].
    apply Forall_alter; [done|]. intros row _ Hw. by rewrite length_insert.
  - intros rx' ry'. unfold cellAt, get.
    destruct ((0 <=? ry') && (0 <=? rx')) eqn:E.
    2:{ apply andb_false_iff in E. rewrite decide_False; [done|].
        intros [-> ->]. destruct E as [E|E]; apply Z.leb_gt in E; lia. }
    apply andb_true_iff in E as [Ey Ex]. apply Z.leb_le in Ey, Ex.
    destruct (decide (ry' = ry)) as [->|Hny].
    + rewrite list_lookup_alter_eq.
      destruct (g !! Z.to_nat ry) as [row|] eqn:Hrow; cbn.
      2:{ apply lookup_ge_None in Hrow. lia. }
      rewrite Forall_forall in Hrows.
      pose proof (Hrows row (list_elem_of_lookup_2 _ _ _ Hrow)) as Hw.
      destruct (decide (rx' = rx)) as [->|Hnx].
      * rewrite decide_True by done.
        by rewrite list_lookup_insert_eq by lia.
      * rewrite decide_False by tauto.
        by rewrite list_lookup_insert_ne by lia.
    + rewrite decide_False by tauto.
      by rewrite list_lookup_alter_ne by lia.
Qed.

(** A conditional write: the cell keeps its value when the condition
    fails. *)
Lemma set_if_spec (P : Prop) `{Decision P} g ry rx v :
  wf W H g → 0 ≤ ry → (Z.to_nat ry < H)%nat → 0 ≤ rx → (Z.to_nat rx < W)%nat →
  ∃ g', (if decide P then set g ry rx v else Some g) = Some g' ∧ wf W H g'
        ∧ ∀ rx' ry', cellAt g' rx' ry'
                     = if decide (rx' = rx ∧ ry' = ry)
                       then (if decide P then v else cellAt g rx ry)
                       else cellAt g rx' ry'.
Proof.
  intros Hwf Hy0 Hy Hx0 Hx. destruct (decide P).
  - by apply set_spec.
  - exists g. split; [done|]. split; [done|].
    intros rx' ry'. case_decide as E; [|done]. by destruct E as [-> ->].
Qed.

End Grids.

Section Render.

Variables gridWidth gridHeight : Z.

Abbreviation RW := (Z.to_nat (renderGridWidth gridWidth)).
Abbreviation RH := (Z.to_nat (renderGridHeight gridHeight)).
Abbreviation validT :=
  (λ t : Coordinate, isValidCell gridWidth gridHeight (x t) (y t) = true).

Lemma valid_range a b :
  isValidCell gridWidth gridHeight a b = true ↔
  0 ≤ a < gridWidth ∧ 0 ≤ b < gridHeight.
Proof. unfold isValidCell. rewrite !andb_true_iff. lia. Qed.

Lemma initGrid_wf : wf RW RH (initGrid gridWidth gridHeight).
Proof.
  split; [apply length_replicate|].
  apply Forall_replicate, length_replicate.
Qed.

Lemma initGrid_cell rx ry : cellAt (initGrid gridWidth gridHeight) rx ry = None.
Proof.
  unfold cellAt, get, initGrid. destruct (_ && _); [|done].
  destruct (replicate RH _ !! Z.to_nat ry) as [row|] eqn:E; [|done].
  apply lookup_replicate in E as [-> _]. cbn.
  destruct (replicate RW _ !! Z.to_nat rx) as [v|] eqn:E'; [|done].
  by apply lookup_replicate in E' as [-> _].
Qed.

(** *** The tiles *)

Lemma fill_record idx ts g :
  wf RW RH g → Forall validT ts →
  ∃ g',
    foldl (λ og tile,
             g ← og; set g (y tile * 2 + 1) (x tile * 2 + 1) (Some idx))
          (Some g) ts = Some g'
    ∧ wf RW RH g'
    ∧ (∀ tx ty, cellAt g' (2 * tx + 1) (2 * ty + 1)
                = if decide ({| x := tx; y := ty |} ∈ ts) then Some idx
                  else cellAt g (2 * tx + 1) (2 * ty + 1))
    ∧ (∀ rx ry, (∀ tx ty, ¬ (rx = 2 * tx + 1 ∧ ry = 2 * ty + 1)) →
                cellAt g' rx ry = cellAt g rx ry).
Proof.
  intros Hwf Hts. revert g Hwf.
  induction Hts as [|t ts Ht Hts IH]; intros g Hwf.
  { exists g. split_and!; [done|done| |done].
    intros tx ty. rewrite decide_False; [done|]. apply not_elem_of_nil. }
  cbn [foldl mbind option_bind].
  apply valid_range in Ht.
  destruct (set_spec RW RH g (y t * 2 + 1) (x t * 2 + 1) (Some idx) Hwf)
    as (g1 & -> & Hwf1 & Hg1);
    [unfold renderGridHeight, renderGridWidth; lia..|].
  destruct (IH g1 Hwf1) as (g' & -> & Hwf' & Htiles & Hframe).
  exists g'. split_and!; [done|done| |].
  - intros tx ty. rewrite Htiles, Hg1.
    destruct (decide ({| x := tx; y := ty |} ∈ ts)) as [Hin|Hnin].
    + rewrite decide_True; [done|]. by apply list_elem_of_further.
    + destruct (decide (tx = x t ∧ ty = y t)) as [[-> ->]|Hne].
      * rewrite decide_True by lia. rewrite decide_True; [done|].
        destruct t. apply list_elem_of_here.
      * rewrite decide_False by lia. rewrite decide_False; [done|].
        intros [E|E]%elem_of_cons; [|done]. apply Hne. by rewrite <- E.
  - intros rx ry Hodd. rewrite Hframe, Hg1 by done.
    rewrite decide_False; [done|]. intros [-> ->].
    apply (Hodd (x t) (y t)). lia.
Qed.

Lemma fillTiles_spec cityTiles g :
  wf RW RH g → Forall (λ cd, Forall validT (tiles cd)) cityTiles →
  ∃ g',
    fillTiles cityTiles g = Some g' ∧ wf RW RH g'
    ∧ (∀ tx ty, cellAt g' (2 * tx + 1) (2 * ty + 1)
                = foldl (λ o cityData,
                           if decide ({| x := tx; y := ty |} ∈ tiles cityData)
                           then Some (index cityData) else o)
                        (cellAt g (2 * tx + 1) (2 * ty + 1)) cityTiles)
    ∧ (∀ rx ry, (∀ tx ty, ¬ (rx = 2 * tx + 1 ∧ ry = 2 * ty + 1)) →
                cellAt g' rx ry = cellAt g rx ry).
Proof.
  intros Hwf Hall. revert g Hwf.
  induction Hall as [|cd cts Hcd Hall IH]; intros g Hwf.
  { by exists g. }
  unfold fillTiles. cbn [foldl].
  destruct (fill_record (index cd) (tiles cd) g Hwf Hcd)
    as (g1 & -> & Hwf1 & Htiles1 & Hframe1).
  destruct (IH g1 Hwf1) as (g' & Hg' & Hwf' & Htiles & Hframe).
  unfold fillTiles in Hg'. cbn zeta in Hg'. rewrite Hg'.
  exists g'. split_and!; [done|done| |].
  - intros tx ty. by rewrite Htiles, Htiles1.
  - intros rx ry Hodd. by rewrite Hframe, Hframe1.
Qed.

Lemma owner_None cityTiles tx ty o :
  (∀ cd, cd ∈ cityTiles → {| x := tx; y := ty |} ∉ tiles cd) →
  foldl (λ o cityData,
           if decide ({| x := tx; y := ty |} ∈ tiles cityData)
           then Some (index cityData) else o) o cityTiles = o.
Proof.
  revert o. induction cityTiles as [|cd cts IH]; intros o Hno; [done|].
  cbn [foldl]. rewrite decide_False by (apply Hno; apply list_elem_of_here).
  apply IH. intros cd' Hcd'. apply Hno. by apply list_elem_of_further.
Qed.

Lemma owner_Some cityTiles tx ty o idx :
  (∃ cd, cd ∈ cityTiles ∧ {| x := tx; y := ty |} ∈ tiles cd) →
  (∀ cd, cd ∈ cityTiles → {| x := tx; y := ty |} ∈ tiles cd → index cd = idx) →
  foldl (λ o cityData,
           if decide ({| x := tx; y := ty |} ∈ tiles cityData)
           then Some (index cityData) else o) o cityTiles = Some idx.
Proof.
  revert o. induction cityTiles as [|cd cts IH]; intros o (cd0 & Hcd0 & Ht0) Hidx.
  { by apply elem_of_nil in Hcd0. }
  cbn [foldl].
  destruct (decide (Exists (λ cd', {| x := tx; y := ty |} ∈ tiles cd') cts))
    as [Hex|Hnex]; rewrite Exists_exists in *.
  - apply IH; [done|]. intros cd' Hcd'. apply Hidx. by apply list_elem_of_further.
  - rewrite owner_None.
    2:{ intros cd' Hcd' Hin. apply Hnex. by exists cd'. }
    apply elem_of_cons in Hcd0 as [->|Hcd0]; [|exfalso; apply Hnex; by exists cd0].
    rewrite decide_True by done. f_equal. apply Hidx; [apply list_elem_of_here|done].
Qed.

(** *** The borders and corners *)

Section Borders.

Variable cityTiles : list CityTiles.

Abbreviation inv := (Inv gridWidth gridHeight cityTiles).

Lemma Inv_ext (done done' : Z → Z → Prop) g :
  (∀ i j, interior gridWidth gridHeight i j → done i j ↔ done' i j) →
  inv done g → inv done' g.
Proof.
  intros Hext (Hwf & Htile & Hdone & Hother). split_and!; [done|done| |].
  - intros i j Hint Hd. apply Hdone; [done|]. by apply Hext.
  - intros rx ry Hodd Hnd. apply Hother; [done|].
    intros i j Hint Hd. apply Hnd; [done|]. by apply Hext.
Qed.

Lemma fillAround_spec (done : Z → Z → Prop) g i j :
  inv done g → interior gridWidth gridHeight i j → ¬ done i j →
  ∃ g', fillAround (2 * j) (2 * i) g = Some g'
        ∧ inv (λ i' j', done i' j' ∨ (i' = i ∧ j' = j)) g'.
Proof.
  intros (Hwf & Htile & Hdone & Hother) Hint Hnd.
  pose proof Hint as [Hi Hj].
  assert (cellAt g (2 * i - 1) (2 * j - 1) = owner cityTiles (i - 1) (j - 1)) as EUL.
  { rewrite <- Htile by (apply valid_range; lia). f_equal; lia. }
  assert (cellAt g (2 * i - 1) (2 * j + 1) = owner cityTiles (i - 1) j) as EDL.
  { rewrite <- Htile by (apply valid_range; lia). f_equal; lia. }
  assert (cellAt g (2 * i + 1) (2 * j - 1) = owner cityTiles i (j - 1)) as EUR.
  { rewrite <- Htile by (apply valid_range; lia). f_equal; lia. }
  assert (cellAt g (2 * i + 1) (2 * j + 1) = owner cityTiles i j) as EDR.
  { rewrite <- Htile by (apply valid_range; lia). done. }
  assert (cellAt g (2 * i) (2 * j - 1) = None
          ∧ cellAt g (2 * i - 1) (2 * j) = None
          ∧ cellAt g (2 * i) (2 * j) = None) as (EA & EB & EC).
  { split_and!; apply Hother; try (intros; lia);
      intros i' j' Hint' Hd';
      (destruct (decide (i' = i ∧ j' = j)) as [[-> ->]|]; [done|lia]). }
  unfold fillAround.
  rewrite !(get_in_range RW RH g) by (done || unfold renderGridHeight, renderGridWidth; lia).
  cbn [mbind option_bind]. rewrite EUL, EDL, EUR, EDR.
  destruct (owner cityTiles (i - 1) (j - 1)) as [u|] eqn:Eu.
  2:{ exists g. split; [done|]. split_and!; [done|done| |].
      - intros i' j' Hint' [Hd|[-> ->]]; [by apply Hdone|].
        unfold edgeX, edgeY, corner. rewrite Eu, EA, EB, EC.
        rewrite !decide_False by tauto. done.
      - intros rx ry Hodd Hn. apply Hother; [done|].
        intros i' j' Hint' Hd'. apply Hn; [done|by left]. }
  destruct (set_if_spec RW RH (Some u = owner cityTiles i (j - 1)) g
              (2 * j - 1) (2 * i) (Some u) Hwf)
    as (g1 & -> & Hwf1 & Hg1); [unfold renderGridHeight, renderGridWidth; lia..|].
  cbn [mbind option_bind].
  destruct (set_if_spec RW RH (Some u = owner cityTiles (i - 1) j) g1
              (2 * j) (2 * i - 1) (Some u) Hwf1)
    as (g2 & -> & Hwf2 & Hg2); [unfold renderGridHeight, renderGridWidth; lia..|].
  cbn [mbind option_bind].
  destruct (set_if_spec RW RH
              (Some u = owner cityTiles i (j - 1) ∧ Some u = owner cityTiles (i - 1) j
               ∧ Some u = owner cityTiles (i - 1) j ∧ Some u = owner cityTiles i j) g2
              (2 * j) (2 * i) (Some u) Hwf2)
    as (g3 & -> & Hwf3 & Hg3); [unfold renderGridHeight, renderGridWidth; lia..|].
  exists g3. split; [done|].
  assert (∀ rx ry, ¬ (rx = 2 * i ∧ ry = 2 * j - 1) → ¬ (rx = 2 * i - 1 ∧ ry = 2 * j)
                   → ¬ (rx = 2 * i ∧ ry = 2 * j) →
                   cellAt g3 rx ry = cellAt g rx ry) as Hframe.
  { intros rx ry H1 H2 H3. rewrite Hg3. rewrite decide_False by exact H3.
    rewrite Hg2. rewrite decide_False by exact H2.
    rewrite Hg1. by rewrite decide_False by exact H1. }
  split_and!; [done| | |].
  - intros tx ty Hv. rewrite Hframe by lia. by apply Htile.
  - intros i' j' Hint' [Hd|[-> ->]].
    + assert (¬ (i' = i ∧ j' = j)) by (intros [-> ->]; done).
      rewrite !Hframe by lia. by apply Hdone.
    + rewrite !Hg3, !Hg2, !Hg1, ?EA, ?EB, ?EC.
      unfold edgeX, edgeY, corner. rewrite Eu.
      split_and!; repeat case_decide; try lia; try done; intuition congruence.
  - intros rx ry Hodd Hn.
    destruct (Hn i j Hint (or_intror (conj eq_refl eq_refl))) as (H1 & H2 & H3).
    rewrite Hframe by done. apply Hother; [done|].
    intros i' j' Hint' Hd'. apply Hn; [done|by left].
Qed.

Lemma for_step_inv {S : Type} (P : nat → S → Prop) (body : Z → S → option S)
    (n : nat) (i0 : Z) :
  (∀ k s, (k < n)%nat → P k s →
          ∃ s', body (i0 + 2 * Z.of_nat k) s = Some s' ∧ P (Datatypes.S k) s') →
  ∀ s, P 0%nat s → ∃ s', for_step n i0 2 body s = Some s' ∧ P n s'.
Proof.
  intros Hbody.
  assert (∀ m k s, (k + m = n)%nat → P k s →
            ∃ s', for_step m (i0 + 2 * Z.of_nat k) 2 body s = Some s' ∧ P n s')
    as Hgen.
  { induction m as [|m IH]; intros k s Hk HP.
    - exists s. split; [done|]. by replace n with k by lia.
    - cbn [for_step].
      destruct (Hbody k s) as (s1 & -> & HP1); [lia|done|].
      cbn [mbind option_bind].
      replace (i0 + 2 * Z.of_nat k + 2) with (i0 + 2 * Z.of_nat (Datatypes.S k)) by lia.
      apply IH; [lia|done]. }
  intros s HP. specialize (Hgen n 0%nat s).
  replace (i0 + 2 * Z.of_nat 0) with i0 in Hgen by lia.
  by apply Hgen.
Qed.

Lemma trip_count (n : Z) : (n * 2 + 1 - 2 - 2 + 1) / 2 = n - 1.
Proof. replace (n * 2 + 1 - 2 - 2 + 1) with ((n - 1) * 2) by lia. apply Z.div_mul. lia. Qed.

Lemma fillBorders_spec g :
  inv (λ _ _, False) g →
  ∃ g', fillBorders gridWidth gridHeight g = Some g' ∧ inv (λ _ _, True) g'.
Proof.
  intros Hinv. unfold fillBorders, renderGridHeight, renderGridWidth.
  rewrite !trip_count.
  destruct (for_step_inv (λ k g, inv (λ _ j', j' < 1 + Z.of_nat k) g)
              (λ y g, for_step (Z.to_nat (gridWidth - 1)) 2 2
                        (λ x g, fillAround y x g) g)
              (Z.to_nat (gridHeight - 1)) 2) with (s := g)
    as (g' & Hg' & Hinv').
  - intros k g0 Hk Hg0.
    destruct (for_step_inv
                (λ m g, inv (λ i' j', j' < 1 + Z.of_nat k
                                      ∨ (j' = 1 + Z.of_nat k ∧ i' < 1 + Z.of_nat m)) g)
                (λ x g, fillAround (2 + 2 * Z.of_nat k) x g)
                (Z.to_nat (gridWidth - 1)) 2) with (s := g0)
      as (g1 & Hg1 & Hinv1).
    + intros m g1 Hm Hg1.
      replace (2 + 2 * Z.of_nat k) with (2 * (1 + Z.of_nat k)) by lia.
      replace (2 + 2 * Z.of_nat m) with (2 * (1 + Z.of_nat m)) by lia.
      destruct (fillAround_spec _ g1 (1 + Z.of_nat m) (1 + Z.of_nat k) Hg1)
        as (g2 & Hg2 & Hinv2).
      * unfold interior. lia.
      * lia.
      * exists g2. split; [done|].
        eapply Inv_ext; [|exact Hinv2]. intros i' j' _. cbn beta. lia.
    + eapply Inv_ext; [|exact Hg0]. intros i' j' [Hi' Hj']. cbn beta. lia.
    + exists g1. split; [done|].
      eapply Inv_ext; [|exact Hinv1]. intros i' j' [Hi' Hj']. cbn beta. lia.
  - eapply Inv_ext; [|exact Hinv]. intros i' j' [Hi' Hj']. cbn beta. lia.
  - exists g'. split; [done|].
    eapply Inv_ext; [|exact Hinv']. intros i' j' [Hi' Hj']. cbn beta. lia.
Qed.

Lemma renderGrid_spec :
  Forall (λ cd, Forall validT (tiles cd)) cityTiles →
  ∃ g, renderGrid gridWidth gridHeight cityTiles = Some g ∧ inv (λ _ _, True) g.
Proof.
  intros Hall. unfold renderGrid.
  destruct (fillTiles_spec cityTiles (initGrid gridWidth gridHeight) initGrid_wf Hall)
    as (g1 & -> & Hwf1 & Htiles & Hframe).
  cbn [mbind option_bind]. apply fillBorders_spec.
  split_and!; [done| |done|].
  - intros tx ty _. rewrite Htiles, initGrid_cell. done.
  - intros rx ry Hodd _.
    destruct (Z.odd rx) eqn:Ex; [destruct (Z.odd ry) eqn:Ey|].
    + apply Z.odd_spec in Ex as [tx ->], Ey as [ty ->].
      rewrite Htiles, initGrid_cell. apply owner_None.
      intros cd Hcd Hin. apply (Hodd tx ty); [|done].
      rewrite Forall_forall in Hall. specialize (Hall _ Hcd).
      rewrite Forall_forall in Hall. apply (Hall _ Hin).
    + rewrite Hframe, initGrid_cell; [done|].
      intros tx ty [_ ->]. rewrite Z.add_comm, Z.odd_add_mul_2 in Ey. done.
    + rewrite Hframe, initGrid_cell; [done|].
      intros tx ty [-> _]. rewrite Z.add_comm, Z.odd_add_mul_2 in Ex. done.
Qed.

(** The cells of the finished grid. *)
Lemma final_cells g :
  inv (λ _ _, True) g →
  (∀ tx ty, cellAt g (2 * tx + 1) (2 * ty + 1)
            = if isValidCell gridWidth gridHeight tx ty
              then owner cityTiles tx ty else None)
  ∧ (∀ i j, interior gridWidth gridHeight i j →
            cellAt g (2 * i) (2 * j - 1) = edgeX cityTiles i j
            ∧ cellAt g (2 * i - 1) (2 * j) = edgeY cityTiles i j
            ∧ cellAt g (2 * i) (2 * j) = corner cityTiles i j)
  ∧ (∀ i j, ¬ interior gridWidth gridHeight i j →
            cellAt g (2 * i) (2 * j - 1) = None
            ∧ cellAt g (2 * i - 1) (2 * j) = None
            ∧ cellAt g (2 * i) (2 * j) = None).
Proof.
  intros (Hwf & Htile & Hdone & Hother). split_and!.
  - intros tx ty. destruct (isValidCell _ _ tx ty) eqn:Ev; [by apply Htile|].
    apply Hother.
    + intros tx' ty' Hv' [E1 E2].
      assert (tx' = tx) as -> by lia. assert (ty' = ty) as -> by lia. congruence.
    + intros i j _ _. lia.
  - intros i j Hint. by apply Hdone.
  - intros i j Hnint.
    split_and!; apply Hother; try (intros; lia);
      intros i' j' Hint' _;
      (destruct (decide (i' = i ∧ j' = j)) as [[-> ->]|]; [done|lia]).
Qed.

Lemma edgeX_Some i j v :
  edgeX cityTiles i j = Some v ↔
  owner cityTiles (i - 1) (j - 1) = Some v ∧ owner cityTiles i (j - 1) = Some v.
Proof.
  unfold edgeX. cbn zeta. case_decide as E.
  - destruct E as [_ E]. rewrite <- E. tauto.
  - split; [done|]. intros [E1 E2]. exfalso. apply E. rewrite E1, E2. done.
Qed.

Lemma edgeY_Some i j v :
  edgeY cityTiles i j = Some v ↔
  owner cityTiles (i - 1) (j - 1) = Some v ∧ owner cityTiles (i - 1) j = Some v.
Proof.
  unfold edgeY. cbn zeta. case_decide as E.
  - destruct E as [_ E]. rewrite <- E. tauto.
  - split; [done|]. intros [E1 E2]. exfalso. apply E. rewrite E1, E2. done.
Qed.

Lemma corner_Some i j v :
  corner cityTiles i j = Some v ↔
  owner cityTiles (i - 1) (j - 1) = Some v ∧ owner cityTiles i (j - 1) = Some v
  ∧ owner cityTiles (i - 1) j = Some v ∧ owner cityTiles i j = Some v.
Proof.
  unfold corner. cbn zeta. case_decide as E.
  - destruct E as (_ & E1 & E2 & E3). rewrite <- E1, <- E2, <- E3. tauto.
  - split; [done|]. intros (E1 & E2 & E3 & E4). exfalso. apply E.
    rewrite E1, E2, E3, E4. done.
Qed.

End Borders.

End Render.

End RenderProps.

(** * The claim about the render grid *)
Module Render.
Import PopMapGenerator PopMap RenderSpec RenderProps.

Lemma cellAt_ext (g : RenderGrid) rx ry rx' ry' :
  rx = rx' → ry = ry' → cellAt g rx ry = cellAt g rx' ry'.
Proof. by intros -> ->. Qed.

Lemma isolated_contra cityTiles a b idx v X1 Y1 X2 Y2 dx dy :
  owner cityTiles a b = Some idx →
  (∀ dx dy, ¬ (dx = 0 ∧ dy = 0) → -1 ≤ dx ≤ 1 → -1 ≤ dy ≤ 1 →
            owner cityTiles (a + dx) (b + dy) ≠ Some idx) →
  owner cityTiles X1 Y1 = Some v → owner cityTiles X2 Y2 = Some v →
  X1 = a → Y1 = b → X2 = a + dx → Y2 = b + dy →
  ¬ (dx = 0 ∧ dy = 0) → -1 ≤ dx ≤ 1 → -1 ≤ dy ≤ 1 → False.
Proof.
  intros Ho Hn E1 E2 -> -> -> -> H0 Hdx Hdy.
  apply (Hn dx dy H0 Hdx Hdy). congruence.
Qed.

(** C9 (render transform).  For grid-valid tiles, each owned by one
    location, [renderMap] builds a grid of [2 * gridHeight + 1] rows of
    [2 * gridWidth + 1] cells in which: every tile [(x, y)] of a record sits at
    [(2x+1, 2y+1)] with the record's index, the other odd positions being
    unassigned; for every interior even position [(ex, ey)] the cell
    [(ex, ey-1)] holds up-left's index exactly when up-left is assigned and
    equals up-right, [(ex-1, ey)] exactly when up-left is assigned and equals
    down-left, [(ex, ey)] exactly when the four diagonal neighbours are
    assigned and equal; every other cell is unassigned.  So the eight cells
    around a tile without same-location neighbour are unassigned, and a 2 x 2
    block of one location that does not touch the far edges has its corner
    cell and its four border cells assigned; on the two sample grids the
    assigned positions are exactly the tile, and exactly the nine cells of the
    block. *)
Theorem render_transform (gridWidth gridHeight : Z) (cityTiles : list CityTiles) :
  Forall (λ cd, Forall (λ t, isValidCell gridWidth gridHeight (x t) (y t) = true)
                       (tiles cd)) cityTiles →
  (∀ cd cd' t, cd ∈ cityTiles → cd' ∈ cityTiles →
               t ∈ tiles cd → t ∈ tiles cd' → index cd = index cd') →
  ∃ g,
    renderGrid gridWidth gridHeight cityTiles = Some g
    ∧ (length g = Z.to_nat (2 * gridHeight + 1)
       ∧ Forall (λ row, length row = Z.to_nat (2 * gridWidth + 1)) g)
    ∧ (∀ cd t, cd ∈ cityTiles → t ∈ tiles cd →
               cellAt g (2 * x t + 1) (2 * y t + 1) = Some (index cd))
    ∧ (∀ tx ty, (∀ cd, cd ∈ cityTiles → {| x := tx; y := ty |} ∉ tiles cd) →
                cellAt g (2 * tx + 1) (2 * ty + 1) = None)
    ∧ (∀ i j, interior gridWidth gridHeight i j →
         let upLeft := cellAt g (2 * i - 1) (2 * j - 1) in
         let upRight := cellAt g (2 * i + 1) (2 * j - 1) in
         let downLeft := cellAt g (2 * i - 1) (2 * j + 1) in
         let downRight := cellAt g (2 * i + 1) (2 * j + 1) in
         cellAt g (2 * i) (2 * j - 1)
         = (if decide (upLeft ≠ None ∧ upLeft = upRight) then upLeft else None)
         ∧ cellAt g (2 * i - 1) (2 * j)
           = (if decide (upLeft ≠ None ∧ upLeft = downLeft) then upLeft else None)
         ∧ cellAt g (2 * i) (2 * j)
           = (if decide (upLeft ≠ None ∧ upLeft = upRight ∧ upLeft = downLeft
                         ∧ upLeft = downRight)
              then upLeft else None))
    ∧ (∀ i j, ¬ interior gridWidth gridHeight i j →
         cellAt g (2 * i) (2 * j - 1) = None
         ∧ cellAt g (2 * i - 1) (2 * j) = None
         ∧ cellAt g (2 * i) (2 * j) = None)
    ∧ (∀ cd t, cd ∈ cityTiles → t ∈ tiles cd →
         (∀ dx dy, ¬ (dx = 0 ∧ dy = 0) → -1 ≤ dx ≤ 1 → -1 ≤ dy ≤ 1 →
                   cellAt g (2 * (x t + dx) + 1) (2 * (y t + dy) + 1)
                   ≠ Some (index cd)) →
         ∀ dx dy, ¬ (dx = 0 ∧ dy = 0) → -1 ≤ dx ≤ 1 → -1 ≤ dy ≤ 1 →
                  cellAt g (2 * x t + 1 + dx) (2 * y t + 1 + dy) = None)
    ∧ (∀ idx i j, 0 ≤ i → i + 2 < gridWidth → 0 ≤ j → j + 2 < gridHeight →
         cellAt g (2 * i + 1) (2 * j + 1) = Some idx →
         cellAt g (2 * i + 3) (2 * j + 1) = Some idx →
         cellAt g (2 * i + 1) (2 * j + 3) = Some idx →
         cellAt g (2 * i + 3) (2 * j + 3) = Some idx →
         cellAt g (2 * i + 2) (2 * j + 2) = Some idx
         ∧ cellAt g (2 * i + 2) (2 * j + 1) = Some idx
         ∧ cellAt g (2 * i + 1) (2 * j + 2) = Some idx
         ∧ cellAt g (2 * i + 3) (2 * j + 2) = Some idx
         ∧ cellAt g (2 * i + 2) (2 * j + 3) = Some idx)
    ∧ assignedPositions <$> renderGrid 3 3 Examples.singleTile = Some [ (3, 3) ]
    ∧ assignedPositions <$> renderGrid 4 4 Examples.block
      = Some [ (3, 3); (4, 3); (5, 3); (3, 4); (4, 4); (5, 4); (3, 5); (4, 5); (5, 5) ].
Proof.
  intros Hvalid Huniq.
  destruct (renderGrid_spec gridWidth gridHeight cityTiles Hvalid) as (g & Hg & Hinv).
  pose proof Hinv as (Hwf & _).
  destruct (final_cells gridWidth gridHeight cityTiles g Hinv) as (F1 & F2 & F3).
  assert (∀ tx ty, isValidCell gridWidth gridHeight tx ty = false →
                   owner cityTiles tx ty = None) as Hinvalid.
  { intros tx ty Hv. apply owner_None. intros cd Hcd Hin.
    rewrite Forall_forall in Hvalid. specialize (Hvalid _ Hcd).
    rewrite Forall_forall in Hvalid. specialize (Hvalid _ Hin). cbn in Hvalid.
    congruence. }
  assert (∀ tx ty, cellAt g (2 * tx + 1) (2 * ty + 1) = owner cityTiles tx ty) as F1'.
  { intros tx ty. rewrite F1.
    destruct (isValidCell _ _ tx ty) eqn:E; [done|]. by rewrite Hinvalid. }
  assert (∀ rx ry tx ty, rx = 2 * tx + 1 → ry = 2 * ty + 1 →
                         cellAt g rx ry = owner cityTiles tx ty) as Hown.
  { intros rx ry tx ty -> ->. apply F1'. }
  exists g. split; [done|]. split_and!.
  - destruct Hwf as [Hlen _]. rewrite Hlen. unfold renderGridHeight. f_equal. lia.
  - destruct Hwf as [_ Hrows]. eapply Forall_impl; [exact Hrows|].
    intros row ->. unfold renderGridWidth. f_equal. lia.
  - intros cd t Hcd Ht. rewrite F1'. apply owner_Some.
    + exists cd. split; [done|]. by destruct t.
    + intros cd' Hcd' Ht'. apply (Huniq cd' cd t); [done|done| |done].
      by destruct t.
  - intros tx ty Hno. rewrite F1'. by apply owner_None.
  - intros i j Hint. cbn zeta.
    rewrite (Hown (2 * i - 1) (2 * j - 1) (i - 1) (j - 1)) by lia.
    rewrite (Hown (2 * i + 1) (2 * j - 1) i (j - 1)) by lia.
    rewrite (Hown (2 * i - 1) (2 * j + 1) (i - 1) j) by lia.
    rewrite (Hown (2 * i + 1) (2 * j + 1) i j) by lia.
    apply (F2 i j Hint).
  - exact F3.
  - intros cd t Hcd Ht Hiso dx dy H0 Hdx Hdy.
    assert (owner cityTiles (x t) (y t) = Some (index cd)) as Ho.
    { apply owner_Some.
      - exists cd. split; [done|]. by destruct t.
      - intros cd' Hcd' Ht'. apply (Huniq cd' cd t); [done|done| |done].
        by destruct t. }
    assert (∀ dx dy, ¬ (dx = 0 ∧ dy = 0) → -1 ≤ dx ≤ 1 → -1 ≤ dy ≤ 1 →
              owner cityTiles (x t + dx) (y t + dy) ≠ Some (index cd)) as Hn.
    { intros dx' dy' H0' Hdx' Hdy'. rewrite <- F1'. by apply Hiso. }
    assert (dx = -1 ∨ dx = 0 ∨ dx = 1) as Cx by lia.
    assert (dy = -1 ∨ dy = 0 ∨ dy = 1) as Cy by lia.
    clear Hiso.
    destruct Cx as [-> | [-> | ->]], Cy as [-> | [-> | ->]]; try (exfalso; lia).
    + (* (-1, -1): the corner of (x, y) *)
      rewrite (cellAt_ext g _ _ (2 * x t) (2 * y t)) by lia.
      destruct (decide (interior gridWidth gridHeight (x t) (y t))) as [Hint|Hint];
        [|by apply F3].
      destruct (F2 _ _ Hint) as (_ & _ & ->).
      destruct (corner cityTiles (x t) (y t)) as [v|] eqn:E; [|done]. exfalso.
      apply corner_Some in E as (E1 & E2 & E3 & E4).
      apply (isolated_contra cityTiles (x t) (y t) (index cd) v _ _ _ _ (-1) (-1)
               Ho Hn E4 E1); lia.
    + (* (-1, 0) *)
      rewrite (cellAt_ext g _ _ (2 * x t) (2 * (y t + 1) - 1)) by lia.
      destruct (decide (interior gridWidth gridHeight (x t) (y t + 1))) as [Hint|Hint];
        [|by apply F3].
      destruct (F2 _ _ Hint) as (-> & _ & _).
      destruct (edgeX cityTiles (x t) (y t + 1)) as [v|] eqn:E; [|done]. exfalso.
      apply edgeX_Some in E as (E1 & E2).
      apply (isolated_contra cityTiles (x t) (y t) (index cd) v _ _ _ _ (-1) 0
               Ho Hn E2 E1); lia.
    + (* (-1, 1) *)
      rewrite (cellAt_ext g _ _ (2 * x t) (2 * (y t + 1))) by lia.
      destruct (decide (interior gridWidth gridHeight (x t) (y t + 1))) as [Hint|Hint];
        [|by apply F3].
      destruct (F2 _ _ Hint) as (_ & _ & ->).
      destruct (corner cityTiles (x t) (y t + 1)) as [v|] eqn:E; [|done]. exfalso.
      apply corner_Some in E as (E1 & E2 & E3 & E4).
      apply (isolated_contra cityTiles (x t) (y t) (index cd) v _ _ _ _ (-1) 0
               Ho Hn E2 E1); lia.
    + (* (0, -1) *)
      rewrite (cellAt_ext g _ _ (2 * (x t + 1) - 1) (2 * y t)) by lia.
      destruct (decide (interior gridWidth gridHeight (x t + 1) (y t))) as [Hint|Hint];
        [|by apply F3].
      destruct (F2 _ _ Hint) as (_ & -> & _).
      destruct (edgeY cityTiles (x t + 1) (y t)) as [v|] eqn:E; [|done]. exfalso.
      apply edgeY_Some in E as (E1 & E2).
      apply (isolated_contra cityTiles (x t) (y t) (index cd) v _ _ _ _ 0 (-1)
               Ho Hn E2 E1); lia.
    + (* (0, 1) *)
      rewrite (cellAt_ext g _ _ (2 * (x t + 1) - 1) (2 * (y t + 1))) by lia.
      destruct (decide (interior gridWidth gridHeight (x t + 1) (y t + 1)))
        as [Hint|Hint]; [|by apply F3].
      destruct (F2 _ _ Hint) as (_ & -> & _).
      destruct (edgeY cityTiles (x t + 1) (y t + 1)) as [v|] eqn:E; [|done]. exfalso.
      apply edgeY_Some in E as (E1 & E2).
      apply (isolated_contra cityTiles (x t) (y t) (index cd) v _ _ _ _ 0 1
               Ho Hn E1 E2); lia.
    + (* (1, -1) *)
      rewrite (cellAt_ext g _ _ (2 * (x t + 1)) (2 * y t)) by lia.
      destruct (decide (interior gridWidth gridHeight (x t + 1) (y t))) as [Hint|Hint];
        [|by apply F3].
      destruct (F2 _ _ Hint) as (_ & _ & ->).
      destruct (corner cityTiles (x t + 1) (y t)) as [v|] eqn:E; [|done]. exfalso.
      apply corner_Some in E as (E1 & E2 & E3 & E4).
      apply (isolated_contra cityTiles (x t) (y t) (index cd) v _ _ _ _ 0 (-1)
               Ho Hn E3 E1); lia.
    + (* (1, 0) *)
      rewrite (cellAt_ext g _ _ (2 * (x t + 1)) (2 * (y t + 1) - 1)) by lia.
      destruct (decide (interior gridWidth gridHeight (x t + 1) (y t + 1)))
        as [Hint|Hint]; [|by apply F3].
      destruct (F2 _ _ Hint) as (-> & _ & _).
      destruct (edgeX cityTiles (x t + 1) (y t + 1)) as [v|] eqn:E; [|done]. exfalso.
      apply edgeX_Some in E as (E1 & E2).
      apply (isolated_contra cityTiles (x t) (y t) (index cd) v _ _ _ _ 1 0
               Ho Hn E1 E2); lia.
    + (* (1, 1) *)
      rewrite (cellAt_ext g _ _ (2 * (x t + 1)) (2 * (y t + 1))) by lia.
      destruct (decide (interior gridWidth gridHeight (x t + 1) (y t + 1)))
        as [Hint|Hint]; [|by apply F3].
      destruct (F2 _ _ Hint) as (_ & _ & ->).
      destruct (corner cityTiles (x t + 1) (y t + 1)) as [v|] eqn:E; [|done]. exfalso.
      apply corner_Some in E as (E1 & E2 & E3 & E4).
      apply (isolated_contra cityTiles (x t) (y t) (index cd) v _ _ _ _ 1 0
               Ho Hn E1 E2); lia.
  - intros idx i j Hi0 Hi Hj0 Hj H00 H10 H01 H11.
    rewrite (Hown _ _ i j) in H00 by lia.
    rewrite (Hown _ _ (i + 1) j) in H10 by lia.
    rewrite (Hown _ _ i (j + 1)) in H01 by lia.
    rewrite (Hown _ _ (i + 1) (j + 1)) in H11 by lia.
    assert (interior gridWidth gridHeight (i + 1) (j + 1)) as I11 by (unfold interior; lia).
    assert (interior gridWidth gridHeight (i + 2) (j + 1)) as I21 by (unfold interior; lia).
    assert (interior gridWidth gridHeight (i + 1) (j + 2)) as I12 by (unfold interior; lia).
    destruct (F2 _ _ I11) as (A11 & B11 & C11).
    destruct (F2 _ _ I21) as (_ & B21 & _).
    destruct (F2 _ _ I12) as (A12 & _ & _).
    split_and!.
    + rewrite (cellAt_ext g _ _ (2 * (i + 1)) (2 * (j + 1))) by lia.
      rewrite C11. apply corner_Some.
      split_and!; [rewrite <- H00|rewrite <- H10|rewrite <- H01|rewrite <- H11];
        f_equal; lia.
    + rewrite (cellAt_ext g _ _ (2 * (i + 1)) (2 * (j + 1) - 1)) by lia.
      rewrite A11. apply edgeX_Some.
      split; [rewrite <- H00|rewrite <- H10]; f_equal; lia.
    + rewrite (cellAt_ext g _ _ (2 * (i + 1) - 1) (2 * (j + 1))) by lia.
      rewrite B11. apply edgeY_Some.
      split; [rewrite <- H00|rewrite <- H01]; f_equal; lia.
    + rewrite (cellAt_ext g _ _ (2 * (i + 2) - 1) (2 * (j + 1))) by lia.
      rewrite B21. apply edgeY_Some.
      split; [rewrite <- H10|rewrite <- H11]; f_equal; lia.
    + rewrite (cellAt_ext g _ _ (2 * (i + 1)) (2 * (j + 2) - 1)) by lia.
      rewrite A12. apply edgeX_Some.
      split; [rewrite <- H01|rewrite <- H11]; f_equal; lia.
  - vm_compute. reflexivity.
  - vm_compute. reflexivity.
Qed.

Lemma render_transform_witness :
  ∃ g, renderGrid 4 4 Examples.block = Some g
       ∧ cellAt g 3 3 = Some 7%nat
       ∧ cellAt g 4 4 = Some 7%nat.
Proof.
  destruct (render_transform 4 4 Examples.block)
    as (g & Hg & _ & Htiles & _ & _ & _ & _ & Hblock & _).
  - repeat constructor.
  - intros cd cd' t Hcd Hcd' _ _. unfold Examples.block in *.
    apply list_elem_of_singleton in Hcd, Hcd'. by subst.
  - assert (∀ t, t ∈ [ {| x := 1; y := 1 |}; {| x := 2; y := 1 |};
                       {| x := 1; y := 2 |}; {| x := 2; y := 2 |} ] →
                 cellAt g (2 * x t + 1) (2 * y t + 1) = Some 7%nat) as Hcell.
    { intros t Ht.
      exact (Htiles Examples.blockRecord t (list_elem_of_here _ _) Ht). }
    exists g. split; [exact Hg|]. split.
    + apply (Hcell {| x := 1; y := 1 |}). apply list_elem_of_here.
    + refine (proj1 (Hblock 7%nat 1 1 _ _ _ _ _ _ _ _)); try lia.
      * apply (Hcell {| x := 1; y := 1 |}). set_solver.
      * apply (Hcell {| x := 2; y := 1 |}). set_solver.
      * apply (Hcell {| x := 1; y := 2 |}). set_solver.
      * apply (Hcell {| x := 2; y := 2 |}). set_solver.
Defined.

End Render.

(** * Further properties of the generator *)
Module GeneratorExtra.
Import PopMapGenerator Scan GeneratorProps ExtraSpec.

(** ** Packed coordinates *)

(** X1 (packing is injective on the grid).
    Packing then unpacking a grid-valid cell gives the cell back, so two
    grid-valid cells with the same packed coordinate are the same cell.
    Outside the grid the packing collides: the cell one row up and the cell
    [gridWidth] columns to the right have the same packed coordinate. *)
Theorem pack_unpack_valid (gridWidth gridHeight a b a' b' : Z) :
  isValidCell gridWidth gridHeight a b = true →
  isValidCell gridWidth gridHeight a' b' = true →
  unpackCoordinate gridWidth (packCoordinate gridWidth a b) = {| x := a; y := b |}
  ∧ (packCoordinate gridWidth a b = packCoordinate gridWidth a' b' →
     a = a' ∧ b = b')
  ∧ packCoordinate gridWidth (a + gridWidth) b = packCoordinate gridWidth a (b + 1).
Proof.
  intros Hv Hv'. split_and!.
  - by eapply unpack_pack.
  - by eapply pack_inj.
  - unfold packCoordinate. lia.
Qed.

Lemma packCell_unpack (gridWidth packed : Z) :
  0 < gridWidth → 0 ≤ packed →
  packCell gridWidth (unpackCoordinate gridWidth packed) = packed.
Proof.
  intros Hw Hp. unfold packCell, unpackCoordinate, packCoordinate. cbn [x y].
  rewrite Z.rem_mod_nonneg by lia.
  pose proof (Z.div_mod packed gridWidth ltac:(lia)) as Hdm. lia.
Qed.

Lemma unpack_valid_iff (gridWidth gridHeight packed : Z) :
  0 < gridWidth → 0 ≤ packed →
  isValidCell gridWidth gridHeight
    (x (unpackCoordinate gridWidth packed))
    (y (unpackCoordinate gridWidth packed)) = true
  ↔ packed < gridWidth * gridHeight.
Proof.
  intros Hw Hp. unfold unpackCoordinate. cbn [x y].
  rewrite Z.rem_mod_nonneg by lia.
  pose proof (Z.div_mod packed gridWidth ltac:(lia)) as Hdm.
  pose proof (Z.mod_pos_bound packed gridWidth Hw) as Hm.
  pose proof (Z.div_pos packed gridWidth Hp Hw) as Hd.
  rewrite isValidCell_spec. split.
  - intros [_ [_ Hy]]. nia.
  - intros Hlt. split; [lia|]. split; [done|].
    apply Z.div_lt_upper_bound; lia.
Qed.

(** X2 (unpacking a packed coordinate).
    Unpacking then packing a non-negative packed coordinate gives it back,
    and the unpacked cell is grid-valid exactly when the packed coordinate is
    below [gridWidth * gridHeight]. *)
Theorem unpack_pack_nonneg (gridWidth gridHeight packed : Z) :
  0 < gridWidth → 0 ≤ packed →
  packCell gridWidth (unpackCoordinate gridWidth packed) = packed
  ∧ (isValidCell gridWidth gridHeight
       (x (unpackCoordinate gridWidth packed))
       (y (unpackCoordinate gridWidth packed)) = true
     ↔ packed < gridWidth * gridHeight).
Proof.
  intros Hw Hp. split.
  - by apply packCell_unpack.
  - by apply unpack_valid_iff.
Qed.

(** ** The occupancy set and the capacity of the grid *)

Lemma packed_tiles_NoDup gridWidth gridHeight (l : list Coordinate) :
  NoDup l →
  Forall (λ t, isValidCell gridWidth gridHeight (x t) (y t) = true) l →
  NoDup (packCell gridWidth <$> l).
Proof.
  intros Hnd Hv. apply NoDup_fmap_2_strong; [|done].
  intros t t' Ht Ht' Heq. rewrite Forall_forall in Hv.
  destruct t as [a b], t' as [a' b']. unfold packCell in Heq. cbn in Heq.
  destruct (pack_inj gridWidth gridHeight a b a' b' (Hv _ Ht) (Hv _ Ht') Heq)
    as [-> ->]. done.
Qed.

Lemma allTiles_NoDup gridWidth gridHeight cities :
  NoDup (allTiles (generate gridWidth gridHeight cities)).
Proof.
  unfold allTiles.
  assert (∀ i j ci cj t, (i < j)%nat →
            generate gridWidth gridHeight cities !! i = Some ci →
            generate gridWidth gridHeight cities !! j = Some cj →
            t ∈ tiles ci → t ∈ tiles cj → False) as Hdisj
    by apply generate_disjoint.
  assert (Forall (λ ct, NoDup (tiles ct)) (generate gridWidth gridHeight cities))
    as Heach.
  { apply Forall_lookup. intros i ct Hct.
    destruct (generate_lookup_inv _ _ _ _ _ Hct) as [c Hc].
    by destruct (generate_open _ _ _ _ _ _ Hc Hct). }
  revert Hdisj Heach. generalize (generate gridWidth gridHeight cities) as out.
  induction out as [|ct out IH]; intros Hdisj Heach; [apply NoDup_nil_2|].
  rewrite bind_cons. apply NoDup_app. split_and!.
  - by inversion Heach.
  - intros t Ht (ct' & Ht' & Hct')%list_elem_of_bind.
    apply list_elem_of_lookup in Hct' as [j Hj].
    apply (Hdisj 0%nat (S j) ct ct' t); [lia|done..].
  - apply IH; [|by inversion Heach].
    intros i j ci cj t Hij Hi Hj. apply (Hdisj (S i) (S j)); [lia|done..].
Qed.

Lemma allTiles_valid gridWidth gridHeight cities :
  Forall (λ t, isValidCell gridWidth gridHeight (x t) (y t) = true)
         (allTiles (generate gridWidth gridHeight cities)).
Proof.
  unfold allTiles. apply Forall_bind.
  apply (generate_valid gridWidth gridHeight cities).
Qed.

(** X3 (the occupancy set).
    After [generate()], [takenCells] holds exactly the tiles of the records:
    a grid-valid cell is in the set if and only if it is a tile of some
    record, and the set has as many elements as there are tiles. *)
Theorem occupancy_exact (gridWidth gridHeight : Z) (cities : list GridCity) :
  let st := placeTiles gridWidth gridHeight cities initial in
  size (takenCells st) = length (allTiles (cityTiles st))
  ∧ ∀ a b, isValidCell gridWidth gridHeight a b = true →
           (has (takenCells st) (packCoordinate gridWidth a b) = true
            ↔ ∃ ct, ct ∈ cityTiles st ∧ {| x := a; y := b |} ∈ tiles ct).
Proof.
  cbn zeta. rewrite placeTiles_taken.
  change (cityTiles (placeTiles gridWidth gridHeight cities initial))
    with (generate gridWidth gridHeight cities).
  split.
  - unfold claimed. rewrite size_list_to_set, length_fmap; [done|].
    apply (packed_tiles_NoDup gridWidth gridHeight);
      [apply allTiles_NoDup|apply allTiles_valid].
  - intros a b Hv. rewrite has_spec. split.
    + by apply claimed_valid_cell.
    + intros (ct & Hct & Ht). apply elem_of_claimed.
      by exists ct, {| x := a; y := b |}.
Qed.

Lemma packed_in_range gridWidth gridHeight t :
  isValidCell gridWidth gridHeight (x t) (y t) = true →
  packCell gridWidth t ∈ seqZ 0 (gridWidth * gridHeight).
Proof.
  rewrite isValidCell_spec. intros [Hx Hy]. apply elem_of_seqZ.
  unfold packCell, packCoordinate. nia.
Qed.

Lemma packed_tiles_submseteq gridWidth gridHeight cities :
  packCell gridWidth <$> allTiles (generate gridWidth gridHeight cities)
  ⊆+ seqZ 0 (gridWidth * gridHeight).
Proof.
  pose proof (allTiles_NoDup gridWidth gridHeight cities) as Hnd.
  pose proof (allTiles_valid gridWidth gridHeight cities) as Hv.
  pose proof (packed_tiles_NoDup gridWidth gridHeight _ Hnd Hv) as Hpk.
  apply NoDup_submseteq; [done|].
  intros p (t & -> & Ht)%list_elem_of_fmap.
  rewrite Forall_forall in Hv. by apply packed_in_range, Hv.
Qed.

(** X4 (capacity).
    The records never hold more tiles than the grid has cells. *)
Theorem capacity_bound (gridWidth gridHeight : Z) (cities : list GridCity) :
  Z.of_nat (length (allTiles (generate gridWidth gridHeight cities)))
  ≤ Z.max 0 (gridWidth * gridHeight).
Proof.
  pose proof (packed_tiles_submseteq gridWidth gridHeight cities) as Hsub.
  apply submseteq_length in Hsub.
  rewrite length_fmap, length_seqZ in Hsub. lia.
Qed.

(** X5 (a shortfall means a full grid).
    When a location whose centre is grid-valid ends below its quota, the
    grid is full: the records hold exactly [gridWidth * gridHeight] tiles. *)
Theorem shortfall_means_full_grid (gridWidth gridHeight : Z)
    (cities : list GridCity) (i : nat) (c : GridCity) (ct : CityTiles) :
  cities !! i = Some c →
  generate gridWidth gridHeight cities !! i = Some ct →
  isValidCell gridWidth gridHeight (centerX c) (centerY c) = true →
  Z.of_nat (length (tiles ct)) < numTiles c →
  Z.of_nat (length (allTiles (generate gridWidth gridHeight cities)))
  = gridWidth * gridHeight.
Proof.
  intros Hc Hct Hcv Hlt.
  pose proof (packed_tiles_submseteq gridWidth gridHeight cities) as Hcap.
  apply submseteq_length in Hcap.
  rewrite length_fmap, length_seqZ in Hcap.
  pose proof Hcv as Hpos. apply isValidCell_spec in Hpos.
  assert (seqZ 0 (gridWidth * gridHeight)
          ⊆+ packCell gridWidth <$> allTiles (generate gridWidth gridHeight cities))
    as Hsub.
  { apply NoDup_submseteq; [apply NoDup_seqZ|].
    intros p Hp%elem_of_seqZ.
    pose proof (packCell_unpack gridWidth p ltac:(lia) ltac:(lia)) as Hrt.
    pose proof (proj2 (unpack_valid_iff gridWidth gridHeight p
                         ltac:(lia) ltac:(lia)) ltac:(lia)) as Hvalid.
    pose proof (generate_saturated gridWidth gridHeight cities i c ct Hc Hct Hlt
                  _ _ Hvalid) as Hin.
    unfold packCell in Hrt. rewrite Hrt in Hin.
    unfold claimed in Hin. apply elem_of_list_to_set in Hin; [done|].
    by apply (chebyshev_valid gridWidth gridHeight). }
  apply submseteq_length in Hsub.
  rewrite length_fmap, length_seqZ in Hsub.
  assert (0 < gridWidth * gridHeight) by nia. lia.
Qed.

(** ** The searches *)

Lemma openCells_S gridWidth gridHeight taken tx ty r0 (n : nat) :
  openCells gridWidth gridHeight taken tx ty r0 (Z.of_nat (S n))
  = filter (isOpen gridWidth gridHeight taken) (at_offset tx ty <$> perimeter r0)
    ++ openCells gridWidth gridHeight taken tx ty (r0 + 1) (Z.of_nat n).
Proof.
  unfold openCells, rings. by rewrite seqZ_S, bind_cons, fmap_app, filter_app.
Qed.

Lemma openCells_head_nearest gridWidth gridHeight taken tx ty (n : nat) r0 c :
  0 ≤ r0 →
  head (openCells gridWidth gridHeight taken tx ty r0 (Z.of_nat n)) = Some c →
  r0 ≤ chebyshev tx ty c < r0 + Z.of_nat n
  ∧ ∀ o, isOpen gridWidth gridHeight taken o → r0 ≤ chebyshev tx ty o →
         chebyshev tx ty c ≤ chebyshev tx ty o.
Proof.
  revert r0. induction n as [|n IH]; intros r0 Hr0 Hhead.
  { unfold openCells, rings in Hhead. by rewrite seqZ_nil in Hhead. }
  rewrite openCells_S, head_app_list in Hhead.
  destruct (head (filter _ (at_offset tx ty <$> perimeter r0))) as [c'|] eqn:E.
  - injection Hhead as ->.
    apply head_Some_elem_of, list_elem_of_filter in E as [_ E].
    apply list_elem_of_fmap in E as ([dx dy] & -> & Hd).
    apply elem_of_perimeter in Hd. unfold chebyshev, at_offset. cbn [x y fst snd].
    replace (tx + dx - tx) with dx by lia. replace (ty + dy - ty) with dy by lia.
    split; [lia|]. intros o _ Ho. unfold chebyshev in Ho. lia.
  - destruct (IH (r0 + 1) ltac:(lia) Hhead) as [Hc Hmin].
    split; [lia|]. intros o Ho Hro.
    destruct (decide (chebyshev tx ty o = r0)) as [Heq|Hne].
    + exfalso. apply head_None in E.
      assert (o ∈ filter (isOpen gridWidth gridHeight taken)
                    (at_offset tx ty <$> perimeter r0)) as Hin.
      { apply list_elem_of_filter. split; [done|].
        apply list_elem_of_fmap. exists (x o - tx, y o - ty). split.
        - destruct o as [a b]. unfold at_offset. cbn. f_equal; lia.
        - apply elem_of_perimeter. unfold chebyshev in Heq. lia. }
      rewrite E in Hin. by apply elem_of_nil in Hin.
    + apply Hmin; [done|lia].
Qed.

(** X6 (nearest open cell).
    [findNearestOpenCell] deserves its name for the Chebyshev distance: the
    cell it returns is grid-valid and unclaimed, lies less than
    [max(gridWidth, gridHeight)] rings away from the target, and no
    grid-valid, unclaimed cell is on a closer ring. *)
Theorem nearest_open_cell (gridWidth gridHeight : Z) (taken : gset Z)
    (targetX targetY : Z) (c : Coordinate) :
  findNearestOpenCell gridWidth gridHeight taken targetX targetY = Some c →
  isOpen gridWidth gridHeight taken c
  ∧ chebyshev targetX targetY c < Z.max 1 (Z.max gridWidth gridHeight)
  ∧ ∀ o, isOpen gridWidth gridHeight taken o →
         chebyshev targetX targetY c ≤ chebyshev targetX targetY o.
Proof.
  intros Hc. split; [by eapply findNearestOpenCell_Some|].
  rewrite findNearestOpenCell_startCell in Hc. unfold startCell in Hc.
  destruct (decide _) as [Ho|Ho].
  - injection Hc as <-. unfold chebyshev. cbn [x y].
    rewrite !Z.sub_diag. cbn. split; [lia|]. intros o _. lia.
  - unfold openCells, rings in Hc. rewrite seqZ_to_nat in Hc.
    fold (rings 1 (Z.of_nat (Z.to_nat (Z.max gridWidth gridHeight - 1)))) in Hc.
    fold (openCells gridWidth gridHeight taken targetX targetY 1
            (Z.of_nat (Z.to_nat (Z.max gridWidth gridHeight - 1)))) in Hc.
    destruct (openCells_head_nearest gridWidth gridHeight taken targetX targetY
                (Z.to_nat (Z.max gridWidth gridHeight - 1)) 1 c ltac:(lia) Hc)
      as [Hr Hmin].
    split; [lia|]. intros o Hopen.
    destruct (decide (1 ≤ chebyshev targetX targetY o)) as [H1|H1];
      [by apply Hmin|].
    exfalso. apply Ho. destruct o as [a b]. unfold chebyshev in H1. cbn in H1.
    replace targetX with a by lia. replace targetY with b by lia. done.
Qed.

Lemma foldl_best_first (first : CandidateTile) rest :
  let best := foldl (λ best c,
                if distanceToCenter c <? distanceToCenter best then c else best)
                first rest in
  ∃ l1 l2, first :: rest = l1 ++ best :: l2
           ∧ Forall (λ c, distanceToCenter best < distanceToCenter c) l1
           ∧ Forall (λ c, distanceToCenter best ≤ distanceToCenter c) l2.
Proof.
  cbn zeta. induction rest as [|a rest IH] using rev_ind.
  { exists [], []. cbn. split_and!; constructor. }
  rewrite foldl_app. cbn [foldl].
  destruct IH as (l1 & l2 & Heq & H1 & H2).
  destruct (Z.ltb_spec (distanceToCenter a)
              (distanceToCenter (foldl (λ best c,
                 if distanceToCenter c <? distanceToCenter best then c else best)
                 first rest))) as [Hlt|Hge].
  - exists (first :: rest), []. split; [done|]. split; [|constructor].
    rewrite Heq. apply Forall_app. split; [|apply Forall_cons; split].
    + eapply Forall_impl; [exact H1|]. cbn. lia.
    + lia.
    + eapply Forall_impl; [exact H2|]. cbn. lia.
  - exists l1, (l2 ++ [a]). split_and!.
    + rewrite app_comm_cons, Heq, <- app_assoc. done.
    + done.
    + apply Forall_app. split; [done|]. apply Forall_singleton. lia.
Qed.

(** X7 (ties go to the first candidate).
    Ties between candidates of equal distance go to the candidate met first:
    the cell [findBestNextCell] picks from a non-empty frontier is the first
    cell, in the insertion order of [adjacentCells], whose distance to the
    centre is minimal. *)
Theorem tie_break_first (gridWidth gridHeight : Z) (taken : gset Z)
    (centerX centerY : Z) (existingTiles : list Coordinate) :
  collectAdjacent gridWidth gridHeight taken existingTiles ≠ [] →
  ∃ best l1 l2,
    findBestNextCell gridWidth gridHeight taken centerX centerY existingTiles
    = Some best
    ∧ unpackCoordinate gridWidth <$>
        collectAdjacent gridWidth gridHeight taken existingTiles
      = l1 ++ best :: l2
    ∧ Forall (λ c, distance2 centerX centerY (x best) (y best)
                   < distance2 centerX centerY (x c) (y c)) l1
    ∧ Forall (λ c, distance2 centerX centerY (x best) (y best)
                   ≤ distance2 centerX centerY (x c) (y c)) l2.
Proof.
  intros Hne. rewrite findBestNextCell_spec, decide_False by done.
  destruct (unpackCoordinate gridWidth <$> collectAdjacent _ _ _ _)
    as [|c0 cs] eqn:E.
  { apply fmap_nil_inv in E. done. }
  cbn [fmap list_fmap pickBest].
  destruct (foldl_best_first (candidate centerX centerY c0)
              (candidate centerX centerY <$> cs)) as (l1 & l2 & Heq & H1 & H2).
  cbn zeta in *. rewrite eta_cell.
  set (best := foldl _ _ _) in *.
  change (candidate centerX centerY c0 :: (candidate centerX centerY <$> cs))
    with (candidate centerX centerY <$> c0 :: cs) in Heq.
  apply fmap_app_inv in Heq as (k1 & k2' & -> & Heq2 & Hsplit).
  symmetry in Heq2.
  apply fmap_cons_inv in Heq2 as (b & k2 & Hb & -> & ->).
  exists (cell best), k1, k2. rewrite Hb. cbn [cell candidate]. split_and!.
  - done.
  - done.
  - rewrite Forall_fmap in H1. eapply Forall_impl; [exact H1|].
    intros c. rewrite Hb. cbn. done.
  - rewrite Forall_fmap in H2. eapply Forall_impl; [exact H2|].
    intros c. rewrite Hb. cbn. done.
Qed.

(** ** The constructor *)

(** X8 (sorting a sorted list).
    Sorting leaves a list that is already in ascending quota order
    unchanged; in particular sorting twice is sorting once. *)
Theorem sort_sorted (cities : list GridCity) :
  StronglySorted (λ a b, numTiles a ≤ numTiles b) cities →
  sortCities cities = cities.
Proof.
  induction 1 as [|a l Hs IH Ha]; [done|].
  cbn [sortCities foldr]. fold (sortCities l). rewrite IH.
  destruct l as [|b l']; [done|]. cbn [insertCity].
  inversion Ha as [|? ? Hab _]; subst.
  unfold compareCities. destruct (Z.leb_spec (numTiles a - numTiles b) 0); [done|lia].
Qed.

(** X9 (the quota is monotone).
    The quota grows with the population, is 0 for an empty city and the
    whole budget of 1024 tiles for a city holding the whole population. *)
Theorem quota_monotone (totalPopulation p p' : Z) :
  0 < totalPopulation → p ≤ p' →
  tileQuota totalPopulation p ≤ tileQuota totalPopulation p'
  ∧ tileQuota totalPopulation 0 = 0
  ∧ tileQuota totalPopulation totalPopulation = NUM_TILES.
Proof.
  intros Ht Hp. rewrite !Generator.tileQuota_closed_form by done. split_and!.
  - apply Z.div_le_mono; lia.
  - apply Z.div_small. lia.
  - unfold NUM_TILES. symmetry. apply Z.div_unique with (r := totalPopulation); lia.
Qed.

Lemma sumPopulation_foldr cities acc :
  foldl (λ total c, total + population c) acc cities
  = acc + foldr (λ c s, population c + s) 0 cities.
Proof.
  revert acc. induction cities as [|c cities IH]; intros acc; cbn [foldl foldr].
  - lia.
  - rewrite IH. lia.
Qed.

Lemma sumQuota_bound total cities :
  0 < total →
  let n := Z.of_nat (length cities) in
  let P := foldr (λ c s, population c + s) 0 cities in
  - n * total ≤ 2 * total * sumQuota total cities - 2048 * P ≤ n * total.
Proof.
  intros Ht. cbn zeta. induction cities as [|c cities IH].
  - cbn. lia.
  - cbn [sumQuota foldr length]. fold (sumQuota total cities).
    rewrite Generator.tileQuota_closed_form by done.
    pose proof (Z.div_mod (2048 * population c + total) (2 * total) ltac:(lia)) as Hdm.
    pose proof (Z.mod_pos_bound (2048 * population c + total) (2 * total) ltac:(lia)) as Hm.
    nia.
Qed.

Lemma sumQuota_fmap total (cities : list City) :
  foldr Z.add 0 ((λ c, tileQuota total (population c)) <$> cities)
  = sumQuota total cities.
Proof.
  unfold sumQuota. induction cities as [|c cities IH]; [done|].
  cbn [fmap list_fmap foldr]. f_equal. exact IH.
Qed.

(** X10 (the quotas add up to the budget).
    For non-negative populations whose total is positive and at most
    [2 ^ 42], the quotas that the constructor computes in binary64 add up to
    the budget of 1024 tiles up to rounding: their sum differs from 1024 by
    at most half the number of cities. *)
Theorem quota_sum (cities : list City) :
  Forall (λ c, 0 ≤ population c) cities →
  0 < sumPopulation cities ≤ 2 ^ 42 →
  ∃ quotas,
    mapM (PopMapGenerator64.quota64 cities) cities = Some quotas
    ∧ 2 * Z.abs (foldr Z.add 0 quotas - NUM_TILES) ≤ Z.of_nat (length cities).
Proof.
  intros Hnn Htotal.
  exists ((λ c, tileQuota (sumPopulation cities) (population c)) <$> cities).
  split.
  - apply mapM_Some. apply Forall2_fmap_r, Forall_Forall2_diag.
    apply Forall_forall. intros c Hc.
    rewrite (Quota64Props.quota64_closed_form cities c Hnn Htotal Hc).
    f_equal. symmetry. apply Generator.tileQuota_closed_form. lia.
  - assert (foldr Z.add 0
              ((λ c, tileQuota (sumPopulation cities) (population c)) <$> cities)
            = sumQuota (sumPopulation cities) cities) as ->.
    { apply sumQuota_fmap. }
    pose proof (sumQuota_bound (sumPopulation cities) cities ltac:(lia)) as Hb.
    cbn zeta in Hb.
    assert (foldr (λ c s, population c + s) 0 cities = sumPopulation cities) as E.
    { unfold sumPopulation. rewrite sumPopulation_foldr. lia. }
    rewrite E in Hb. unfold NUM_TILES. nia.
Qed.

(** X11 (colours).
    The colour of a record is the palette entry at its index modulo 10, so
    it is always one of the ten palette colours. *)
Theorem record_colors (gridWidth gridHeight : Z) (cities : list GridCity) :
  Forall (λ ct, color ct = getColor (index ct)
                ∧ color ct ∈ COLOR_PALETTE
                ∧ getColor (index ct + 10) = color ct)
         (generate gridWidth gridHeight cities).
Proof.
  apply Forall_lookup. intros i ct Hct.
  destruct (generate_lookup_inv _ _ _ _ _ Hct) as [c Hc].
  rewrite (generate_lookup _ _ _ _ _ Hc) in Hct. injection Hct as <-.
  cbn [color index record]. split_and!.
  - done.
  - unfold getColor. apply list_elem_of_In, nth_In.
    apply Nat.mod_upper_bound. done.
  - unfold getColor. cbn [length COLOR_PALETTE].
    replace (i + 10)%nat with (i + 1 * 10)%nat by lia.
    by rewrite Nat.Div0.mod_add.
Qed.

Lemma generate_names gridWidth gridHeight gcs :
  cityName <$> generate gridWidth gridHeight gcs = (λ c, name (city c)) <$> gcs.
Proof.
  apply list_eq. intros i. rewrite !list_lookup_fmap.
  destruct (gcs !! i) as [c|] eqn:E.
  - by rewrite (generate_lookup _ _ _ _ _ E).
  - cbn. replace (generate gridWidth gridHeight gcs !! i) with (@None CityTiles); [done|].
    symmetry. apply lookup_ge_None. rewrite generate_length. by apply lookup_ge_None.
Qed.

Lemma convert_cities gridWidth gridHeight total cities conv :
  convertCitiesToGridCoordinates gridWidth gridHeight total cities = Some conv →
  city <$> conv = cities.
Proof.
  unfold convertCitiesToGridCoordinates.
  destruct cities as [|c0 cities']; [by intros [= <-]|].
  destruct (_ || _); [done|]. intros E. apply (inj Some) in E. rewrite <- E.
  rewrite <- list_fmap_compose. apply list_fmap_id.
Qed.

(** X12 (one record per city).
    A run returns one record per input city, and the names of the records
    are the names of the input cities, reordered: no city is dropped or
    duplicated. *)
Theorem run_records (gridWidth gridHeight : Z) (cities : list City)
    (out : list CityTiles) :
  run gridWidth gridHeight cities = Some out →
  length out = length cities ∧ cityName <$> out ≡ₚ name <$> cities.
Proof.
  unfold run, construct.
  destruct (convertCitiesToGridCoordinates _ _ _ _) as [conv|] eqn:E; [|done].
  intros [= <-]. apply convert_cities in E.
  split.
  - rewrite generate_length, (Permutation_length (sortCities_perm conv)).
    by rewrite <- E, length_fmap.
  - rewrite generate_names, sortCities_perm, <- E, <- list_fmap_compose. done.
Qed.

(** ** A second call of [generate()] *)

Lemma placeFrom_invariant gridWidth gridHeight k l st :
  takenCells st = claimed gridWidth (cityTiles st) →
  NoDup (allTiles (cityTiles st)) →
  ∃ recs,
    cityTiles (placeFrom gridWidth gridHeight k l st) = cityTiles st ++ recs
    ∧ index <$> recs = seq k (length l)
    ∧ takenCells (placeFrom gridWidth gridHeight k l st)
      = claimed gridWidth (cityTiles st ++ recs)
    ∧ NoDup (allTiles (cityTiles st ++ recs)).
Proof.
  revert k st. induction l as [|c l IH]; intros k st Htaken Hnd.
  { exists []. rewrite app_nil_r. by split_and!. }
  cbn [placeFrom].
  destruct (placeCity_spec gridWidth gridHeight (takenCells st) c)
    as (ts & -> & _ & _ & Hopen & Hts & _).
  set (st' := {| takenCells := _; cityTiles := _ |}).
  destruct (IH (S k) st') as (recs & Hrecs & Hidx & Htaken' & Hnd').
  - subst st'. cbn [takenCells cityTiles]. rewrite claimed_snoc. cbn [tiles].
    by rewrite Htaken.
  - subst st'. cbn [takenCells cityTiles]. unfold allTiles in *.
    rewrite bind_app, bind_singleton. cbn [tiles].
    apply NoDup_app. split_and!; [done| |done].
    intros t Ht Hin. rewrite Forall_forall in Hopen.
    destruct (Hopen _ Hin) as [_ Hn]. apply Hn. rewrite Htaken.
    unfold claimed, allTiles. apply elem_of_list_to_set, list_elem_of_fmap.
    by exists t.
  - subst st'. cbn [cityTiles] in *.
    eexists (_ :: recs). rewrite Hrecs, <- !app_assoc. cbn [app].
    split_and!; [done| |by rewrite Htaken', <- app_assoc|by rewrite <- app_assoc in Hnd'].
    cbn [fmap list_fmap index length seq]. f_equal. exact Hidx.
Qed.

(** X13 (a second call of generate).
    [generate()] does not reset the generator: a second call on the same
    object keeps the records of the first, appends one more record per city
    with the indices starting again at 0, and still claims no cell twice,
    across both batches. *)
Theorem generate_twice (gridWidth gridHeight : Z) (cities : list GridCity) :
  let first := placeTiles gridWidth gridHeight cities initial in
  let second := placeTiles gridWidth gridHeight cities first in
  ∃ recs,
    cityTiles second = generate gridWidth gridHeight cities ++ recs
    ∧ index <$> recs = seq 0 (length cities)
    ∧ NoDup (allTiles (cityTiles second))
    ∧ takenCells second = claimed gridWidth (cityTiles second).
Proof.
  cbn zeta.
  destruct (placeFrom_invariant gridWidth gridHeight 0 cities
              (placeTiles gridWidth gridHeight cities initial))
    as (recs & Hrecs & Hidx & Htaken & Hnd).
  - apply placeTiles_taken.
  - apply allTiles_NoDup.
  - exists recs.
    change (placeTiles gridWidth gridHeight cities
              (placeTiles gridWidth gridHeight cities initial))
      with (placeFrom gridWidth gridHeight 0 cities
              (placeTiles gridWidth gridHeight cities initial)).
    rewrite Htaken, Hrecs. by split_and!.
Qed.

(** ** The centres computed by the constructor *)

Lemma foldl_Qmin_le (f : City → Q) l m :
  (foldl (λ m c, Qmin m (f c)) m l <= m)%Q
  ∧ ∀ c, c ∈ l → (foldl (λ m c, Qmin m (f c)) m l <= f c)%Q.
Proof.
  revert m. induction l as [|a l IH]; intros m; cbn [foldl].
  - split; [apply Qle_refl|]. intros c Hc. by apply elem_of_nil in Hc.
  - destruct (IH (Qmin m (f a))) as [H1 H2]. split.
    + eapply Qle_trans; [exact H1|]. apply Q.le_min_l.
    + intros c [->|Hc]%elem_of_cons; [|by apply H2].
      eapply Qle_trans; [exact H1|]. apply Q.le_min_r.
Qed.

Lemma foldl_Qmax_ge (f : City → Q) l m :
  (m <= foldl (λ m c, Qmax m (f c)) m l)%Q
  ∧ ∀ c, c ∈ l → (f c <= foldl (λ m c, Qmax m (f c)) m l)%Q.
Proof.
  revert m. induction l as [|a l IH]; intros m; cbn [foldl].
  - split; [apply Qle_refl|]. intros c Hc. by apply elem_of_nil in Hc.
  - destruct (IH (Qmax m (f a))) as [H1 H2]. split.
    + eapply Qle_trans; [|exact H1]. apply Q.le_max_l.
    + intros c [->|Hc]%elem_of_cons; [|by apply H2].
      eapply Qle_trans; [|exact H1]. apply Q.le_max_r.
Qed.







(** ** Drag and drop *)

Lemma foldl_Qmin_ind (P : Q → Prop) (f : City → Q) l m :
  (∀ q q', (q == q')%Q → P q → P q') →
  P m → Forall (λ c, P (f c)) l → P (foldl (λ m c, Qmin m (f c)) m l).
Proof.
  intros HP. revert m. induction l as [|a l IH]; intros m Hm Hl; [done|].
  inversion Hl as [|? ? Ha Hl']; subst. cbn [foldl]. apply IH; [|done].
  destruct (Q.min_spec m (f a)) as [[_ E]|[_ E]];
    (eapply HP; [symmetry; exact E|done]).
Qed.

Lemma foldl_Qmax_ind (P : Q → Prop) (f : City → Q) l m :
  (∀ q q', (q == q')%Q → P q → P q') →
  P m → Forall (λ c, P (f c)) l → P (foldl (λ m c, Qmax m (f c)) m l).
Proof.
  intros HP. revert m. induction l as [|a l IH]; intros m Hm Hl; [done|].
  inversion Hl as [|? ? Ha Hl']; subst. cbn [foldl]. apply IH; [|done].
  destruct (Q.max_spec m (f a)) as [[_ E]|[_ E]];
    (eapply HP; [symmetry; exact E|done]).
Qed.

Lemma dragAxis_bounds (m M : Q) (k e : Z) :
  Binary64.representable m → (m <= M)%Q →
  (Qabs m <= Binary64.pow2 1000)%Q → (Qabs M <= Binary64.pow2 1000)%Q →
  0 < e → 5 ≤ k ≤ e + 5 →
  ∃ v, PopMapDrag.dragAxis m M k e = Some v
       ∧ (m <= v)%Q
       ∧ (v <= Binary64.round (m + Binary64.round (M - m)))%Q.
Proof.
  intros Rm Hle Hm HM He Hk.
  apply Qabs_Qle_condition in Hm, HM.
  pose proof (Binary64Props.pow2_pos 1000) as HB.
  assert (Binary64.pow2 1001 == 2 * Binary64.pow2 1000)%Q as E1.
  { change 1001 with (1 + 1000). by rewrite Binary64Props.pow2_add. }
  assert (Binary64.pow2 1002 == 4 * Binary64.pow2 1000)%Q as E2.
  { change 1002 with (2 + 1000). by rewrite Binary64Props.pow2_add. }
  assert (Binary64.pow2 1002 <= Binary64.maxFinite)%Q as Hmax
    by (vm_compute; discriminate).
  assert (∀ n, 0 ≤ n → Binary64.representable (Binary64.pow2 n)) as Rpow.
  { intros n Hn. exists 1, n. split_and!; [|done|lia]. by rewrite Qmult_1_l. }
  assert (Binary64.representable 0) as R0.
  { exists 0, 0. split_and!; [|done|lia]. by rewrite Qmult_0_l. }
  assert (Binary64.representable 1) as R1.
  { exists 1, 0. split_and!; [done..|lia]. }
  assert (0 <= Binary64.maxFinite)%Q as Hmax0 by (vm_compute; discriminate).
  assert (1 <= Binary64.maxFinite)%Q as Hmax1 by (vm_compute; discriminate).
  set (B := Binary64.pow2 1000) in *.
  unfold PopMapDrag.dragAxis.
  destruct (Binary64Props.fl_bounds (M - m) 0 (Binary64.pow2 1001))
    as (r & -> & Er & Hr0 & Hr1); [lra|lra|done|by apply Rpow|lra|lra|].
  cbn [mbind option_bind].
  assert (0 < inject_Z e)%Q as Hepos by (by apply Quota64Props.inject_Z_pos).
  destruct (Binary64Props.fl_bounds (inject_Z (k - 5) / inject_Z e) 0 1)
    as (ρ & -> & _ & Hρ0 & Hρ1); [| |done|done|lra|lra|].
  { apply Qle_shift_div_l; [done|]. rewrite Qmult_0_l.
    change 0%Q with (inject_Z 0). rewrite <- Zle_Qle. lia. }
  { apply Qle_shift_div_r; [done|]. rewrite Qmult_1_l, <- Zle_Qle. lia. }
  cbn [mbind option_bind].
  assert (Binary64.representable r) as Rr.
  { eapply Binary64Props.representable_comp; [symmetry; exact Er|].
    apply Binary64Props.representable_round. }
  destruct (Binary64Props.fl_bounds (ρ * r) 0 r)
    as (σ & -> & _ & Hσ0 & Hσ1); [| |done|done|lra|lra|].
  { by apply Qmult_le_0_compat. }
  { rewrite <- (Qmult_1_l r) at 2. by apply Qmult_le_compat_r. }
  cbn [mbind option_bind].
  destruct (Binary64Props.fl_bounds (m + σ) m (Binary64.pow2 1002))
    as (v & -> & Ev & Hv0 & _); [lra|lra|done|by apply Rpow|lra|lra|].
  exists v. split_and!; [done|done|].
  rewrite Ev.
  apply Qle_trans with (Binary64.round (m + r)).
  - apply Binary64Props.round_mono. lra.
  - apply Qle_lteq. right. apply Binary64Props.round_comp. by rewrite Er.
Qed.

(** X16 (where a drag can take a city).
    On a grid more than 10 cells wide and high, and for cities whose
    longitudes and latitudes are binary64 numbers of magnitude at most
    [2 ^ 1000], a drag replaces only the dragged city and keeps its name and
    population; its new longitude is never below the smallest longitude of
    the cities, and never above the value that binary64 gives to
    [minLng + (maxLng - minLng)]; likewise for the latitude. *)
Theorem drag_range (gridWidth gridHeight : Z)
    (cities : list City) (i : nat) (cityGridX cityGridY : Z) (c : City) :
  10 < gridWidth → 10 < gridHeight → cities !! i = Some c →
  Forall (λ c', Binary64.representable (lng c')
                ∧ Binary64.representable (lat c')
                ∧ (Qabs (lng c') <= Binary64.pow2 1000)%Q
                ∧ (Qabs (lat c') <= Binary64.pow2 1000)%Q) cities →
  ∃ c', PopMapDrag.onDrag gridWidth gridHeight cities i cityGridX cityGridY
        = Some (<[i := c']> cities)
        ∧ name c' = name c ∧ population c' = population c
        ∧ (minOf lng cities <= lng c')%Q
        ∧ (lng c' <= Binary64.round
                       (minOf lng cities
                        + Binary64.round (maxOf lng cities - minOf lng cities)))%Q
        ∧ (minOf lat cities <= lat c')%Q
        ∧ (lat c' <= Binary64.round
                       (minOf lat cities
                        + Binary64.round (maxOf lat cities - minOf lat cities)))%Q.
Proof.
  intros Hw Hh Hc Hall. unfold PopMapDrag.onDrag. rewrite Hc.
  destruct cities as [|c0 cities'] eqn:Ecs; [done|]. rewrite <- Ecs in *.
  replace ((gridWidth - 2 * 5 =? 0) || (gridHeight - 2 * 5 =? 0)) with false
    by (symmetry; apply orb_false_iff; lia).
  cbn zeta.
  assert (minOf lng cities = foldl (λ m c, Qmin m (lng c)) (lng c0) cities) as Elng1
    by (by rewrite Ecs).
  assert (maxOf lng cities = foldl (λ m c, Qmax m (lng c)) (lng c0) cities) as Elng2
    by (by rewrite Ecs).
  assert (minOf lat cities = foldl (λ m c, Qmin m (lat c)) (lat c0) cities) as Elat1
    by (by rewrite Ecs).
  assert (maxOf lat cities = foldl (λ m c, Qmax m (lat c)) (lat c0) cities) as Elat2
    by (by rewrite Ecs).
  rewrite <- Elng1, <- Elng2, <- Elat1, <- Elat2.
  assert (c0 ∈ cities) as Hc0 by (rewrite Ecs; apply list_elem_of_here).
  assert (∀ f : City → Q,
            Forall (λ c', Binary64.representable (f c')
                          ∧ (Qabs (f c') <= Binary64.pow2 1000)%Q) cities →
            ∀ k g, 10 < g → k = Z.max 5 (Z.min (g - 5) k) →
            ∃ v, PopMapDrag.dragAxis (minOf f cities) (maxOf f cities) k (g - 2 * 5)
                 = Some v
                 ∧ (minOf f cities <= v)%Q
                 ∧ (v <= Binary64.round
                           (minOf f cities
                            + Binary64.round (maxOf f cities - minOf f cities)))%Q)
    as Haxis.
  { intros f Hf k g Hg Hk.
    assert (∀ q q', (q == q')%Q →
              Binary64.representable q ∧ (Qabs q <= Binary64.pow2 1000)%Q →
              Binary64.representable q' ∧ (Qabs q' <= Binary64.pow2 1000)%Q) as HP.
    { intros q q' E [R A]. split.
      - by eapply Binary64Props.representable_comp.
      - by rewrite <- E. }
    assert (Binary64.representable (f c0)
            ∧ (Qabs (f c0) <= Binary64.pow2 1000)%Q) as H0.
    { rewrite Forall_forall in Hf. by apply Hf. }
    assert (minOf f cities = foldl (λ m c, Qmin m (f c)) (f c0) cities) as E1
      by (by rewrite Ecs).
    assert (maxOf f cities = foldl (λ m c, Qmax m (f c)) (f c0) cities) as E2
      by (by rewrite Ecs).
    destruct (foldl_Qmin_ind _ f cities (f c0) HP H0 Hf) as [Rm Am].
    destruct (foldl_Qmax_ind _ f cities (f c0) HP H0 Hf) as [_ AM].
    rewrite <- E1 in Rm, Am. rewrite <- E2 in AM.
    apply dragAxis_bounds; [done| |done|done|lia|lia].
    rewrite E1, E2.
    eapply Qle_trans; [by apply (foldl_Qmin_le f)|by apply (foldl_Qmax_ge f)]. }
  destruct (Haxis lng) with (k := Z.max 5 (Z.min (gridWidth - 5) cityGridX))
                            (g := gridWidth) as (newLng & -> & HL1 & HL2);
    [|done|lia|].
  { eapply Forall_impl; [exact Hall|]. intros c' (? & ? & ? & ?). done. }
  destruct (Haxis lat) with (k := Z.max 5 (Z.min (gridHeight - 5) cityGridY))
                            (g := gridHeight) as (newLat & -> & HA1 & HA2);
    [|done|lia|].
  { eapply Forall_impl; [exact Hall|]. intros c' (? & ? & ? & ?). done. }
  cbn [mbind option_bind]. eexists. split; [reflexivity|].
  cbn [name population lng lat]. done.
Qed.

(** A drag can leave the bounding box by a rounding error: with the
    longitudes nearest to -49.7 and 40.1, a drag of the first city to the
    right edge of a 14 x 14 grid gives it a longitude above the largest
    one, the binary64 number next above it. *)
Example drag_can_overshoot :
  ∃ c', PopMapDrag.onDrag 14 14 MoreExamples.westEast 0 100 5
        = Some (<[0%nat := c']> MoreExamples.westEast)
        ∧ (lng c' == 5643573283048654 # 140737488355328)%Q
        ∧ (maxOf lng MoreExamples.westEast
           == 5643573283048653 # 140737488355328)%Q
        ∧ (maxOf lng MoreExamples.westEast < lng c')%Q.
Proof.
  eexists. split; [vm_compute; reflexivity|]. split_and!; vm_compute; reflexivity.
Qed.

(** ** The theorems at concrete inputs *)

Lemma pack_unpack_valid_witness :
  unpackCoordinate 12 (packCoordinate 12 5 7) = {| x := 5; y := 7 |}
  ∧ (packCoordinate 12 5 7 = packCoordinate 12 0 0 → 5 = 0 ∧ 7 = 0)
  ∧ packCoordinate 12 (5 + 12) 7 = packCoordinate 12 5 (7 + 1).
Proof. exact (pack_unpack_valid 12 12 5 7 0 0 eq_refl eq_refl). Defined.

Lemma unpack_pack_nonneg_witness :
  packCell 12 (unpackCoordinate 12 89) = 89.
Proof.
  refine (proj1 (unpack_pack_nonneg 12 12 89 _ _)); lia.
Defined.

Lemma occupancy_exact_witness :
  size (takenCells (placeTiles 12 12 [Examples.cityA; Examples.cityB'] initial))
  = length (allTiles
              (cityTiles (placeTiles 12 12 [Examples.cityA; Examples.cityB'] initial))).
Proof.
  exact (proj1 (occupancy_exact 12 12 [Examples.cityA; Examples.cityB'])).
Defined.

Lemma shortfall_means_full_grid_witness :
  Z.of_nat (length (allTiles
     (generate 12 12 [Examples.cityA; Examples.cityB; Examples.cityC])))
  = 12 * 12.
Proof.
  refine (shortfall_means_full_grid 12 12
            [Examples.cityA; Examples.cityB; Examples.cityC] 2 Examples.cityC
            (record 2 Examples.cityC []) _ _ _ _).
  - reflexivity.
  - vm_compute. reflexivity.
  - reflexivity.
  - cbn. lia.
Defined.

Lemma nearest_open_cell_witness :
  isOpen 3 3 {[ 4 ]} {| x := 0; y := 0 |}
  ∧ chebyshev 1 1 {| x := 0; y := 0 |} < Z.max 1 (Z.max 3 3)
  ∧ ∀ o, isOpen 3 3 {[ 4 ]} o →
         chebyshev 1 1 {| x := 0; y := 0 |} ≤ chebyshev 1 1 o.
Proof.
  refine (nearest_open_cell 3 3 {[ 4 ]} 1 1 {| x := 0; y := 0 |} _).
  vm_compute. reflexivity.
Defined.

Lemma tie_break_first_witness :
  ∃ best,
    findBestNextCell 3 3 {[ 4 ]} 1 1 [ {| x := 1; y := 1 |} ] = Some best.
Proof.
  destruct (tie_break_first 3 3 {[ 4 ]} 1 1 [ {| x := 1; y := 1 |} ])
    as (best & l1 & l2 & Hbest & _).
  - vm_compute. discriminate.
  - exists best. exact Hbest.
Defined.

Lemma sort_sorted_witness :
  sortCities [Examples.cityA; Examples.cityB; Examples.cityC]
  = [Examples.cityA; Examples.cityB; Examples.cityC].
Proof.
  apply sort_sorted.
  repeat (constructor; try (cbn; lia)).
Defined.

Lemma quota_monotone_witness :
  tileQuota 400 100 ≤ tileQuota 400 300
  ∧ tileQuota 400 0 = 0
  ∧ tileQuota 400 400 = NUM_TILES.
Proof. refine (quota_monotone 400 100 300 _ _); lia. Defined.

Lemma quota_sum_witness :
  ∃ quotas,
    mapM (PopMapGenerator64.quota64 MoreExamples.threeCities)
         MoreExamples.threeCities = Some quotas
    ∧ 2 * Z.abs (foldr Z.add 0 quotas - NUM_TILES)
      ≤ Z.of_nat (length MoreExamples.threeCities).
Proof.
  refine (quota_sum MoreExamples.threeCities _ _).
  - repeat constructor; cbn; lia.
  - cbn. lia.
Defined.

Lemma run_records_witness :
  length (generate 12 12 [Examples.cityA; Examples.cityB; Examples.cityC])
  = length MoreExamples.threeCities
  ∧ cityName <$> generate 12 12 [Examples.cityA; Examples.cityB; Examples.cityC]
    ≡ₚ name <$> MoreExamples.threeCities.
Proof.
  refine (run_records 12 12 MoreExamples.threeCities _ _).
  vm_compute. reflexivity.
Defined.



Lemma drag_range_witness :
  ∃ c', PopMapDrag.onDrag 14 14 MoreExamples.westEast 0 100 5
        = Some (<[0%nat := c']> MoreExamples.westEast)
        ∧ name c' = "W"%string ∧ population c' = 1
        ∧ (minOf lng MoreExamples.westEast <= lng c')%Q
        ∧ (lng c' <= Binary64.round
                       (minOf lng MoreExamples.westEast
                        + Binary64.round (maxOf lng MoreExamples.westEast
                                          - minOf lng MoreExamples.westEast)))%Q
        ∧ (minOf lat MoreExamples.westEast <= lat c')%Q
        ∧ (lat c' <= Binary64.round
                       (minOf lat MoreExamples.westEast
                        + Binary64.round (maxOf lat MoreExamples.westEast
                                          - minOf lat MoreExamples.westEast)))%Q.
Proof.
  refine (drag_range 14 14 MoreExamples.westEast 0 100 5
            (mkCity "W" 1 0 (-3497326585629901 # 70368744177664)) _ _ _ _).
  - lia.
  - lia.
  - reflexivity.
  - repeat constructor;
      first [ by exists 0, 0
            | by exists 1, 0
            | by exists (-3497326585629901), (-46)
            | by exists 5643573283048653, (-47)
            | (vm_compute; discriminate) ].
Defined.

End GeneratorExtra.

(** * Further properties of the render grid and its layout *)
Module RenderExtra.
Import PopMapGenerator PopMap PopMapView RenderSpec RenderProps ExtraSpec.

Lemma render_cells gridWidth gridHeight cityTiles :
  Forall (λ cd, Forall (λ t, isValidCell gridWidth gridHeight (x t) (y t) = true)
                       (tiles cd)) cityTiles →
  ∃ g, renderGrid gridWidth gridHeight cityTiles = Some g
       ∧ (∀ tx ty, cellAt g (2 * tx + 1) (2 * ty + 1) = owner cityTiles tx ty)
       ∧ (∀ tx ty, is_Some (owner cityTiles tx ty) →
                   isValidCell gridWidth gridHeight tx ty = true)
       ∧ (∀ i j, interior gridWidth gridHeight i j →
                 cellAt g (2 * i) (2 * j - 1) = edgeX cityTiles i j
                 ∧ cellAt g (2 * i - 1) (2 * j) = edgeY cityTiles i j
                 ∧ cellAt g (2 * i) (2 * j) = corner cityTiles i j)
       ∧ (∀ i j, ¬ interior gridWidth gridHeight i j →
                 cellAt g (2 * i) (2 * j - 1) = None
                 ∧ cellAt g (2 * i - 1) (2 * j) = None
                 ∧ cellAt g (2 * i) (2 * j) = None).
Proof.
  intros Hvalid.
  destruct (renderGrid_spec gridWidth gridHeight cityTiles Hvalid) as (g & Hg & Hinv).
  destruct (final_cells gridWidth gridHeight cityTiles g Hinv) as (F1 & F2 & F3).
  assert (∀ tx ty, isValidCell gridWidth gridHeight tx ty = false →
                   owner cityTiles tx ty = None) as Hinvalid.
  { intros tx ty Hv. apply owner_None. intros cd Hcd Hin.
    rewrite Forall_forall in Hvalid. specialize (Hvalid _ Hcd).
    rewrite Forall_forall in Hvalid. specialize (Hvalid _ Hin). cbn in Hvalid.
    congruence. }
  exists g. split_and!; [done| | |done|done].
  - intros tx ty. rewrite F1.
    destruct (isValidCell _ _ tx ty) eqn:E; [done|]. by rewrite Hinvalid.
  - intros tx ty [v Hv].
    destruct (isValidCell _ _ tx ty) eqn:E; [done|]. rewrite Hinvalid in Hv; done.
Qed.

(** X18 (the last record wins).
    When several records hold the same tile, the render cell of the tile
    carries the index of the last of them: later records overwrite earlier
    ones. *)
Theorem last_writer_wins (gridWidth gridHeight : Z) (cityTiles : list CityTiles) :
  Forall (λ cd, Forall (λ t, isValidCell gridWidth gridHeight (x t) (y t) = true)
                       (tiles cd)) cityTiles →
  ∃ g, renderGrid gridWidth gridHeight cityTiles = Some g
       ∧ ∀ before cd after t,
           cityTiles = before ++ cd :: after → t ∈ tiles cd →
           Forall (λ cd', t ∉ tiles cd') after →
           cellAt g (2 * x t + 1) (2 * y t + 1) = Some (index cd).
Proof.
  intros Hvalid.
  destruct (render_cells gridWidth gridHeight cityTiles Hvalid)
    as (g & Hg & Hown & _).
  exists g. split; [done|]. intros before cd after [a b] -> Ht Hafter.
  cbn [x y]. rewrite Hown. unfold owner. rewrite foldl_app. cbn [foldl].
  rewrite decide_True by done. apply owner_None.
  intros cd' Hcd'. rewrite Forall_forall in Hafter. by apply Hafter.
Qed.

(** X19 (borders between two tiles).
    The border cell between two tiles of one location, one above the other,
    is assigned unless the pair lies in the last tile column; the border cell
    between two tiles side by side is assigned unless the pair lies in the
    last tile row.  The loops over the even positions stop before the last
    row and column. *)
Theorem borders_of_pairs (gridWidth gridHeight : Z) (cityTiles : list CityTiles) :
  Forall (λ cd, Forall (λ t, isValidCell gridWidth gridHeight (x t) (y t) = true)
                       (tiles cd)) cityTiles →
  ∃ g, renderGrid gridWidth gridHeight cityTiles = Some g
       ∧ (∀ tx ty v,
            cellAt g (2 * tx + 1) (2 * ty + 1) = Some v →
            cellAt g (2 * tx + 1) (2 * ty + 3) = Some v →
            cellAt g (2 * tx + 1) (2 * ty + 2)
            = if decide (tx + 1 < gridWidth) then Some v else None)
       ∧ (∀ tx ty v,
            cellAt g (2 * tx + 1) (2 * ty + 1) = Some v →
            cellAt g (2 * tx + 3) (2 * ty + 1) = Some v →
            cellAt g (2 * tx + 2) (2 * ty + 1)
            = if decide (ty + 1 < gridHeight) then Some v else None).
Proof.
  intros Hvalid.
  destruct (render_cells gridWidth gridHeight cityTiles Hvalid)
    as (g & Hg & Hown & Hsome & F2 & F3).
  exists g. split; [done|]. split.
  - intros tx ty v H0 H1.
    rewrite Hown in H0.
    replace (2 * ty + 3) with (2 * (ty + 1) + 1) in H1 by lia. rewrite Hown in H1.
    pose proof (Hsome _ _ (mk_is_Some _ _ H0)) as V0.
    pose proof (Hsome _ _ (mk_is_Some _ _ H1)) as V1.
    apply valid_range in V0, V1.
    replace (2 * tx + 1) with (2 * (tx + 1) - 1) by lia.
    replace (2 * ty + 2) with (2 * (ty + 1)) by lia.
    case_decide as Hlast.
    + destruct (F2 (tx + 1) (ty + 1)) as (_ & -> & _); [unfold interior; lia|].
      apply edgeY_Some. split; [rewrite <- H0|rewrite <- H1]; f_equal; lia.
    + apply F3. unfold interior. lia.
  - intros tx ty v H0 H1.
    rewrite Hown in H0.
    replace (2 * tx + 3) with (2 * (tx + 1) + 1) in H1 by lia. rewrite Hown in H1.
    pose proof (Hsome _ _ (mk_is_Some _ _ H0)) as V0.
    pose proof (Hsome _ _ (mk_is_Some _ _ H1)) as V1.
    apply valid_range in V0, V1.
    replace (2 * tx + 2) with (2 * (tx + 1)) by lia.
    replace (2 * ty + 1) with (2 * (ty + 1) - 1) by lia.
    case_decide as Hlast.
    + destruct (F2 (tx + 1) (ty + 1)) as (-> & _ & _); [unfold interior; lia|].
      apply edgeX_Some. split; [rewrite <- H0|rewrite <- H1]; f_equal; lia.
    + apply F3. unfold interior. lia.
Qed.

(** ** Rendering the output of the generator *)

Lemma owner_inv cityTiles tx ty v :
  owner cityTiles tx ty = Some v →
  ∃ cd, cd ∈ cityTiles ∧ index cd = v ∧ {| x := tx; y := ty |} ∈ tiles cd.
Proof.
  unfold owner.
  assert (∀ o, foldl (λ o cityData,
                        if decide ({| x := tx; y := ty |} ∈ tiles cityData)
                        then Some (index cityData) else o) o cityTiles = Some v →
               o = Some v
               ∨ ∃ cd, cd ∈ cityTiles ∧ index cd = v
                       ∧ {| x := tx; y := ty |} ∈ tiles cd) as H.
  { induction cityTiles as [|cd cts IH]; intros o Ho; [by left|].
    cbn [foldl] in Ho. apply IH in Ho as [Ho|(cd' & Hcd' & Hidx & Hin)].
    - case_decide as E.
      + right. exists cd. split_and!; [apply list_elem_of_here|congruence|done].
      + by left.
    - right. exists cd'. split_and!; [by apply list_elem_of_further|done..]. }
  intros Ho. destruct (H None Ho) as [?|?]; done.
Qed.

Lemma cells_from_owner gridWidth gridHeight cityTiles g :
  (∀ tx ty, cellAt g (2 * tx + 1) (2 * ty + 1) = owner cityTiles tx ty) →
  (∀ i j, interior gridWidth gridHeight i j →
          cellAt g (2 * i) (2 * j - 1) = edgeX cityTiles i j
          ∧ cellAt g (2 * i - 1) (2 * j) = edgeY cityTiles i j
          ∧ cellAt g (2 * i) (2 * j) = corner cityTiles i j) →
  (∀ i j, ¬ interior gridWidth gridHeight i j →
          cellAt g (2 * i) (2 * j - 1) = None
          ∧ cellAt g (2 * i - 1) (2 * j) = None
          ∧ cellAt g (2 * i) (2 * j) = None) →
  ∀ rx ry v, cellAt g rx ry = Some v →
             ∃ tx ty, owner cityTiles tx ty = Some v.
Proof.
  intros F1 F2 F3 rx ry v H.
  destruct (Z.odd rx) eqn:Ex, (Z.odd ry) eqn:Ey.
  - apply Z.odd_spec in Ex as [a ->], Ey as [b ->]. rewrite F1 in H. eauto.
  - rewrite <- Z.negb_even in Ey. apply negb_false_iff, Z.even_spec in Ey as [b ->].
    apply Z.odd_spec in Ex as [a ->].
    replace (2 * a + 1) with (2 * (a + 1) - 1) in H by lia.
    destruct (decide (1 ≤ a + 1 ≤ gridWidth - 1 ∧ 1 ≤ b ≤ gridHeight - 1)) as [I|I].
    + destruct (F2 _ _ I) as (_ & E & _). rewrite E in H.
      apply edgeY_Some in H as [H _]. eauto.
    + destruct (F3 _ _ I) as (_ & E & _). congruence.
  - rewrite <- Z.negb_even in Ex. apply negb_false_iff, Z.even_spec in Ex as [a ->].
    apply Z.odd_spec in Ey as [b ->].
    replace (2 * b + 1) with (2 * (b + 1) - 1) in H by lia.
    destruct (decide (1 ≤ a ≤ gridWidth - 1 ∧ 1 ≤ b + 1 ≤ gridHeight - 1)) as [I|I].
    + destruct (F2 _ _ I) as (E & _ & _). rewrite E in H.
      apply edgeX_Some in H as [H _]. eauto.
    + destruct (F3 _ _ I) as (E & _ & _). congruence.
  - rewrite <- Z.negb_even in Ex. apply negb_false_iff, Z.even_spec in Ex as [a ->].
    rewrite <- Z.negb_even in Ey. apply negb_false_iff, Z.even_spec in Ey as [b ->].
    destruct (decide (1 ≤ a ≤ gridWidth - 1 ∧ 1 ≤ b ≤ gridHeight - 1)) as [I|I].
    + destruct (F2 _ _ I) as (_ & _ & E). rewrite E in H.
      apply corner_Some in H as [H _]. eauto.
    + destruct (F3 _ _ I) as (_ & _ & E). congruence.
Qed.

Lemma generate_index gridWidth gridHeight cities i ct :
  generate gridWidth gridHeight cities !! i = Some ct →
  index ct = i ∧ color ct = getColor i.
Proof.
  intros Hct.
  destruct (GeneratorProps.generate_lookup_inv _ _ _ _ _ Hct) as [c Hc].
  rewrite (GeneratorProps.generate_lookup _ _ _ _ _ Hc) in Hct.
  injection Hct as <-. done.
Qed.

Lemma find_by_index (l : list CityTiles) (k j : nat) cd :
  (∀ i c, l !! i = Some c → index c = (k + i)%nat) →
  l !! j = Some cd →
  List.find (λ c, Nat.eqb (index c) (k + j)) l = Some cd.
Proof.
  revert k j. induction l as [|c l IH]; intros k j Hidx Hj; [done|].
  cbn [List.find]. destruct j as [|j].
  - injection Hj as ->. rewrite (Hidx 0%nat cd eq_refl), Nat.eqb_refl. done.
  - rewrite (Hidx 0%nat c eq_refl).
    destruct (Nat.eqb_spec (k + 0) (k + S j)) as [E|_]; [lia|].
    replace (k + S j)%nat with (S k + j)%nat by lia.
    apply IH; [|done]. intros i c' Hc'.
    rewrite (Hidx (S i) c' Hc'). lia.
Qed.

(** X20 (the generator's output on the render grid).
    The render grid of the records returned by [generate()] always exists
    (no tile is written outside the grid), the render cell of every tile
    holds the index of the record the tile belongs to, and the render cell
    of a grid cell that no
    record holds is unassigned. *)
Theorem render_of_generate (gridWidth gridHeight : Z) (cities : list GridCity) :
  ∃ g,
    renderGrid gridWidth gridHeight (generate gridWidth gridHeight cities) = Some g
    ∧ (∀ i ct t,
         generate gridWidth gridHeight cities !! i = Some ct → t ∈ tiles ct →
         cellAt g (2 * x t + 1) (2 * y t + 1) = Some i)
    ∧ (∀ tx ty,
         (∀ ct, ct ∈ generate gridWidth gridHeight cities →
                {| x := tx; y := ty |} ∉ tiles ct) →
         cellAt g (2 * tx + 1) (2 * ty + 1) = None).
Proof.
  destruct (render_cells gridWidth gridHeight (generate gridWidth gridHeight cities)
              (GeneratorProps.generate_valid gridWidth gridHeight cities))
    as (g & Hg & Hcell & _).
  exists g. split_and!; [done| |].
  - intros i ct [a b] Hct Ht. cbn [x y]. rewrite Hcell. apply owner_Some.
    + exists ct. split; [by eapply list_elem_of_lookup_2|done].
    + intros cd [j Hj]%list_elem_of_lookup Hin.
      destruct (generate_index _ _ _ _ _ Hj) as [Hidx _]. rewrite Hidx.
      destruct (Nat.lt_trichotomy j i) as [Hlt|[Heq|Hgt]]; [|done|].
      * exfalso.
        by apply (GeneratorProps.generate_disjoint gridWidth gridHeight cities
                    j i cd ct {| x := a; y := b |}).
      * exfalso.
        by apply (GeneratorProps.generate_disjoint gridWidth gridHeight cities
                    i j ct cd {| x := a; y := b |}).
  - intros tx ty Hno. rewrite Hcell. by apply owner_None.
Qed.

(** X21 (fill colour).
    Every assigned cell of the render grid of the generator's output, tile,
    border or corner, holds the index of a record with at least one tile,
    and the drawing loop fills it with that record's palette colour, never
    with the background colour. *)
Theorem fill_colour_of_cells (gridWidth gridHeight : Z) (cities : list GridCity) :
  ∃ g,
    renderGrid gridWidth gridHeight (generate gridWidth gridHeight cities) = Some g
    ∧ ∀ rx ry v, cellAt g rx ry = Some v →
        ∃ ct, generate gridWidth gridHeight cities !! v = Some ct
              ∧ tiles ct ≠ []
              ∧ fillColor (generate gridWidth gridHeight cities) v = getColor v
              ∧ fillColor (generate gridWidth gridHeight cities) v ≠ backgroundColor.
Proof.
  destruct (render_cells gridWidth gridHeight (generate gridWidth gridHeight cities)
              (GeneratorProps.generate_valid gridWidth gridHeight cities))
    as (g & Hg & F1 & _ & F2 & F3).
  exists g. split; [done|]. intros rx ry v Hv.
  destruct (cells_from_owner _ _ _ _ F1 F2 F3 rx ry v Hv) as (tx & ty & Ho).
  apply owner_inv in Ho as (cd & [j Hj]%list_elem_of_lookup & Hidx & Hin).
  destruct (generate_index _ _ _ _ _ Hj) as [Hj' Hcol].
  assert (j = v) as -> by congruence.
  assert (fillColor (generate gridWidth gridHeight cities) v = getColor v) as Hfill.
  { unfold fillColor.
    change v with (0 + v)%nat at 1.
    rewrite (find_by_index (generate gridWidth gridHeight cities) 0 v cd); [done| |done].
    intros i c Hc. by destruct (generate_index _ _ _ _ _ Hc) as [-> _]. }
  exists cd. split_and!; [done| |done|].
  - intros E. rewrite E in Hin. by apply elem_of_nil in Hin.
  - rewrite Hfill. intros E.
    assert (Forall (λ s, s ≠ backgroundColor) COLOR_PALETTE) as Hpal.
    { unfold COLOR_PALETTE.
      repeat (apply Forall_cons_2; [discriminate|]). apply Forall_nil_2. }
    rewrite Forall_forall in Hpal. apply (Hpal (getColor v)); [|done].
    unfold getColor. apply list_elem_of_In, nth_In, Nat.mod_upper_bound. done.
Qed.

(** ** The pixel layout *)

Lemma pixel_even m : pixel (2 * m) = 10 * m.
Proof.
  unfold pixel, GRID_SIZE. rewrite Z.odd_mul. cbn [Z.odd andb].
  rewrite (Z.mul_comm 2 m), Z.div_mul by lia. lia.
Qed.

Lemma pixel_odd m : pixel (2 * m + 1) = 10 * m + 2.
Proof.
  unfold pixel, GRID_SIZE, BORDER_SIZE.
  rewrite (Z.add_comm (2 * m) 1), Z.odd_add_mul_2. cbn [Z.odd].
  rewrite (Z.mul_comm 2 m), Z.div_add by lia. change (1 / 2) with 0. lia.
Qed.

Lemma cellSize_even m : 0 ≤ m → cellSize (2 * m) = BORDER_SIZE.
Proof.
  intros Hm. unfold cellSize. rewrite Z.rem_mod_nonneg by lia.
  rewrite (Z.mul_comm 2 m), Z.mod_mul by lia. done.
Qed.

Lemma cellSize_odd m : 0 ≤ m → cellSize (2 * m + 1) = cityTileSize.
Proof.
  intros Hm. unfold cellSize. rewrite Z.rem_mod_nonneg by lia.
  rewrite (Z.add_comm (2 * m) 1), (Z.mul_comm 2 m), Z.mod_add by lia. done.
Qed.

Lemma fillPositions_length k x0 pos :
  length (fillPositions k x0 pos) = length pos.
Proof.
  revert x0 pos. induction k as [|k IH]; intros x0 pos; [done|].
  cbn [fillPositions]. by rewrite IH, !length_insert.
Qed.

Lemma fillPositions_lookup k j pos (i : nat) :
  0 ≤ j → (Z.to_nat (2 * j + 2 * Z.of_nat k) ≤ length pos)%nat →
  fillPositions k (2 * j) pos !! i
  = if decide (2 * j ≤ Z.of_nat i < 2 * j + 2 * Z.of_nat k)
    then Some (Some (pixel (Z.of_nat i))) else pos !! i.
Proof.
  revert j pos. induction k as [|k IH]; intros j pos Hj Hlen.
  { cbn [fillPositions]. rewrite decide_False by lia. done. }
  cbn [fillPositions].
  replace (2 * j + 2) with (2 * (j + 1)) by lia.
  rewrite IH by (rewrite ?length_insert; lia).
  destruct (decide (2 * (j + 1) ≤ Z.of_nat i < 2 * (j + 1) + 2 * Z.of_nat k)).
  { rewrite decide_True by lia. done. }
  destruct (decide (Z.of_nat i = 2 * j + 1)) as [Ei|Ei].
  { rewrite decide_True by lia.
    replace i with (Z.to_nat (2 * j + 1)) at 1 by lia.
    rewrite list_lookup_insert_eq by (rewrite length_insert; lia).
    rewrite Ei, pixel_odd, (Z.mul_comm 2 j), Z.div_mul by lia.
    unfold GRID_SIZE, BORDER_SIZE. do 2 f_equal; lia. }
  rewrite list_lookup_insert_ne by lia.
  destruct (decide (Z.of_nat i = 2 * j)) as [Ei'|Ei'].
  { rewrite decide_True by lia.
    replace i with (Z.to_nat (2 * j)) at 1 by lia.
    rewrite list_lookup_insert_eq by lia.
    rewrite Ei', pixel_even, (Z.mul_comm 2 j), Z.div_mul by lia.
    unfold GRID_SIZE. do 2 f_equal; lia. }
  rewrite list_lookup_insert_ne by lia.
  rewrite decide_False by lia. done.
Qed.

Lemma positions_lookup gridSize xr :
  0 ≤ gridSize → 0 ≤ xr ≤ 2 * gridSize →
  positions gridSize !! Z.to_nat xr = Some (Some (pixel xr)).
Proof.
  intros Hg Hx. unfold positions. cbn zeta.
  replace ((gridSize * 2 + 1) / 2) with gridSize
    by (rewrite (Z.add_comm (gridSize * 2) 1), Z.div_add by lia; done).
  replace (gridSize * 2 + 1 - 1) with (gridSize * 2) by lia.
  rewrite Z.div_mul by lia.
  destruct (decide (xr = gridSize * 2)) as [->|Hne].
  - rewrite list_lookup_insert_eq
      by (rewrite fillPositions_length, length_replicate; lia).
    rewrite (Z.mul_comm gridSize 2), pixel_even. unfold GRID_SIZE. done.
  - rewrite list_lookup_insert_ne by lia.
    rewrite (fillPositions_lookup (Z.to_nat gridSize) 0)
      by (rewrite ?length_replicate; lia).
    rewrite decide_True by lia. by rewrite Z2Nat.id by lia.
Qed.

(** X22 (edge-to-edge layout).
    The position arrays have no hole and lay the cells out edge to edge:
    cell [x] starts at pixel [10 * (x / 2)], plus the 2-pixel border when [x]
    is odd, and the next cell starts exactly where cell [x] ends. *)
Theorem layout_edge_to_edge (gridSize xr : Z) :
  0 ≤ gridSize → 0 ≤ xr < 2 * gridSize →
  length (positions gridSize) = Z.to_nat (2 * gridSize + 1)
  ∧ positions gridSize !! Z.to_nat xr = Some (Some (pixel xr))
  ∧ positions gridSize !! Z.to_nat (xr + 1) = Some (Some (pixel xr + cellSize xr))
  ∧ positions gridSize !! 0%nat = Some (Some 0).
Proof.
  intros Hg Hx. split_and!.
  - unfold positions. cbn zeta.
    rewrite length_insert, fillPositions_length, length_replicate. f_equal. lia.
  - apply positions_lookup; lia.
  - rewrite positions_lookup by lia. do 2 f_equal.
    destruct (Z.odd xr) eqn:E.
    + apply Z.odd_spec in E as [m ->].
      replace (2 * m + 1 + 1) with (2 * (m + 1)) by lia.
      rewrite pixel_even, pixel_odd, cellSize_odd by lia.
      unfold cityTileSize, GRID_SIZE, BORDER_SIZE. lia.
    + rewrite <- Z.negb_even, negb_false_iff in E. apply Z.even_spec in E as [m ->].
      rewrite pixel_even, pixel_odd, cellSize_even by lia.
      unfold BORDER_SIZE. lia.
  - change 0%nat with (Z.to_nat 0). rewrite positions_lookup by lia. done.
Qed.

(** X23 (the rectangle of a tile).
    The tile [(tx, ty)] is drawn as an 8 x 8 square whose corner is at pixel
    [(10 tx + 2, 10 (gridHeight - 1 - ty) + 2)]: rows are flipped, the tile
    row 0 being drawn at the bottom. *)
Theorem tile_rectangle (gridWidth gridHeight tx ty : Z) :
  isValidCell gridWidth gridHeight tx ty = true →
  cellRect gridWidth gridHeight (2 * tx + 1) (2 * ty + 1)
  = Some (10 * tx + 2, 10 * (gridHeight - 1 - ty) + 2, 8, 8).
Proof.
  intros Hv. apply valid_range in Hv. unfold cellRect, flipY. cbn zeta.
  replace (gridHeight * 2 + 1 - 1 - (2 * ty + 1))
    with (2 * (gridHeight - 1 - ty) + 1) by lia.
  replace ((0 <=? 2 * tx + 1) && (0 <=? 2 * (gridHeight - 1 - ty) + 1)) with true
    by (symmetry; apply andb_true_iff; lia).
  rewrite !positions_lookup by lia.
  cbn [mjoin option_join mbind option_bind].
  rewrite !pixel_odd, !cellSize_odd by lia. done.
Qed.

(** ** The theorems at concrete inputs *)

Lemma last_writer_wins_witness :
  ∃ g, renderGrid 3 3 [MoreExamples.overlapFirst; MoreExamples.overlapSecond] = Some g
       ∧ cellAt g 3 3 = Some 2%nat.
Proof.
  destruct (last_writer_wins 3 3
              [MoreExamples.overlapFirst; MoreExamples.overlapSecond])
    as (g & Hg & Hlast).
  - repeat constructor.
  - exists g. split; [exact Hg|].
    exact (Hlast [MoreExamples.overlapFirst] MoreExamples.overlapSecond []
             {| x := 1; y := 1 |} eq_refl (list_elem_of_here _ _) (Forall_nil_2 _)).
Defined.

Lemma borders_of_pairs_witness :
  ∃ g, renderGrid 3 3 Examples.block = Some g
       ∧ cellAt g 3 4 = Some 7%nat
       ∧ cellAt g 5 4 = None.
Proof.
  destruct (borders_of_pairs 3 3 Examples.block) as (g & Hg & Hvert & _).
  - repeat constructor.
  - exists g. split; [exact Hg|].
    vm_compute in Hg. injection Hg as <-. split.
    + exact (Hvert 1 1 7%nat eq_refl eq_refl).
    + exact (Hvert 2 1 7%nat eq_refl eq_refl).
Defined.

Lemma layout_edge_to_edge_witness :
  length (positions 3) = Z.to_nat (2 * 3 + 1)
  ∧ positions 3 !! Z.to_nat 3 = Some (Some (pixel 3))
  ∧ positions 3 !! Z.to_nat (3 + 1) = Some (Some (pixel 3 + cellSize 3))
  ∧ positions 3 !! 0%nat = Some (Some 0).
Proof. refine (layout_edge_to_edge 3 3 _ _); lia. Defined.

Lemma tile_rectangle_witness :
  cellRect 4 4 (2 * 1 + 1) (2 * 2 + 1)
  = Some (10 * 1 + 2, 10 * (4 - 1 - 2) + 2, 8, 8).
Proof. exact (tile_rectangle 4 4 1 2 eq_refl). Defined.

End RenderExtra.
